(** * jons-mcp-reminders: the tool handlers and the access serializer

    A shallow embedding of [src/jons_mcp_reminders]: the pydantic models
    ([models.py]), the EventKit wrapper ([store.py]), the converters the
    wrapper calls ([converters.py]), the tool handlers ([tools/*.py]) and the
    environment constants ([constants.py]).

    Python values are modelled as follows.
    - [int] is [Z]; [float] is [Q] (the real-number reading of the float, no
      rounding); [str] is [string]; [None]-able values are [option].
    - a raised exception is the [Raised] case of [Result]; code that mutates
      the process or the native store is a function of the [World].
    - the native framework (EventKit, Foundation) is not Python code: its
      objects are records holding what the accessors return, and its verdicts
      (does a save succeed, what does the user answer to the prompt) are
      fields of the native store the functions read. *)

From stdpp Require Import base numbers list strings gmap pretty relations.
From Stdlib Require Import Ascii QArith.

Set Default Proof Using "Type".
Local Open Scope Z_scope.

(** ** Python built-ins *)

(** A slice bound [i] of a sequence of length [n]: negative bounds count from
    the end, and every bound is clamped to [0..n]. *)
Definition slice_bound (n : nat) (i : Z) : nat :=
  if i <? 0 then Z.to_nat (Z.max 0 (Z.of_nat n + i))
  else Nat.min (Z.to_nat i) n.

(** [items[i:]] *)
Definition slice_from {A} (items : list A) (i : Z) : list A :=
  drop (slice_bound (length items) i) items.

(** [items[:i]] *)
Definition slice_to {A} (items : list A) (i : Z) : list A :=
  take (slice_bound (length items) i) items.

(** [needle in hay] on [str]: [needle] occurs in [hay] as a contiguous run. *)
Fixpoint str_in (needle hay : string) : bool :=
  String.prefix needle hay ||
  match hay with
  | EmptyString => false
  | String _ hay' => str_in needle hay'
  end.

(** [x or y] on an optional string: [None] and [""] are falsy. *)
Definition str_or (x : option string) (y : string) : string :=
  match x with
  | Some (String _ _ as s) => s
  | _ => y
  end.

(** The truth value of an optional string. *)
Definition str_truthy (x : option string) : bool :=
  match x with
  | Some (String _ _) => true
  | _ => false
  end.

(** [str.lower] on the ASCII letters. Python maps every cased code point;
    the tool handlers below take the case mapping as a parameter, and this
    one instantiates it on concrete ASCII inputs. *)
Definition ascii_lower (c : ascii) : ascii :=
  let n := nat_of_ascii c in
  if (65 <=? n)%nat && (n <=? 90)%nat then ascii_of_nat (n + 32) else c.

Fixpoint lower_ascii (s : string) : string :=
  match s with
  | EmptyString => EmptyString
  | String c s' => String (ascii_lower c) (lower_ascii s')
  end.

(** ** tools/reminders.py, tools/search.py: [_paginate]

    The two modules define the same helper. [offset] is skipped when it is
    falsy (zero); [limit] is applied when it is not [None]. *)
Definition _paginate {A} (items : list A) (offset : Z) (limit : option Z)
  : list A :=
  let items := if offset =? 0 then items else slice_from items offset in
  match limit with
  | Some n => slice_to items n
  | None => items
  end.

(** ** models.py *)

(** [datetime.datetime], by its fields. *)
Record datetime := {
  dt_year : Z; dt_month : Z; dt_day : Z;
  dt_hour : Z; dt_minute : Z; dt_second : Z
}.

Inductive Priority := NONE | HIGH | MEDIUM | LOW.

(** [int(priority)] *)
Definition Priority_int (p : Priority) : Z :=
  match p with NONE => 0 | HIGH => 1 | MEDIUM => 5 | LOW => 9 end.

(** [Priority(v)]; [None] is the [ValueError] of a value outside the enum. *)
Definition Priority_of_int (v : Z) : option Priority :=
  if v =? 0 then Some NONE
  else if v =? 1 then Some HIGH
  else if v =? 5 then Some MEDIUM
  else if v =? 9 then Some LOW
  else None.

Inductive Proximity := ENTER | LEAVE.

Record LocationTrigger := {
  lt_title : string;
  lt_latitude : Q;
  lt_longitude : Q;
  lt_radius : Q;
  lt_proximity : Proximity
}.

Record ReminderList := {
  rl_id : string;
  rl_title : string;
  rl_color : option string;
  rl_is_default : bool
}.

(** [completion_date], [creation_date] and [last_modified_date] are native
    timestamps that no handler reads or writes; they are left out. *)
Record Reminder := {
  r_id : string;
  r_title : string;
  r_list_id : string;
  r_notes : option string;
  r_url : option string;
  r_is_completed : bool;
  r_due_date : option datetime;
  r_start_date : option datetime;
  r_priority : Priority;
  r_location : option LocationTrigger
}.

Record BatchResult := {
  successes : Z;
  failures : Z;
  failed_ids : list string;
  errors : list string
}.

(** [BatchResult.total] *)
Definition total (b : BatchResult) : Z := successes b + failures b.

(** [BatchResult.all_succeeded] *)
Definition all_succeeded (b : BatchResult) : bool := failures b =? 0.

(** ** exceptions.py *)

Record NSError := {
  ns_domain : string;
  ns_code : Z;
  ns_localizedDescription : string
}.

Inductive Exc :=
| PermissionTimeoutError (timeout_seconds : Z)
| AccessDeniedError
| EventKitError (message : string) (domain : option string) (code : option Z)
| NotFoundError (resource_type resource_id : string)
| NoWritableSourceError
| TimeoutError (message : string).

(** [EventKitError.from_nserror(error)] for an error that is not [None]. *)
Definition from_nserror (error : NSError) : Exc :=
  EventKitError (ns_localizedDescription error)
                (Some (ns_domain error)) (Some (ns_code error)).

(** [str(e)]: the message handed to [Exception.__init__]. *)
Definition exc_str (e : Exc) : string :=
  match e with
  | PermissionTimeoutError t =>
      "Permission request timed out after " +:+ pretty t +:+
      " seconds. Please respond to the permission dialog and try again."
  | AccessDeniedError =>
      "Reminders access denied. Please grant access in " +:+
      "System Settings > Privacy & Security > Reminders."
  | EventKitError m _ _ => m
  | NotFoundError ty i => ty +:+ " not found: " +:+ i
  | NoWritableSourceError =>
      "No writable source available for reminders. " +:+
      "Please configure a reminder account in System Settings > Internet Accounts."
  | TimeoutError m => m
  end.

(** The outcome of running Python code: a value, or a raised exception. *)
Inductive Result (A : Type) :=
| Ok (a : A)
| Raised (e : Exc).
Arguments Ok {A} a.
Arguments Raised {A} e.

(** ** The native objects (EventKit, Foundation, CoreLocation) *)

Record NSDateComponents := {
  dc_year : Z; dc_month : Z; dc_day : Z;
  dc_hour : Z; dc_minute : Z; dc_second : Z
}.

Record NSURL := { absoluteString : string }.

Record CLLocation := { coord_latitude : Q; coord_longitude : Q }.

Record EKStructuredLocation := {
  sl_title : option string;
  sl_geoLocation : option CLLocation;
  sl_radius : Q
}.

Inductive EKAlarmProximity :=
| EKAlarmProximityNone
| EKAlarmProximityEnter
| EKAlarmProximityLeave.

(** An alarm is a location alarm when it has a structured location; a time
    alarm has none and fires at [relativeOffset]. *)
Record EKAlarm := {
  structuredLocation : option EKStructuredLocation;
  alarm_proximity : EKAlarmProximity;
  relativeOffset : Q
}.

(** A calendar is a reminder list; [CGColor] is its colour by components. *)
Record EKCalendar := {
  calendarIdentifier : string;
  cal_title : option string;
  CGColor : option (list Q);
  allowsContentModifications : bool
}.

Record EKReminder := {
  calendarItemIdentifier : string;
  calendarItemExternalIdentifier : string;
  ek_title : option string;
  ek_calendar : EKCalendar;
  ek_notes : option string;
  ek_URL : option NSURL;
  isCompleted : bool;
  dueDateComponents : option NSDateComponents;
  startDateComponents : option NSDateComponents;
  ek_priority : Z;
  alarms : list EKAlarm
}.

(** What the store's item lookups return: a reminder, or a calendar item of
    another class (an event), which [isinstance(_, EKReminder)] rejects. *)
Inductive EKCalendarItem :=
| ItemReminder (r : EKReminder)
| ItemEvent (identifier externalIdentifier : string).

Definition item_identifier (it : EKCalendarItem) : string :=
  match it with
  | ItemReminder r => calendarItemIdentifier r
  | ItemEvent i _ => i
  end.

Definition item_externalIdentifier (it : EKCalendarItem) : string :=
  match it with
  | ItemReminder r => calendarItemExternalIdentifier r
  | ItemEvent _ e => e
  end.

#[global] Instance Q_eq_dec : EqDecision Q.
Proof. solve_decision. Defined.
#[global] Instance CLLocation_eq_dec : EqDecision CLLocation.
Proof. solve_decision. Defined.
#[global] Instance EKStructuredLocation_eq_dec : EqDecision EKStructuredLocation.
Proof. solve_decision. Defined.
#[global] Instance EKAlarmProximity_eq_dec : EqDecision EKAlarmProximity.
Proof. solve_decision. Defined.
#[global] Instance EKAlarm_eq_dec : EqDecision EKAlarm.
Proof. solve_decision. Defined.

(** ** converters.py *)

(** The dict [ek_reminder_to_dict] builds for the location: the keys of
    [LocationTrigger], which the [Reminder] constructor turns into the model. *)
Record LocationData := {
  ld_title : string;
  ld_latitude : Q;
  ld_longitude : Q;
  ld_radius : Q;
  ld_proximity : Proximity
}.

(** The dict [ek_reminder_to_dict] builds, by its keys. *)
Record ReminderData := {
  d_id : string;
  d_title : string;
  d_list_id : string;
  d_notes : option string;
  d_url : option string;
  d_is_completed : bool;
  d_due_date : option datetime;
  d_start_date : option datetime;
  d_priority : Priority;
  d_location : option LocationData
}.

(** The dict [ek_calendar_to_dict] builds, by its keys. *)
Record ListData := {
  ldt_id : string;
  ldt_title : string;
  ldt_color : option string;
  ldt_is_default : bool
}.

(** [NSDate], by the [datetime] it was made from or converts to. *)
Record NSDate := { nsdate_datetime : datetime }.

Definition NSUndefinedDateComponent : Z := 0x7FFFFFFF.

Definition datetime_to_nsdate (dt : datetime) : NSDate :=
  {| nsdate_datetime := dt |}.

Definition datetime_to_components (dt : datetime) : NSDateComponents :=
  {| dc_year := dt_year dt; dc_month := dt_month dt; dc_day := dt_day dt;
     dc_hour := dt_hour dt; dc_minute := dt_minute dt;
     dc_second := dt_second dt |}.

Definition components_to_datetime (components : option NSDateComponents)
  : option datetime :=
  match components with
  | None => None
  | Some c =>
      if dc_year c =? NSUndefinedDateComponent then None
      else if (dc_month c =? NSUndefinedDateComponent)
              || (dc_day c =? NSUndefinedDateComponent) then None
      else
        let or0 v := if v =? NSUndefinedDateComponent then 0 else v in
        Some {| dt_year := dc_year c; dt_month := dc_month c;
                dt_day := dc_day c; dt_hour := or0 (dc_hour c);
                dt_minute := or0 (dc_minute c);
                dt_second := or0 (dc_second c) |}
  end.

(** [int(x)] on a float: truncation towards zero. *)
Definition int_of_float (x : Q) : Z := Z.quot (Qnum x) (Z.pos (Qden x)).

Definition hex_digit (n : Z) : ascii :=
  if n <? 10 then ascii_of_nat (Z.to_nat (48 + n))
  else ascii_of_nat (Z.to_nat (55 + n)).

Fixpoint hex_upper_go (fuel : nat) (n : Z) (acc : string) : string :=
  match fuel with
  | O => acc
  | S fuel' =>
      let acc' := String (hex_digit (n `mod` 16)) acc in
      if n `div` 16 =? 0 then acc' else hex_upper_go fuel' (n `div` 16) acc'
  end.

(** [f"{n:02X}"]: upper-case hexadecimal, padded with zeros to two
    characters, the sign of a negative number counting as one. *)
Definition format_02X (n : Z) : string :=
  let digits (m : Z) := hex_upper_go (S (Z.to_nat (Z.log2 m))) m EmptyString in
  if n <? 0 then
    "-" +:+ digits (- n)
  else if n <? 16 then "0" +:+ digits n
  else digits n.

Definition cgcolor_to_hex (cgcolor : option (list Q)) : option string :=
  match cgcolor with
  | None => None
  | Some components =>
      match components with
      | c0 :: c1 :: c2 :: _ =>
          let r := int_of_float (c0 * 255)%Q in
          let g := int_of_float (c1 * 255)%Q in
          let b := int_of_float (c2 * 255)%Q in
          Some ("#" +:+ format_02X r +:+ format_02X g +:+ format_02X b)
      | [c0; _] =>
          let gray := int_of_float (c0 * 255)%Q in
          Some ("#" +:+ format_02X gray +:+ format_02X gray +:+ format_02X gray)
      | _ => None
      end
  end.

Definition location_trigger_to_ek_alarm (location : LocationTrigger) : EKAlarm :=
  let cl_location := {| coord_latitude := lt_latitude location;
                        coord_longitude := lt_longitude location |} in
  let structured_location :=
    {| sl_title := Some (lt_title location);
       sl_geoLocation := Some cl_location;
       sl_radius := lt_radius location |} in
  {| structuredLocation := Some structured_location;
     alarm_proximity :=
       match lt_proximity location with
       | LEAVE => EKAlarmProximityLeave
       | ENTER => EKAlarmProximityEnter
       end;
     relativeOffset := 0%Q |}.

(** The [for alarm in alarms] loop of [extract_location_from_reminder]: the
    first alarm with a structured location, a proximity and a position. *)
Fixpoint extract_location_from_alarms (alarms : list EKAlarm)
  : option LocationData :=
  match alarms with
  | [] => None
  | alarm :: rest =>
      match structuredLocation alarm with
      | None => extract_location_from_alarms rest
      | Some structured_location =>
          match alarm_proximity alarm with
          | EKAlarmProximityNone => extract_location_from_alarms rest
          | proximity =>
              match sl_geoLocation structured_location with
              | None => extract_location_from_alarms rest
              | Some geo_location =>
                  Some {| ld_title :=
                            if str_truthy (sl_title structured_location)
                            then default EmptyString (sl_title structured_location)
                            else "Location";
                          ld_latitude := coord_latitude geo_location;
                          ld_longitude := coord_longitude geo_location;
                          ld_radius :=
                            if Qlt_le_dec 0 (sl_radius structured_location)
                            then sl_radius structured_location
                            else 100%Q;
                          ld_proximity :=
                            match proximity with
                            | EKAlarmProximityLeave => LEAVE
                            | _ => ENTER
                            end |}
              end
          end
      end
  end.

Definition extract_location_from_reminder (reminder : EKReminder)
  : option LocationData :=
  extract_location_from_alarms (alarms reminder).

Definition ek_reminder_to_dict (reminder : EKReminder) : ReminderData :=
  {| d_id := calendarItemExternalIdentifier reminder;
     d_title := str_or (ek_title reminder) "";
     d_list_id := calendarIdentifier (ek_calendar reminder);
     d_notes := if str_truthy (ek_notes reminder) then ek_notes reminder else None;
     d_url := absoluteString <$> ek_URL reminder;
     d_is_completed := isCompleted reminder;
     d_due_date := components_to_datetime (dueDateComponents reminder);
     d_start_date := components_to_datetime (startDateComponents reminder);
     d_priority := default NONE (Priority_of_int (ek_priority reminder));
     d_location := extract_location_from_reminder reminder |}.

Definition ek_calendar_to_dict (calendar : EKCalendar) (is_default : bool)
  : ListData :=
  {| ldt_id := calendarIdentifier calendar;
     ldt_title := str_or (cal_title calendar) "";
     ldt_color := cgcolor_to_hex (CGColor calendar);
     ldt_is_default := is_default |}.

(** The [Reminder] and [ReminderList] constructors applied to the unpacked
    dict: the model with the fields of the dict. (What pydantic validates on
    the way is not modelled.) *)
Definition LocationTrigger_of (d : LocationData) : LocationTrigger :=
  {| lt_title := ld_title d; lt_latitude := ld_latitude d;
     lt_longitude := ld_longitude d; lt_radius := ld_radius d;
     lt_proximity := ld_proximity d |}.

Definition Reminder_of (data : ReminderData) : Reminder :=
  {| r_id := d_id data; r_title := d_title data; r_list_id := d_list_id data;
     r_notes := d_notes data; r_url := d_url data;
     r_is_completed := d_is_completed data; r_due_date := d_due_date data;
     r_start_date := d_start_date data; r_priority := d_priority data;
     r_location := LocationTrigger_of <$> d_location data |}.

Definition ReminderList_of (data : ListData) : ReminderList :=
  {| rl_id := ldt_id data; rl_title := ldt_title data;
     rl_color := ldt_color data; rl_is_default := ldt_is_default data |}.

(** ** The native store and the process *)

(** The predicates [get_reminders_sync] builds. *)
Inductive NSPredicate :=
| predicateForRemindersInCalendars_ (calendars : option (list EKCalendar))
| predicateForIncompleteRemindersWithDueDateStarting_ending_calendars_
    (starting ending : option NSDate) (calendars : option (list EKCalendar)).

(** The native [EKEventStore]: the calendars and calendar items it holds, and
    what the framework decides: which reminders a predicate matches among the
    stored items and when the fetch completion fires ([None]: never), whether
    a save or a removal succeeds, and the identifiers of the [n]-th reminder
    object made by [reminderWithEventStore_]. *)
Record EKEventStore := {
  calendars : list EKCalendar;
  defaultCalendarForNewReminders : option EKCalendar;
  calendarItems : list EKCalendarItem;
  fetchRemindersMatchingPredicate :
    list EKCalendarItem → NSPredicate → option (Q * list EKReminder);
  saveReminder_ok : EKReminder → bool;
  removeReminder_ok : EKReminder → bool;
  newIdentifiers : nat → string * string;
  allocated : nat
}.

Definition set_calendarItems (items : list EKCalendarItem) (st : EKEventStore)
  : EKEventStore :=
  {| calendars := calendars st;
     defaultCalendarForNewReminders := defaultCalendarForNewReminders st;
     calendarItems := items;
     fetchRemindersMatchingPredicate := fetchRemindersMatchingPredicate st;
     saveReminder_ok := saveReminder_ok st;
     removeReminder_ok := removeReminder_ok st;
     newIdentifiers := newIdentifiers st;
     allocated := allocated st |}.

Definition set_allocated (n : nat) (st : EKEventStore) : EKEventStore :=
  {| calendars := calendars st;
     defaultCalendarForNewReminders := defaultCalendarForNewReminders st;
     calendarItems := calendarItems st;
     fetchRemindersMatchingPredicate := fetchRemindersMatchingPredicate st;
     saveReminder_ok := saveReminder_ok st;
     removeReminder_ok := removeReminder_ok st;
     newIdentifiers := newIdentifiers st;
     allocated := n |}.

(** What the completion handler of the access request is called with, and
    how long after the request ([None]: the handler is never called). *)
Record AccessResponse := {
  ar_fired : option Q;
  ar_granted : bool;
  ar_error : option NSError
}.

(** A [ReminderStore] instance. Its [_store] is the event store of the
    [World] it lives in. *)
Record ReminderStore := { _access_granted : bool }.

(** The process and its surroundings: [os.environ], the class attribute
    [ReminderStore._instance], the native store, the number of access
    requests made so far, and the answer the [n]-th request will get. *)
Record World := {
  environ : gmap string string;
  _instance : option ReminderStore;
  event_store : EKEventStore;
  access_requests : nat;
  access_responses : nat → AccessResponse
}.

Definition set_environ (e : gmap string string) (w : World) : World :=
  {| environ := e; _instance := _instance w; event_store := event_store w;
     access_requests := access_requests w;
     access_responses := access_responses w |}.

Definition set_instance (i : option ReminderStore) (w : World) : World :=
  {| environ := environ w; _instance := i; event_store := event_store w;
     access_requests := access_requests w;
     access_responses := access_responses w |}.

Definition set_event_store (st : EKEventStore) (w : World) : World :=
  {| environ := environ w; _instance := _instance w; event_store := st;
     access_requests := access_requests w;
     access_responses := access_responses w |}.

Definition set_access_requests (n : nat) (w : World) : World :=
  {| environ := environ w; _instance := _instance w;
     event_store := event_store w; access_requests := n;
     access_responses := access_responses w |}.

(** Code that may raise and may change the world. *)
Definition M (A : Type) : Type := World → Result A * World.

Definition ret {A} (a : A) : M A := λ w, (Ok a, w).
Definition raise {A} (e : Exc) : M A := λ w, (Raised e, w).
Definition bind {A B} (m : M A) (k : A → M B) : M B :=
  λ w, match m w with
       | (Ok a, w') => k a w'
       | (Raised e, w') => (Raised e, w')
       end.
(** [try: m / except Exception as e: ...]: the outcome as a value. *)
Definition try_except {A} (m : M A) : M (Result A) :=
  λ w, let '(r, w') := m w in (Ok r, w').
Definition get_store : M EKEventStore := λ w, (Ok (event_store w), w).
Definition put_store (st : EKEventStore) : M unit :=
  λ w, (Ok tt, set_event_store st w).

Notation "'let*' x ':=' m 'in' k" := (bind m (λ x, k))
  (at level 10, x pattern, m at level 100, k at level 200,
   format "'[v' 'let*'  x  ':='  m  'in' '/' k ']'").
Notation "m ';;' k" := (bind m (λ _, k))
  (at level 100, k at level 200, right associativity).

(** ** store.py *)

Definition DEFAULT_TIMEOUT : Z := 60.

(** [event.wait(timeout=...)] on a [threading.Event] that is set [fired]
    seconds after the wait starts, or never: true when the event is set
    within the timeout. *)
Definition event_wait (fired : option Q) (timeout : Q) : bool :=
  match fired with
  | Some t => Qle_bool t timeout
  | None => false
  end.

(** [ReminderStore._request_access_sync]. The request is counted, the
    handler's arguments are those of the response to this request. *)
Definition _request_access_sync (self : ReminderStore) : M ReminderStore :=
  λ w,
    let response := access_responses w (access_requests w) in
    (* self._store.requestFullAccessToRemindersWithCompletion_(handler) *)
    let w := set_access_requests (S (access_requests w)) w in
    if negb (event_wait (ar_fired response) (inject_Z DEFAULT_TIMEOUT)) then
      (Raised (PermissionTimeoutError DEFAULT_TIMEOUT), w)
    else
      match ar_error response with
      | Some error => (Raised (from_nserror error), w)
      | None =>
          if negb (ar_granted response) then (Raised AccessDeniedError, w)
          else (Ok {| _access_granted := true |}, w)
      end.

(** [ReminderStore.__init__], returning the initialised instance. *)
Definition ReminderStore_init : M ReminderStore :=
  _request_access_sync {| _access_granted := false |}.

(** [ReminderStore.get_instance]: the two tests of [cls._instance], the
    second under [cls._lock]; the attribute is assigned only when the
    constructor returns. *)
Definition get_instance : M ReminderStore :=
  λ w,
    match _instance w with
    | Some self => (Ok self, w)
    | None =>
        match _instance w with
        | Some self => (Ok self, w)
        | None =>
            match ReminderStore_init w with
            | (Ok self, w') => (Ok self, set_instance (Some self) w')
            | (Raised e, w') => (Raised e, w')
            end
        end
    end.

(** server.py: [main] up to [mcp.run()]. The store is initialised before any
    tool is served; when that raises, [sys.exit(1)] ends the process. *)
Inductive Startup :=
| Exits (status : Z)
| Serves.

Definition main : World → Startup * World :=
  λ w,
    match get_instance w with
    | (Ok _, w') => (Serves, w')
    | (Raised _, w') => (Exits 1, w')
    end.

(** [ReminderStore.run_eventkit] as one logical caller sees it: [fn]
    applied to its arguments runs on the worker thread inside an autorelease
    pool, and its value or exception comes back unchanged. The serialization
    around it is the subject of [Module Serializer]. *)
Definition run_eventkit {A} (fn : M A) : M A := fn.

(** What a tool that answers with several entities returns: a list, or a
    dict holding the list under one key. *)
Inductive Collection (A : Type) :=
| BareList (items : list A)
| NamedField (name : string) (items : list A).
Arguments BareList {A} items.
Arguments NamedField {A} name items.

Section Store.

(** [NSURL.URLWithString_]: Foundation's parser, [None] for a string it
    rejects. *)
Variable URLWithString_ : string → option NSURL.

Definition calendarWithIdentifier_ (st : EKEventStore) (list_id : string)
  : option EKCalendar :=
  snd <$> list_find (λ c, calendarIdentifier c = list_id) (calendars st).

(** The item with this local identifier, and its position in the store. *)
Definition calendarItemWithIdentifier_ (st : EKEventStore) (i : string)
  : option (nat * EKCalendarItem) :=
  list_find (λ it, item_identifier it = i) (calendarItems st).

(** The items with this external identifier, each with its position. *)
Definition calendarItemsWithExternalIdentifier_ (st : EKEventStore) (i : string)
  : list (nat * EKCalendarItem) :=
  filter (λ p, item_externalIdentifier (snd p) = i)
         (imap (λ k it, (k, it)) (calendarItems st)).

(** The first [EKReminder] among items. *)
Fixpoint first_reminder (items : list (nat * EKCalendarItem))
  : option (nat * EKReminder) :=
  match items with
  | [] => None
  | (k, ItemReminder r) :: _ => Some (k, r)
  | (_, ItemEvent _ _) :: rest => first_reminder rest
  end.

(** [ReminderStore._get_reminder_by_id]. The reminder object is a reference
    into the store: it is returned with its position. *)
Definition _get_reminder_by_id (reminder_id : string) : M (nat * EKReminder) :=
  let* st := get_store in
  match calendarItemWithIdentifier_ st reminder_id with
  | Some (k, ItemReminder reminder) => ret (k, reminder)
  | _ =>
      match first_reminder (calendarItemsWithExternalIdentifier_ st reminder_id) with
      | Some found => ret found
      | None => raise (NotFoundError "Reminder" reminder_id)
      end
  end.

(** [self._store.saveReminder_commit_error_(reminder, True, error)] for the
    reminder at position [k]: when the store accepts it, the stored item is
    the reminder as it is now. *)
Definition saveReminder_commit_error_ (k : nat) (reminder : EKReminder) : M bool :=
  let* st := get_store in
  if saveReminder_ok st reminder then
    put_store (set_calendarItems (<[k := ItemReminder reminder]> (calendarItems st)) st) ;;
    ret true
  else ret false.

(** The same call for a reminder that is not in the store yet. *)
Definition saveReminder_commit_error_new (reminder : EKReminder) : M bool :=
  let* st := get_store in
  if saveReminder_ok st reminder then
    put_store (set_calendarItems (calendarItems st ++ [ItemReminder reminder]) st) ;;
    ret true
  else ret false.

(** [self._store.removeReminder_commit_error_(reminder, True, error)]. *)
Definition removeReminder_commit_error_ (k : nat) (reminder : EKReminder) : M bool :=
  let* st := get_store in
  if removeReminder_ok st reminder then
    put_store (set_calendarItems (delete k (calendarItems st)) st) ;;
    ret true
  else ret false.

(** The setters of [EKReminder]. *)
Definition setTitle_ (v : option string) (r : EKReminder) : EKReminder :=
  {| calendarItemIdentifier := calendarItemIdentifier r;
     calendarItemExternalIdentifier := calendarItemExternalIdentifier r;
     ek_title := v; ek_calendar := ek_calendar r; ek_notes := ek_notes r;
     ek_URL := ek_URL r; isCompleted := isCompleted r;
     dueDateComponents := dueDateComponents r;
     startDateComponents := startDateComponents r;
     ek_priority := ek_priority r; alarms := alarms r |}.

Definition setNotes_ (v : option string) (r : EKReminder) : EKReminder :=
  {| calendarItemIdentifier := calendarItemIdentifier r;
     calendarItemExternalIdentifier := calendarItemExternalIdentifier r;
     ek_title := ek_title r; ek_calendar := ek_calendar r; ek_notes := v;
     ek_URL := ek_URL r; isCompleted := isCompleted r;
     dueDateComponents := dueDateComponents r;
     startDateComponents := startDateComponents r;
     ek_priority := ek_priority r; alarms := alarms r |}.

Definition setURL_ (v : option NSURL) (r : EKReminder) : EKReminder :=
  {| calendarItemIdentifier := calendarItemIdentifier r;
     calendarItemExternalIdentifier := calendarItemExternalIdentifier r;
     ek_title := ek_title r; ek_calendar := ek_calendar r; ek_notes := ek_notes r;
     ek_URL := v; isCompleted := isCompleted r;
     dueDateComponents := dueDateComponents r;
     startDateComponents := startDateComponents r;
     ek_priority := ek_priority r; alarms := alarms r |}.

Definition setCompleted_ (v : bool) (r : EKReminder) : EKReminder :=
  {| calendarItemIdentifier := calendarItemIdentifier r;
     calendarItemExternalIdentifier := calendarItemExternalIdentifier r;
     ek_title := ek_title r; ek_calendar := ek_calendar r; ek_notes := ek_notes r;
     ek_URL := ek_URL r; isCompleted := v;
     dueDateComponents := dueDateComponents r;
     startDateComponents := startDateComponents r;
     ek_priority := ek_priority r; alarms := alarms r |}.

Definition setDueDateComponents_ (v : option NSDateComponents) (r : EKReminder)
  : EKReminder :=
  {| calendarItemIdentifier := calendarItemIdentifier r;
     calendarItemExternalIdentifier := calendarItemExternalIdentifier r;
     ek_title := ek_title r; ek_calendar := ek_calendar r; ek_notes := ek_notes r;
     ek_URL := ek_URL r; isCompleted := isCompleted r;
     dueDateComponents := v;
     startDateComponents := startDateComponents r;
     ek_priority := ek_priority r; alarms := alarms r |}.

Definition setStartDateComponents_ (v : option NSDateComponents) (r : EKReminder)
  : EKReminder :=
  {| calendarItemIdentifier := calendarItemIdentifier r;
     calendarItemExternalIdentifier := calendarItemExternalIdentifier r;
     ek_title := ek_title r; ek_calendar := ek_calendar r; ek_notes := ek_notes r;
     ek_URL := ek_URL r; isCompleted := isCompleted r;
     dueDateComponents := dueDateComponents r;
     startDateComponents := v;
     ek_priority := ek_priority r; alarms := alarms r |}.

Definition setPriority_ (v : Z) (r : EKReminder) : EKReminder :=
  {| calendarItemIdentifier := calendarItemIdentifier r;
     calendarItemExternalIdentifier := calendarItemExternalIdentifier r;
     ek_title := ek_title r; ek_calendar := ek_calendar r; ek_notes := ek_notes r;
     ek_URL := ek_URL r; isCompleted := isCompleted r;
     dueDateComponents := dueDateComponents r;
     startDateComponents := startDateComponents r;
     ek_priority := v; alarms := alarms r |}.

Definition setAlarms (v : list EKAlarm) (r : EKReminder) : EKReminder :=
  {| calendarItemIdentifier := calendarItemIdentifier r;
     calendarItemExternalIdentifier := calendarItemExternalIdentifier r;
     ek_title := ek_title r; ek_calendar := ek_calendar r; ek_notes := ek_notes r;
     ek_URL := ek_URL r; isCompleted := isCompleted r;
     dueDateComponents := dueDateComponents r;
     startDateComponents := startDateComponents r;
     ek_priority := ek_priority r; alarms := v |}.

Definition addAlarm_ (alarm : EKAlarm) (r : EKReminder) : EKReminder :=
  setAlarms (alarms r ++ [alarm]) r.

(** [removeAlarm_]: the alarm leaves the reminder's list (its first
    occurrence, when the list holds equal alarms). *)
Fixpoint remove_first (alarm : EKAlarm) (l : list EKAlarm) : list EKAlarm :=
  match l with
  | [] => []
  | a :: rest => if decide (a = alarm) then rest else a :: remove_first alarm rest
  end.

Definition removeAlarm_ (alarm : EKAlarm) (r : EKReminder) : EKReminder :=
  setAlarms (remove_first alarm (alarms r)) r.

(** The loop of [_remove_location_alarms] over the copy [list(alarms)]. *)
Fixpoint _remove_location_alarms_loop (copy : list EKAlarm)
    (reminder : EKReminder) (removed : Z) : EKReminder * Z :=
  match copy with
  | [] => (reminder, removed)
  | alarm :: rest =>
      match structuredLocation alarm with
      | Some _ =>
          _remove_location_alarms_loop rest (removeAlarm_ alarm reminder)
                                       (removed + 1)
      | None => _remove_location_alarms_loop rest reminder removed
      end
  end.

(** [ReminderStore._remove_location_alarms]: the reminder after the removals
    and the number of alarms removed. *)
Definition _remove_location_alarms (reminder : EKReminder) : EKReminder * Z :=
  match alarms reminder with
  | [] => (reminder, 0)
  | copy => _remove_location_alarms_loop copy reminder 0
  end.

(** [ReminderStore.get_lists_sync] *)
Definition get_lists_sync (self : ReminderStore) : M (list ListData) :=
  let* st := get_store in
  let default_id := calendarIdentifier <$> defaultCalendarForNewReminders st in
  ret (map (λ cal,
              ek_calendar_to_dict cal
                (bool_decide (Some (calendarIdentifier cal) = default_id)))
           (calendars st)).

(** The predicate [get_reminders_sync] builds from its filters. *)
Definition fetch_predicate (include_completed : bool)
    (due_before due_after : option datetime)
    (cals : option (list EKCalendar)) : NSPredicate :=
  if include_completed then predicateForRemindersInCalendars_ cals
  else if bool_decide (due_before ≠ None) || bool_decide (due_after ≠ None) then
    predicateForIncompleteRemindersWithDueDateStarting_ending_calendars_
      (datetime_to_nsdate <$> due_after) (datetime_to_nsdate <$> due_before) cals
  else
    predicateForIncompleteRemindersWithDueDateStarting_ending_calendars_
      None None cals.

(** [ReminderStore.get_reminders_sync] *)
Definition get_reminders_sync (self : ReminderStore)
    (list_id : option string) (include_completed : bool)
    (due_before due_after : option datetime) : M (list ReminderData) :=
  let* st := get_store in
  let* cals :=
    if str_truthy list_id then
      let list_id := default EmptyString list_id in
      match calendarWithIdentifier_ st list_id with
      | None => raise (NotFoundError "List" list_id)
      | Some calendar => ret (Some [calendar])
      end
    else ret None in
  let predicate :=
    fetch_predicate include_completed due_before due_after cals in
  let fetch := fetchRemindersMatchingPredicate st (calendarItems st) predicate in
  if negb (event_wait (fst <$> fetch) (inject_Z DEFAULT_TIMEOUT)) then
    raise (TimeoutError ("Fetch reminders timed out after " +:+
                         pretty DEFAULT_TIMEOUT +:+ "s"))
  else
    ret (map ek_reminder_to_dict (default [] (snd <$> fetch))).

(** [ReminderStore.get_reminder_sync] *)
Definition get_reminder_sync (self : ReminderStore) (reminder_id : string)
  : M ReminderData :=
  let* st := get_store in
  match calendarItemWithIdentifier_ st reminder_id with
  | Some (_, ItemReminder reminder) => ret (ek_reminder_to_dict reminder)
  | _ =>
      match first_reminder (calendarItemsWithExternalIdentifier_ st reminder_id) with
      | Some (_, item) => ret (ek_reminder_to_dict item)
      | None => raise (NotFoundError "Reminder" reminder_id)
      end
  end.

(** [EKReminder.reminderWithEventStore_]: a new reminder object, with the
    identifiers the framework gives it. The object has no calendar until
    [setCalendar_]; [create_reminder_sync] reads it only after that call, so
    the record is built by [new_reminder] once the calendar is known. *)
Definition reminderWithEventStore_ : M (string * string) :=
  let* st := get_store in
  put_store (set_allocated (S (allocated st)) st) ;;
  ret (newIdentifiers st (allocated st)).

Definition new_reminder (ids : string * string) (title : string)
    (calendar : EKCalendar) : EKReminder :=
  {| calendarItemIdentifier := fst ids;
     calendarItemExternalIdentifier := snd ids;
     ek_title := Some title; ek_calendar := calendar; ek_notes := None;
     ek_URL := None; isCompleted := false;
     dueDateComponents := None; startDateComponents := None;
     ek_priority := 0; alarms := [] |}.

(** [ReminderStore.create_reminder_sync] *)
Definition create_reminder_sync (self : ReminderStore) (title : string)
    (list_id notes url : option string) (due_date start_date : option datetime)
    (priority : Z) (location : option LocationTrigger) : M ReminderData :=
  let* ids := reminderWithEventStore_ in
  let* st := get_store in
  let* calendar :=
    if str_truthy list_id then
      let list_id := default EmptyString list_id in
      match calendarWithIdentifier_ st list_id with
      | None => raise (NotFoundError "List" list_id)
      | Some calendar => ret calendar
      end
    else
      match defaultCalendarForNewReminders st with
      | None => raise NoWritableSourceError
      | Some calendar => ret calendar
      end in
  let reminder := new_reminder ids title calendar in
  let reminder := if str_truthy notes then setNotes_ notes reminder else reminder in
  let reminder :=
    if str_truthy url
    then setURL_ (URLWithString_ (default EmptyString url)) reminder
    else reminder in
  let reminder :=
    match due_date with
    | Some d => setDueDateComponents_ (Some (datetime_to_components d)) reminder
    | None => reminder
    end in
  let reminder :=
    match start_date with
    | Some d => setStartDateComponents_ (Some (datetime_to_components d)) reminder
    | None => reminder
    end in
  let reminder := if priority =? 0 then reminder else setPriority_ priority reminder in
  let reminder :=
    match location with
    | Some l => addAlarm_ (location_trigger_to_ek_alarm l) reminder
    | None => reminder
    end in
  let* success := saveReminder_commit_error_new reminder in
  if negb success then
    raise (EventKitError ("Failed to create reminder: " +:+ title) None None)
  else ret (ek_reminder_to_dict reminder).

(** The assignments of [update_reminder_sync] between the lookup and the
    save, in the order of the source. *)
Definition update_reminder_fields (reminder : EKReminder)
    (title notes url : option string) (due_date start_date : option datetime)
    (priority : option Z) (location : option LocationTrigger)
    (clear_location : bool) : EKReminder :=
  let reminder :=
    match title with Some t => setTitle_ (Some t) reminder | None => reminder end in
  let reminder :=
    match notes with Some n => setNotes_ (Some n) reminder | None => reminder end in
  let reminder :=
    match url with Some u => setURL_ (URLWithString_ u) reminder | None => reminder end in
  let reminder :=
    match due_date with
    | Some d => setDueDateComponents_ (Some (datetime_to_components d)) reminder
    | None => reminder
    end in
  let reminder :=
    match start_date with
    | Some d => setStartDateComponents_ (Some (datetime_to_components d)) reminder
    | None => reminder
    end in
  let reminder :=
    match priority with Some p => setPriority_ p reminder | None => reminder end in
  if clear_location then fst (_remove_location_alarms reminder)
  else
    match location with
    | Some l =>
        addAlarm_ (location_trigger_to_ek_alarm l)
                  (fst (_remove_location_alarms reminder))
    | None => reminder
    end.

(** [ReminderStore.update_reminder_sync] *)
Definition update_reminder_sync (self : ReminderStore) (reminder_id : string)
    (title notes url : option string) (due_date start_date : option datetime)
    (priority : option Z) (location : option LocationTrigger)
    (clear_location : bool) : M ReminderData :=
  let* (k, reminder) := _get_reminder_by_id reminder_id in
  let reminder :=
    update_reminder_fields reminder title notes url due_date start_date
                           priority location clear_location in
  let* success := saveReminder_commit_error_ k reminder in
  if negb success then
    raise (EventKitError ("Failed to update reminder: " +:+ reminder_id) None None)
  else ret (ek_reminder_to_dict reminder).

(** [ReminderStore.complete_reminder_sync] *)
Definition complete_reminder_sync (self : ReminderStore) (reminder_id : string)
    (completed : bool) : M ReminderData :=
  let* (k, reminder) := _get_reminder_by_id reminder_id in
  let reminder := setCompleted_ completed reminder in
  let* success := saveReminder_commit_error_ k reminder in
  if negb success then
    raise (EventKitError ("Failed to update reminder: " +:+ reminder_id) None None)
  else ret (ek_reminder_to_dict reminder).

(** [ReminderStore.delete_reminder_sync] *)
Definition delete_reminder_sync (self : ReminderStore) (reminder_id : string)
  : M bool :=
  let* (k, reminder) := _get_reminder_by_id reminder_id in
  let* success := removeReminder_commit_error_ k reminder in
  if negb success then
    raise (EventKitError ("Failed to delete reminder: " +:+ reminder_id) None None)
  else ret true.

(** ** tools/*.py *)

(** [str.lower], Python's case mapping. *)
Variable str_lower : string → string.

(** tools/lists.py: [list_reminder_lists] *)
Definition list_reminder_lists : M (Collection ReminderList) :=
  let* store := get_instance in
  let* lists := run_eventkit (get_lists_sync store) in
  ret (NamedField "lists" (map ReminderList_of lists)).

(** tools/reminders.py: [get_reminders] *)
Definition get_reminders (list_id : option string) (include_completed : bool)
    (due_before due_after : option datetime) (limit : option Z) (offset : Z)
  : M (Collection Reminder) :=
  let* store := get_instance in
  let* reminders :=
    run_eventkit
      (get_reminders_sync store list_id include_completed due_before due_after) in
  let paginated := _paginate reminders offset limit in
  ret (NamedField "reminders" (map Reminder_of paginated)).

(** tools/reminders.py: [update_reminder] *)
Definition update_reminder (reminder_id : string)
    (title notes url : option string) (due_date start_date : option datetime)
    (priority : option Priority) (location : option LocationTrigger)
    (clear_location : bool) : M Reminder :=
  let* store := get_instance in
  let* data :=
    run_eventkit
      (update_reminder_sync store reminder_id title notes url due_date
         start_date (Priority_int <$> priority) location clear_location) in
  ret (Reminder_of data).

(** The filter loop of [search_reminders]: the dicts whose title or notes
    contain the lower-cased query. *)
Fixpoint search_matching (query_lower : string) (reminders : list ReminderData)
  : list ReminderData :=
  match reminders with
  | [] => []
  | data :: rest =>
      let title := str_or (Some (d_title data)) "" in
      let notes := str_or (d_notes data) "" in
      if str_in query_lower (str_lower title) || str_in query_lower (str_lower notes)
      then data :: search_matching query_lower rest
      else search_matching query_lower rest
  end.

(** tools/search.py: [search_reminders] *)
Definition search_reminders (query : string) (list_id : option string)
    (include_completed : bool) (limit : option Z) (offset : Z)
  : M (Collection Reminder) :=
  let* store := get_instance in
  let* reminders :=
    run_eventkit (get_reminders_sync store list_id include_completed None None) in
  let query_lower := str_lower query in
  let matching := search_matching query_lower reminders in
  let paginated := _paginate matching offset limit in
  ret (BareList (map Reminder_of paginated)).

(** The accumulators of the batch loops. *)
Definition batch_success (acc : BatchResult) : BatchResult :=
  {| successes := successes acc + 1; failures := failures acc;
     failed_ids := failed_ids acc; errors := errors acc |}.

Definition batch_failure (reminder_id : string) (e : Exc) (acc : BatchResult)
  : BatchResult :=
  {| successes := successes acc; failures := failures acc + 1;
     failed_ids := failed_ids acc ++ [reminder_id];
     errors := errors acc ++ [exc_str e] |}.

Definition batch_start : BatchResult :=
  {| successes := 0; failures := 0; failed_ids := []; errors := [] |}.

(** The [for reminder_id in reminder_ids] loop of [complete_reminders]. *)
Fixpoint complete_reminders_loop (store : ReminderStore)
    (reminder_ids : list string) (acc : BatchResult) : M BatchResult :=
  match reminder_ids with
  | [] => ret acc
  | reminder_id :: rest =>
      let* outcome :=
        try_except (run_eventkit (complete_reminder_sync store reminder_id true)) in
      match outcome with
      | Ok _ => complete_reminders_loop store rest (batch_success acc)
      | Raised e =>
          complete_reminders_loop store rest (batch_failure reminder_id e acc)
      end
  end.

(** tools/batch.py: [complete_reminders] *)
Definition complete_reminders (reminder_ids : list string) : M BatchResult :=
  let* store := get_instance in
  complete_reminders_loop store reminder_ids batch_start.

(** The [for reminder_id in reminder_ids] loop of [delete_reminders]. *)
Fixpoint delete_reminders_loop (store : ReminderStore)
    (reminder_ids : list string) (acc : BatchResult) : M BatchResult :=
  match reminder_ids with
  | [] => ret acc
  | reminder_id :: rest =>
      let* outcome :=
        try_except (run_eventkit (delete_reminder_sync store reminder_id)) in
      match outcome with
      | Ok _ => delete_reminders_loop store rest (batch_success acc)
      | Raised e =>
          delete_reminders_loop store rest (batch_failure reminder_id e acc)
      end
  end.

(** tools/batch.py: [delete_reminders] *)
Definition delete_reminders (reminder_ids : list string) : M BatchResult :=
  let* store := get_instance in
  delete_reminders_loop store reminder_ids batch_start.

(** The [for title in items] loop of [add_reminders]. *)
Fixpoint add_reminders_loop (store : ReminderStore) (list_id : option string)
    (items : list string) (created : list Reminder) : M (list Reminder) :=
  match items with
  | [] => ret created
  | title :: rest =>
      let* outcome :=
        try_except
          (run_eventkit
             (create_reminder_sync store title list_id None None None None 0 None)) in
      match outcome with
      | Ok data => add_reminders_loop store list_id rest (created ++ [Reminder_of data])
      | Raised _ => add_reminders_loop store list_id rest created
      end
  end.

(** tools/batch.py: [add_reminders] *)
Definition add_reminders (list_id : option string) (items : list string)
  : M (Collection Reminder) :=
  let* store := get_instance in
  let* created := add_reminders_loop store list_id items [] in
  ret (BareList created).

End Store.

(** ** constants.py *)

(** [float(s)] for a plain decimal literal: digits, with an optional point.
    Python accepts more ([1e3], [inf], surrounding blanks); [REQUEST_TIMEOUT]
    below takes the parser as a parameter, and this one instantiates it on
    concrete settings. [None] is the [ValueError]. *)
Definition digit_value (c : ascii) : option Z :=
  let n := nat_of_ascii c in
  if (48 <=? n)%nat && (n <=? 57)%nat then Some (Z.of_nat n - 48) else None.

Fixpoint digits_value (s : string) (acc : Z) : option Z :=
  match s with
  | EmptyString => Some acc
  | String c s' =>
      match digit_value c with
      | Some d => digits_value s' (10 * acc + d)
      | None => None
      end
  end.

Fixpoint split_point (s : string) : string * option string :=
  match s with
  | EmptyString => (EmptyString, None)
  | String c s' =>
      if Ascii.eqb c "." then (EmptyString, Some s')
      else let '(a, b) := split_point s' in (String c a, b)
  end.

Definition float_decimal (s : string) : option Q :=
  let '(whole, fraction) := split_point s in
  let fraction := default EmptyString fraction in
  if (String.length whole + String.length fraction =? 0)%nat then None
  else
    match digits_value whole 0, digits_value fraction 0 with
    | Some i, Some f =>
        let scale := 10 ^ Z.of_nat (String.length fraction) in
        Some (Qred (Qmake (i * scale + f) (Z.to_pos scale)))
    | _, _ => None
    end.

(** [REQUEST_TIMEOUT = float(os.environ.get("REQUEST_TIMEOUT", "60.0"))] *)
Definition REQUEST_TIMEOUT (float : string → option Q) (w : World) : option Q :=
  float (default "60.0" (environ w !! "REQUEST_TIMEOUT")).

(** ** The access serializer: [run_eventkit] under concurrent callers

    The callers are tasks of one event loop; each runs
    [[
      limiter = cls._get_limiter()
      async with limiter:
          return await anyio.to_thread.run_sync(wrapped)
    ]]
    An event-loop task runs without interruption between two awaits, so the
    system moves in the steps below: a call up to the end of the limiter's
    [__aenter__] or its suspension there, the start of [wrapped] on the
    worker thread, the end of [wrapped], and the limiter's [__aexit__] with
    the return to the caller. [anyio.CapacityLimiter] is a library class: it
    is modelled by its contract (at most [total_tokens] borrowers, waiters
    served first come first served, the token handed to the first waiter on
    release). Cancellation of a caller's task is not part of the model. *)
Module Serializer.

Record CapacityLimiter := {
  total_tokens : nat;
  borrowers : list nat;
  wait_queue : list nat
}.

(** [anyio.CapacityLimiter(n)] *)
Definition CapacityLimiter_new (n : nat) : CapacityLimiter :=
  {| total_tokens := n; borrowers := []; wait_queue := [] |}.

(** [acquire_on_behalf_of]: the borrower takes a token at once when nobody
    waits and one is free ([true]); otherwise it joins the queue. *)
Definition acquire (t : nat) (l : CapacityLimiter) : CapacityLimiter * bool :=
  if bool_decide (wait_queue l = []) && (length (borrowers l) <? total_tokens l)%nat
  then ({| total_tokens := total_tokens l; borrowers := borrowers l ++ [t];
           wait_queue := wait_queue l |}, true)
  else ({| total_tokens := total_tokens l; borrowers := borrowers l;
           wait_queue := wait_queue l ++ [t] |}, false).

(** [release_on_behalf_of]: the borrower gives its token back; when a token
    is free the first waiter, if any, becomes a borrower and is woken. *)
Definition release (t : nat) (l : CapacityLimiter) : CapacityLimiter * option nat :=
  let remaining := filter (λ b, b ≠ t) (borrowers l) in
  match wait_queue l with
  | next :: rest =>
      if (length remaining <? total_tokens l)%nat
      then ({| total_tokens := total_tokens l; borrowers := remaining ++ [next];
               wait_queue := rest |}, Some next)
      else ({| total_tokens := total_tokens l; borrowers := remaining;
               wait_queue := wait_queue l |}, None)
  | [] => ({| total_tokens := total_tokens l; borrowers := remaining;
              wait_queue := [] |}, None)
  end.

Section Callers.

(** The state the operations act on, and the values they return. *)
Context {St Val : Type}.

(** [fn] applied to its arguments: it changes the native store and returns
    or raises. *)
Definition Operation : Type := St → Result Val * St.

(** Where a caller of [run_eventkit] is. *)
Inductive Caller :=
| Queued (fn : Operation)       (* suspended in the limiter's [__aenter__] *)
| Holding (fn : Operation)     (* holds the permit, [wrapped] not started *)
| InThread (fn : Operation)     (* [wrapped] is running on the worker thread *)
| Leaving (outcome : Result Val)  (* [wrapped] is over, [__aexit__] not run *)
| Finished (outcome : Result Val). (* [run_eventkit] returned or raised *)

Inductive Event :=
| Granted (t : nat)
| Entered (t : nat)
| Exited (t : nat).

Record System := {
  _limiter : option CapacityLimiter;   (* [ReminderStore._limiter] *)
  callers : gmap nat Caller;
  native : St;
  trace : list Event                   (* what happened, oldest first *)
}.

Definition initial (st : St) : System :=
  {| _limiter := None; callers := ∅; native := st; trace := [] |}.

(** The limiter [_get_limiter] returns: the class attribute, created with
    one token when it is still [None]. *)
Definition limiter_of (s : System) : CapacityLimiter :=
  default (CapacityLimiter_new 1) (_limiter s).

(** Caller [t] calls [run_eventkit(fn, ...)]: [_get_limiter], then the
    limiter's [__aenter__]. *)
Definition call (t : nat) (fn : Operation) (s : System) : System :=
  let '(l, now) := acquire t (limiter_of s) in
  {| _limiter := Some l;
     callers := <[t := if now then Holding fn else Queued fn]> (callers s);
     native := native s;
     trace := if now then trace s ++ [Granted t] else trace s |}.

(** [wrapped] starts on the worker thread. *)
Definition dispatch (t : nat) (fn : Operation) (s : System) : System :=
  {| _limiter := _limiter s;
     callers := <[t := InThread fn]> (callers s);
     native := native s;
     trace := trace s ++ [Entered t] |}.

(** [wrapped] ends: [fn] has acted on the native store and returned or
    raised. *)
Definition complete (t : nat) (fn : Operation) (s : System) : System :=
  {| _limiter := _limiter s;
     callers := <[t := Leaving (fst (fn (native s)))]> (callers s);
     native := snd (fn (native s));
     trace := trace s ++ [Exited t] |}.

(** Wake the caller the limiter handed the token to. *)
Definition wake (next : option nat) (cs : gmap nat Caller) : gmap nat Caller :=
  match next with
  | Some n =>
      match cs !! n with
      | Some (Queued fn) => <[n := Holding fn]> cs
      | _ => cs
      end
  | None => cs
  end.

(** The limiter's [__aexit__], run for a return and for an exception alike,
    then the outcome goes to the caller. *)
Definition leave (t : nat) (outcome : Result Val) (s : System) : System :=
  let '(l, next) := release t (limiter_of s) in
  {| _limiter := Some l;
     callers := wake next (<[t := Finished outcome]> (callers s));
     native := native s;
     trace := match next with
              | Some n => trace s ++ [Granted n]
              | None => trace s
              end |}.

Inductive step : System → System → Prop :=
| step_call t fn s :
    callers s !! t = None → step s (call t fn s)
| step_dispatch t fn s :
    callers s !! t = Some (Holding fn) → step s (dispatch t fn s)
| step_complete t fn s :
    callers s !! t = Some (InThread fn) → step s (complete t fn s)
| step_leave t outcome s :
    callers s !! t = Some (Leaving outcome) → step s (leave t outcome s).

Definition reachable (s : System) : Prop := ∃ st, rtc step (initial st) s.

(** The callers whose operation was granted the permit, in trace order. *)
Fixpoint grants (tr : list Event) : list nat :=
  match tr with
  | [] => []
  | Granted t :: tr' => t :: grants tr'
  | _ :: tr' => grants tr'
  end.

(** The callers whose operation started executing, in trace order. *)
Fixpoint entries (tr : list Event) : list nat :=
  match tr with
  | [] => []
  | Entered t :: tr' => t :: entries tr'
  | _ :: tr' => entries tr'
  end.

(** Reading a trace from the oldest event on, with the operation that is
    executing: an operation may enter only when none is executing, and the
    one that exits is the one executing. [None] when the trace breaks this. *)
Definition window_step (open : option (option nat)) (e : Event)
  : option (option nat) :=
  match open, e with
  | None, _ => None
  | Some w, Granted _ => Some w
  | Some None, Entered t => Some (Some t)
  | Some (Some _), Entered _ => None
  | Some (Some u), Exited t => if decide (u = t) then Some None else None
  | Some None, Exited _ => None
  end.

Definition windows (tr : list Event) : option (option nat) :=
  foldl window_step (Some None) tr.

(** The callers that hold the permit. *)
Definition holds (c : Caller) : Prop :=
  match c with
  | Holding _ | InThread _ | Leaving _ => True
  | Queued _ | Finished _ => False
  end.

(** What every reachable state satisfies. [holder] is the caller holding the
    single permit, if any. *)
Record invariant (s : System) : Prop := {
  inv_tokens : total_tokens (limiter_of s) = 1%nat;
  inv_holder :
    ∃ holder : option nat,
      borrowers (limiter_of s) = option_list holder ∧
      ∀ t, holder = Some t ↔ ∃ c, callers s !! t = Some c ∧ holds c;
  inv_queue :
    ∀ t, t ∈ wait_queue (limiter_of s) ↔ ∃ fn, callers s !! t = Some (Queued fn);
  inv_queue_NoDup : NoDup (wait_queue (limiter_of s));
  inv_no_lost_wakeup :
    wait_queue (limiter_of s) ≠ [] → borrowers (limiter_of s) ≠ [];
  inv_windows :
    ∃ open : option nat,
      windows (trace s) = Some open ∧
      ∀ t, open = Some t ↔ ∃ fn, callers s !! t = Some (InThread fn);
  inv_order_holding :
    ∀ t fn, callers s !! t = Some (Holding fn) →
            grants (trace s) = entries (trace s) ++ [t];
  inv_order_idle :
    (∀ t fn, callers s !! t ≠ Some (Holding fn)) →
    grants (trace s) = entries (trace s)
}.

End Callers.

(** Three callers on a counter: the first two increment it, and the second
    raises after doing so; the third reads it. *)
Definition demo_increment : @Operation nat nat := λ n, (Ok (S n), S n).
Definition demo_failing : @Operation nat nat :=
  λ n, (Raised (EventKitError "Failed to update reminder: b" None None), S n).
Definition demo_read : @Operation nat nat := λ n, (Ok n, n).

(** Caller 1 is executing, caller 2 (whose operation will raise) and caller
    3 wait. *)
Definition demo_system : @System nat nat :=
  call 3 demo_read
    (call 2 demo_failing
       (dispatch 1 demo_increment (call 1 demo_increment (initial 0%nat)))).

End Serializer.

(** ** What the properties are stated with *)

(** [needle] occurs in [hay]. *)
Definition Substring (needle hay : string) : Prop :=
  ∃ before after, hay = before +:+ needle +:+ after.

(** The search condition on a fetched dict: the lower-cased query occurs in
    the lower-cased title or notes, a missing one read as the empty string. *)
Definition mentions (str_lower : string → string) (query : string)
    (title : string) (notes : option string) : Prop :=
  Substring (str_lower query) (str_lower title) ∨
  Substring (str_lower query) (str_lower (default EmptyString notes)).

(** The items of a batch whose operation raises, when the operations run one
    after the other in list order, each in the world the previous one left. *)
Fixpoint failing_items {A} (op : string → M A) (items : list string) (w : World)
  : list string :=
  match items with
  | [] => []
  | i :: rest =>
      match op i w with
      | (Ok _, w') => failing_items op rest w'
      | (Raised _, w') => i :: failing_items op rest w'
      end
  end.

(** The messages of the exceptions those operations raise, in that order. *)
Fixpoint failing_messages {A} (op : string → M A) (items : list string) (w : World)
  : list string :=
  match items with
  | [] => []
  | i :: rest =>
      match op i w with
      | (Ok _, w') => failing_messages op rest w'
      | (Raised e, w') => exc_str e :: failing_messages op rest w'
      end
  end.

(** The values of the operations that return, in that order. *)
Fixpoint returned_values {A} (op : string → M A) (items : list string) (w : World)
  : list A :=
  match items with
  | [] => []
  | i :: rest =>
      match op i w with
      | (Ok a, w') => a :: returned_values op rest w'
      | (Raised _, w') => returned_values op rest w'
      end
  end.

(** The world after the last operation. *)
Fixpoint world_after {A} (op : string → M A) (items : list string) (w : World)
  : World :=
  match items with
  | [] => w
  | i :: rest => world_after op rest (snd (op i w))
  end.

(** The shape shared by the loops of [complete_reminders] and
    [delete_reminders]. *)
Fixpoint batch_loop {A} (op : string → M A) (items : list string)
    (acc : BatchResult) : M BatchResult :=
  match items with
  | [] => ret acc
  | i :: rest =>
      let* outcome := try_except (run_eventkit (op i)) in
      match outcome with
      | Ok _ => batch_loop op rest (batch_success acc)
      | Raised e => batch_loop op rest (batch_failure i e acc)
      end
  end.

Definition is_named {A} (c : Collection A) : bool :=
  match c with
  | NamedField _ _ => true
  | BareList _ => false
  end.

(** ** A small store to run the handlers on *)

Definition demo_calendar : EKCalendar :=
  {| calendarIdentifier := "home"; cal_title := Some "Home";
     CGColor := Some [1%Q; 0%Q; 0%Q; 1%Q];
     allowsContentModifications := true |}.

Definition demo_reminder (i title : string) (notes : option string) : EKReminder :=
  {| calendarItemIdentifier := i; calendarItemExternalIdentifier := i;
     ek_title := Some title; ek_calendar := demo_calendar; ek_notes := notes;
     ek_URL := None; isCompleted := false;
     dueDateComponents := None; startDateComponents := None;
     ek_priority := 0; alarms := [] |}.

Fixpoint reminders_of (items : list EKCalendarItem) : list EKReminder :=
  match items with
  | [] => []
  | ItemReminder r :: rest => r :: reminders_of rest
  | ItemEvent _ _ :: rest => reminders_of rest
  end.

(** A framework that answers every fetch after [delay] seconds with the
    stored reminders the predicate's completion filter keeps. *)
Definition demo_fetch (delay : Q) (items : list EKCalendarItem)
    (p : NSPredicate) : option (Q * list EKReminder) :=
  match p with
  | predicateForRemindersInCalendars_ _ => Some (delay, reminders_of items)
  | predicateForIncompleteRemindersWithDueDateStarting_ending_calendars_ _ _ _ =>
      Some (delay, filter (λ r, isCompleted r = false) (reminders_of items))
  end.

Definition demo_store (delay : Q) (items : list EKCalendarItem) : EKEventStore :=
  {| calendars := [demo_calendar];
     defaultCalendarForNewReminders := Some demo_calendar;
     calendarItems := items;
     fetchRemindersMatchingPredicate := demo_fetch delay;
     saveReminder_ok := λ _, true;
     removeReminder_ok := λ _, true;
     newIdentifiers := λ n, ("local-" +:+ pretty n, "external-" +:+ pretty n);
     allocated := 0 |}.

(** A process that was granted access at start-up, with reminders "a" and
    "c" in the store. *)
Definition demo_world : World :=
  {| environ := ∅;
     _instance := Some {| _access_granted := true |};
     event_store :=
       demo_store 0 [ItemReminder (demo_reminder "a" "Buy milk" None);
                     ItemReminder (demo_reminder "c" "Call Bob" (Some "about the MILK run"))];
     access_requests := 1;
     access_responses :=
       λ _, {| ar_fired := Some 1%Q; ar_granted := true; ar_error := None |} |}.

(** A process whose user declines every permission prompt after a second. *)
Definition denied_world : World :=
  {| environ := ∅;
     _instance := None;
     event_store := demo_store 0 [];
     access_requests := 0;
     access_responses :=
       λ _, {| ar_fired := Some 1%Q; ar_granted := false; ar_error := None |} |}.

(** A process started with [REQUEST_TIMEOUT=5], whose user grants access
    after 30 seconds and whose fetches complete after 30 seconds. *)
Definition slow_world : World :=
  {| environ := {[ "REQUEST_TIMEOUT" := "5" ]};
     _instance := None;
     event_store := demo_store 30 [ItemReminder (demo_reminder "a" "Buy milk" None)];
     access_requests := 0;
     access_responses :=
       λ _, {| ar_fired := Some 30%Q; ar_granted := true; ar_error := None |} |}.

(** Foundation accepting every string as a URL. *)
Definition demo_URLWithString_ (s : string) : option NSURL :=
  Some {| absoluteString := s |}.

(** A process that was granted access, with five reminders in the store. *)
Definition five_world : World :=
  {| environ := ∅;
     _instance := Some {| _access_granted := true |};
     event_store :=
       demo_store 0 [ItemReminder (demo_reminder "r0" "Pagination Test 0" None);
                     ItemReminder (demo_reminder "r1" "Pagination Test 1" None);
                     ItemReminder (demo_reminder "r2" "Pagination Test 2" None);
                     ItemReminder (demo_reminder "r3" "Pagination Test 3" None);
                     ItemReminder (demo_reminder "r4" "Pagination Test 4" None)];
     access_requests := 1;
     access_responses :=
       λ _, {| ar_fired := Some 1%Q; ar_granted := true; ar_error := None |} |}.

(** Two reminders that differ at most in their alarms. *)
Definition same_but_alarms (r r' : EKReminder) : Prop :=
  calendarItemIdentifier r' = calendarItemIdentifier r ∧
  calendarItemExternalIdentifier r' = calendarItemExternalIdentifier r ∧
  ek_title r' = ek_title r ∧ ek_calendar r' = ek_calendar r ∧
  ek_notes r' = ek_notes r ∧ ek_URL r' = ek_URL r ∧
  isCompleted r' = isCompleted r ∧
  dueDateComponents r' = dueDateComponents r ∧
  startDateComponents r' = startDateComponents r ∧
  ek_priority r' = ek_priority r.

(** [kept P l m]: [m] holds the elements of [l] that satisfy [P], each as
    often as in [l] and in the order of [l]. *)
Inductive kept {A} (P : A → Prop) : list A → list A → Prop :=
| kept_nil : kept P [] []
| kept_yes x l m : P x → kept P l m → kept P (x :: l) (x :: m)
| kept_no x l m : ¬ P x → kept P l m → kept P (x :: l) m.

(** * The rest of the store, the models and the tools

    ** models.py: the validators of [LocationTrigger]

    [None] is the [ValueError] the validator raises. *)
Definition validate_latitude (v : Q) : option Q :=
  if negb (Qle_bool (-90) v && Qle_bool v 90) then None else Some v.

Definition validate_longitude (v : Q) : option Q :=
  if negb (Qle_bool (-180) v && Qle_bool v 180) then None else Some v.

Definition validate_radius (v : Q) : option Q :=
  if Qle_bool v 0 then None
  else if negb (Qle_bool v 10000) then None
  else Some v.

(** ** store.py: the other methods *)

Definition setCalendar_ (v : EKCalendar) (r : EKReminder) : EKReminder :=
  {| calendarItemIdentifier := calendarItemIdentifier r;
     calendarItemExternalIdentifier := calendarItemExternalIdentifier r;
     ek_title := ek_title r; ek_calendar := v; ek_notes := ek_notes r;
     ek_URL := ek_URL r; isCompleted := isCompleted r;
     dueDateComponents := dueDateComponents r;
     startDateComponents := startDateComponents r;
     ek_priority := ek_priority r; alarms := alarms r |}.

(** [ReminderStore.move_reminder_sync] *)
Definition move_reminder_sync (self : ReminderStore) (reminder_id list_id : string)
  : M ReminderData :=
  let* (k, reminder) := _get_reminder_by_id reminder_id in
  let* st := get_store in
  match calendarWithIdentifier_ st list_id with
  | None => raise (NotFoundError "List" list_id)
  | Some calendar =>
      let reminder := setCalendar_ calendar reminder in
      let* success := saveReminder_commit_error_ k reminder in
      if negb success then
        raise (EventKitError ("Failed to move reminder: " +:+ reminder_id) None None)
      else ret (ek_reminder_to_dict reminder)
  end.

(** The dict [ek_calendar_to_dict] builds when [get_list_sync] calls it:
    [is_default] is the value of [default_cal and ... == list_id], which is
    [None] when there is no default calendar. *)
Record ListDict := {
  lsd_id : string;
  lsd_title : string;
  lsd_color : option string;
  lsd_is_default : option bool
}.

(** [ReminderStore.get_list_sync] *)
Definition get_list_sync (self : ReminderStore) (list_id : string) : M ListDict :=
  let* st := get_store in
  match calendarWithIdentifier_ st list_id with
  | None => raise (NotFoundError "List" list_id)
  | Some calendar =>
      let is_default :=
        match defaultCalendarForNewReminders st with
        | None => None
        | Some default_cal =>
            Some (bool_decide (calendarIdentifier default_cal = list_id))
        end in
      ret {| lsd_id := calendarIdentifier calendar;
             lsd_title := str_or (cal_title calendar) "";
             lsd_color := cgcolor_to_hex (CGColor calendar);
             lsd_is_default := is_default |}
  end.

(** [EKSource]: an account, with its reminder calendars
    ([calendarsForEntityType_(EKEntityTypeReminder)]). *)
Inductive EKSourceType :=
| EKSourceTypeLocal
| EKSourceTypeExchange
| EKSourceTypeCalDAV
| EKSourceTypeMobileMe
| EKSourceTypeSubscribed
| EKSourceTypeBirthdays.

Record EKSource := {
  sourceIdentifier : string;
  sourceType : EKSourceType;
  calendarsForEntityType_ : list EKCalendar
}.

#[global] Instance EKSourceType_eq_dec : EqDecision EKSourceType.
Proof. solve_decision. Defined.

(** [cals and any(c.allowsContentModifications() for c in cals)] *)
Definition has_writable_calendar (source : EKSource) : bool :=
  existsb allowsContentModifications (calendarsForEntityType_ source).

(** The first source of the wanted type with a writable calendar. *)
Fixpoint first_writable (wanted : EKSource → bool) (sources : list EKSource)
  : option EKSource :=
  match sources with
  | [] => None
  | source :: rest =>
      if wanted source && has_writable_calendar source then Some source
      else first_writable wanted rest
  end.

(** The three loops of [_get_writable_source] over [self._store.sources()]:
    iCloud/CalDAV first, then Local, then any source. *)
Definition writable_source_among (sources : list EKSource) : Result EKSource :=
  match first_writable
          (λ s, bool_decide (sourceType s = EKSourceTypeCalDAV)) sources with
  | Some source => Ok source
  | None =>
      match first_writable
              (λ s, bool_decide (sourceType s = EKSourceTypeLocal)) sources with
      | Some source => Ok source
      | None =>
          match first_writable (λ _, true) sources with
          | Some source => Ok source
          | None => Raised NoWritableSourceError
          end
      end
  end.

(** [ReminderStore._get_writable_source], from the default calendar (with
    the source [default_cal.source()] returns) and the store's sources. *)
Definition _get_writable_source (default_cal : option (EKCalendar * EKSource))
    (sources : list EKSource) : Result EKSource :=
  match default_cal with
  | Some (cal, source) =>
      if allowsContentModifications cal then Ok source
      else writable_source_among sources
  | None => writable_source_among sources
  end.

(** ** tools/reminders.py: the other handlers *)

(** [get_reminder] *)
Definition get_reminder (reminder_id : string) : M Reminder :=
  let* store := get_instance in
  let* data := run_eventkit (get_reminder_sync store reminder_id) in
  ret (Reminder_of data).

(** [create_reminder] *)
Definition create_reminder (URLWithString_ : string → option NSURL)
    (title : string) (list_id notes url : option string)
    (due_date start_date : option datetime) (priority : Priority)
    (location : option LocationTrigger) : M Reminder :=
  let* store := get_instance in
  let* data :=
    run_eventkit
      (create_reminder_sync URLWithString_ store title list_id notes url
         due_date start_date (Priority_int priority) location) in
  ret (Reminder_of data).

(** [complete_reminder] *)
Definition complete_reminder (reminder_id : string) (completed : bool)
  : M Reminder :=
  let* store := get_instance in
  let* data :=
    run_eventkit (complete_reminder_sync store reminder_id completed) in
  ret (Reminder_of data).

(** [delete_reminder] *)
Definition delete_reminder (reminder_id : string) : M bool :=
  let* store := get_instance in
  run_eventkit (delete_reminder_sync store reminder_id).

(** [move_reminder] *)
Definition move_reminder (reminder_id list_id : string) : M Reminder :=
  let* store := get_instance in
  let* data := run_eventkit (move_reminder_sync store reminder_id list_id) in
  ret (Reminder_of data).

(** ** What the further properties are stated with *)

(** The ranges [datetime] keeps its fields in. *)
Definition datetime_valid (dt : datetime) : Prop :=
  1 ≤ dt_year dt ≤ 9999 ∧ 1 ≤ dt_month dt ≤ 12 ∧ 1 ≤ dt_day dt ≤ 31 ∧
  0 ≤ dt_hour dt ≤ 23 ∧ 0 ≤ dt_minute dt ≤ 59 ∧ 0 ≤ dt_second dt ≤ 59.

Definition is_upper_hex (c : ascii) : bool :=
  let n := nat_of_ascii c in
  ((48 <=? n)%nat && (n <=? 57)%nat) || ((65 <=? n)%nat && (n <=? 70)%nat).

Fixpoint all_upper_hex (s : string) : bool :=
  match s with
  | EmptyString => true
  | String c s' => is_upper_hex c && all_upper_hex s'
  end.

(** The strings matching [^#[0-9A-F]{6}$]. *)
Definition is_hex_color (s : string) : bool :=
  match s with
  | String "#" digits => (String.length digits =? 6)%nat && all_upper_hex digits
  | _ => false
  end.

(** An item carries [i] as its local or its external identifier. *)
Definition carries (i : string) (it : EKCalendarItem) : Prop :=
  item_identifier it = i ∨ item_externalIdentifier it = i.

Definition two_upper_hex (s : string) : bool :=
  match s with
  | String a (String b EmptyString) => is_upper_hex a && is_upper_hex b
  | _ => false
  end.

(** [isinstance(item, EKReminder)] *)
Definition is_reminder (it : EKCalendarItem) : bool :=
  match it with
  | ItemReminder _ => true
  | ItemEvent _ _ => false
  end.

(** The first item whose local identifier is [i], with its position when
    the first item of the list is at position [n]. *)
Fixpoint local_from (n : nat) (i : string) (items : list EKCalendarItem)
  : option (nat * EKCalendarItem) :=
  match items with
  | [] => None
  | it :: rest =>
      if decide (item_identifier it = i) then Some (n, it)
      else local_from (S n) i rest
  end.

(** The first reminder whose external identifier is [i], likewise. *)
Fixpoint external_from (n : nat) (i : string) (items : list EKCalendarItem)
  : option (nat * EKReminder) :=
  match items with
  | [] => None
  | ItemReminder r :: rest =>
      if decide (calendarItemExternalIdentifier r = i) then Some (n, r)
      else external_from (S n) i rest
  | ItemEvent _ _ :: rest => external_from (S n) i rest
  end.

(** The reminder an identifier resolves to: the first item with that local
    identifier when it is a reminder, otherwise the first reminder with that
    external identifier. *)
Definition resolve (i : string) (items : list EKCalendarItem)
  : option (nat * EKReminder) :=
  match local_from 0 i items with
  | Some (k, ItemReminder r) => Some (k, r)
  | _ => external_from 0 i items
  end.

(** Two items of the same class with the same identifiers. *)
Definition alike (a b : EKCalendarItem) : Prop :=
  item_identifier a = item_identifier b ∧
  item_externalIdentifier a = item_externalIdentifier b ∧
  is_reminder a = is_reminder b.

(** The two results of a batch run one after the other, as one. *)
Definition batch_merge (b1 b2 : BatchResult) : BatchResult :=
  {| successes := successes b1 + successes b2;
     failures := failures b1 + failures b2;
     failed_ids := failed_ids b1 ++ failed_ids b2;
     errors := errors b1 ++ errors b2 |}.

(** Code that reads and writes the native store only: it leaves the
    environment, the instance and the access requests as they are. *)
Definition store_only {A} (m : M A) : Prop :=
  ∀ w, set_event_store (event_store (snd (m w))) w = snd (m w).

(** What [location_trigger_to_ek_alarm] followed by
    [extract_location_from_reminder] makes of a trigger: an empty title
    reads "Location" and a radius that is not positive reads 100. *)
Definition location_read_back (l : LocationTrigger) : LocationTrigger :=
  {| lt_title := if decide (lt_title l = EmptyString) then "Location" else lt_title l;
     lt_latitude := lt_latitude l;
     lt_longitude := lt_longitude l;
     lt_radius := if Qlt_le_dec 0 (lt_radius l) then lt_radius l else 100%Q;
     lt_proximity := lt_proximity l |}.

(** ** More of the small store *)

Definition demo_datetime : datetime :=
  {| dt_year := 2024; dt_month := 1; dt_day := 1;
     dt_hour := 10; dt_minute := 0; dt_second := 0 |}.

Definition demo_location : LocationTrigger :=
  {| lt_title := "Home"; lt_latitude := (377749 # 10000)%Q;
     lt_longitude := (-1224194 # 10000)%Q; lt_radius := 150%Q;
     lt_proximity := ENTER |}.

Definition demo_time_alarm : EKAlarm :=
  {| structuredLocation := None; alarm_proximity := EKAlarmProximityNone;
     relativeOffset := (-600)%Q |}.

Definition demo_work_calendar : EKCalendar :=
  {| calendarIdentifier := "work"; cal_title := Some "Work";
     CGColor := Some [(1 # 2)%Q; 1%Q]; allowsContentModifications := true |}.

Definition demo_readonly_calendar : EKCalendar :=
  {| calendarIdentifier := "holidays"; cal_title := Some "Holidays";
     CGColor := None; allowsContentModifications := false |}.

Definition demo_icloud : EKSource :=
  {| sourceIdentifier := "icloud"; sourceType := EKSourceTypeCalDAV;
     calendarsForEntityType_ := [demo_readonly_calendar; demo_calendar] |}.

Definition demo_local : EKSource :=
  {| sourceIdentifier := "local"; sourceType := EKSourceTypeLocal;
     calendarsForEntityType_ := [demo_work_calendar] |}.

Definition demo_subscribed : EKSource :=
  {| sourceIdentifier := "subscribed"; sourceType := EKSourceTypeSubscribed;
     calendarsForEntityType_ := [demo_readonly_calendar] |}.

(** A process that was granted access, with two lists and, in the store, a
    reminder "a" with a time alarm and a location alarm, an event and a
    reminder "c". *)
Definition alarm_world : World :=
  {| environ := ∅;
     _instance := Some {| _access_granted := true |};
     event_store :=
       {| calendars := [demo_calendar; demo_work_calendar];
          defaultCalendarForNewReminders := Some demo_calendar;
          calendarItems :=
            [ItemReminder
               (addAlarm_ (location_trigger_to_ek_alarm demo_location)
                  (addAlarm_ demo_time_alarm (demo_reminder "a" "Buy milk" None)));
             ItemEvent "e" "e-ext";
             ItemReminder (demo_reminder "c" "Call Bob" (Some "about the MILK run"))];
          fetchRemindersMatchingPredicate := demo_fetch 0;
          saveReminder_ok := λ _, true;
          removeReminder_ok := λ _, true;
          newIdentifiers := λ n, ("local-" +:+ pretty n, "external-" +:+ pretty n);
          allocated := 0 |};
     access_requests := 1;
     access_responses :=
       λ _, {| ar_fired := Some 1%Q; ar_granted := true; ar_error := None |} |}.

(** A process whose first permission prompt is not answered and whose second
    is granted after two seconds. *)
Definition late_world : World :=
  {| environ := ∅;
     _instance := None;
     event_store := demo_store 0 [];
     access_requests := 0;
     access_responses :=
       λ n, match n with
            | O => {| ar_fired := None; ar_granted := false; ar_error := None |}
            | _ => {| ar_fired := Some 2%Q; ar_granted := true; ar_error := None |}
            end |}.

(** [reminder_with local external]: a reminder whose two identifiers
    differ. *)
Definition reminder_with (local external title : string) : EKReminder :=
  {| calendarItemIdentifier := local; calendarItemExternalIdentifier := external;
     ek_title := Some title; ek_calendar := demo_calendar; ek_notes := None;
     ek_URL := None; isCompleted := false;
     dueDateComponents := None; startDateComponents := None;
     ek_priority := 0; alarms := [] |}.

(** A store in which "q" is the external identifier of one reminder and the
    local identifier of a later one, and "e" is the local identifier of an
    event and the external identifier of a reminder. *)
Definition shadow_world : World :=
  {| environ := ∅;
     _instance := Some {| _access_granted := true |};
     event_store :=
       demo_store 0 [ItemEvent "e" "e-ext";
                     ItemReminder (reminder_with "p" "q" "Synced");
                     ItemReminder (reminder_with "q" "z" "Local");
                     ItemReminder (reminder_with "s" "e" "After the event")];
     access_requests := 1;
     access_responses :=
       λ _, {| ar_fired := Some 1%Q; ar_granted := true; ar_error := None |} |}.

(** Two reminders as the handlers return them, equal but for the list. *)
Definition same_but_list (a b : Reminder) : Prop :=
  r_id a = r_id b ∧ r_title a = r_title b ∧ r_notes a = r_notes b ∧
  r_url a = r_url b ∧ r_is_completed a = r_is_completed b ∧
  r_due_date a = r_due_date b ∧ r_start_date a = r_start_date b ∧
  r_priority a = r_priority b ∧ r_location a = r_location b.

(** Two reminders as the handlers return them, equal but for completion. *)
Definition same_but_completion (a b : Reminder) : Prop :=
  r_id a = r_id b ∧ r_title a = r_title b ∧ r_list_id a = r_list_id b ∧
  r_notes a = r_notes b ∧ r_url a = r_url b ∧
  r_due_date a = r_due_date b ∧ r_start_date a = r_start_date b ∧
  r_priority a = r_priority b ∧ r_location a = r_location b.

(** The fields of a reminder that was given these optional arguments when
    it was made: empty notes and an empty url are not set. *)
Definition made_with (URLWithString_ : string → option NSURL) (r : EKReminder)
    (notes url : option string) (due_date start_date : option datetime)
    (priority : Z) (location : option LocationTrigger) : Prop :=
  ek_notes r = (if str_truthy notes then notes else None) ∧
  ek_URL r = (if str_truthy url
              then URLWithString_ (default EmptyString url) else None) ∧
  dueDateComponents r = datetime_to_components <$> due_date ∧
  startDateComponents r = datetime_to_components <$> start_date ∧
  ek_priority r = priority ∧
  alarms r = match location with
             | Some l => [location_trigger_to_ek_alarm l]
             | None => []
             end.

(** One caller going through [run_eventkit] from the call to the return,
    with nobody else moving in between. *)
Definition run_to_end {St Val : Type} (t : nat)
    (fn : @Serializer.Operation St Val) (s : @Serializer.System St Val)
  : @Serializer.System St Val :=
  Serializer.leave t (fst (fn (Serializer.native s)))
    (Serializer.complete t fn
       (Serializer.dispatch t fn (Serializer.call t fn s))).

(** * Properties *)

Lemma get_instance_some w self :
  _instance w = Some self → get_instance w = (Ok self, w).
Proof. intros H. unfold get_instance. by rewrite H. Qed.

Lemma get_instance_event_store w :
  event_store (snd (get_instance w)) = event_store w.
Proof.
  unfold get_instance, ReminderStore_init, _request_access_sync.
  destruct (_instance w); [done|].
  repeat case_match; simplify_eq/=; done.
Qed.

Lemma append_String c s t : String c s +:+ t = String c (s +:+ t).
Proof. reflexivity. Qed.

Lemma append_Empty t : EmptyString +:+ t = t.
Proof. reflexivity. Qed.

Lemma prefix_Substring a b :
  String.prefix a b = true ↔ ∃ rest, b = a +:+ rest.
Proof.
  revert b. induction a as [|c a IH]; intros b; simpl.
  - split; [intros _; by exists b | by destruct b].
  - destruct b as [|d b]; simpl.
    + split; [done | intros [rest H]; discriminate].
    + setoid_rewrite append_String.
      destruct (Ascii.ascii_dec c d) as [->|Hne].
      * rewrite IH. split; intros [rest H]; exists rest; congruence.
      * split; [done | intros [rest H]; congruence].
Qed.

Lemma str_in_Empty needle :
  str_in needle EmptyString = String.prefix needle EmptyString.
Proof. unfold str_in. apply orb_false_r. Qed.

Lemma str_in_String needle c hay :
  str_in needle (String c hay) =
  String.prefix needle (String c hay) || str_in needle hay.
Proof. reflexivity. Qed.

Lemma str_in_Substring needle hay :
  str_in needle hay = true ↔ Substring needle hay.
Proof.
  unfold Substring. induction hay as [|c hay IH].
  - rewrite str_in_Empty, prefix_Substring. split.
    + intros [rest H]. exists EmptyString, rest. done.
    + intros ([|d before] & after & H); [eauto | discriminate].
  - rewrite str_in_String, orb_true_iff, prefix_Substring, IH. split.
    + intros [[rest H] | (before & after & H)].
      * exists EmptyString, rest. done.
      * exists (String c before), after. rewrite append_String. by rewrite H.
    + intros ([|d before] & after & H).
      * left. eauto.
      * right. exists before, after. rewrite append_String in H. congruence.
Qed.

Lemma str_or_default (x : option string) :
  str_or x EmptyString = default EmptyString x.
Proof. by destruct x as [[|]|]. Qed.

Lemma search_matching_cons str_lower q d (l : list ReminderData) :
  search_matching str_lower q (d :: l) =
  if str_in q (str_lower (d_title d))
     || str_in q (str_lower (default EmptyString (d_notes d)))
  then d :: search_matching str_lower q l
  else search_matching str_lower q l.
Proof.
  rewrite <- (str_or_default (d_notes d)).
  change (d_title d) with (default EmptyString (Some (d_title d))) at 1.
  rewrite <- (str_or_default (Some (d_title d))). reflexivity.
Qed.

Lemma search_matching_filter str_lower q (l : list ReminderData) :
  search_matching str_lower q l =
  filter (λ d, str_in q (str_lower (d_title d))
               || str_in q (str_lower (default EmptyString (d_notes d))) = true) l.
Proof.
  induction l as [|d l IH]; [done|].
  rewrite search_matching_cons, filter_cons, IH.
  by destruct (str_in q (str_lower (d_title d)) || _).
Qed.

Lemma slice_from_sublist {A} (l : list A) i : sublist (slice_from l i) l.
Proof. apply sublist_drop. Qed.

Lemma slice_to_sublist {A} (l : list A) i : sublist (slice_to l i) l.
Proof. apply sublist_take. Qed.

Lemma _paginate_sublist {A} (l : list A) offset limit :
  sublist (_paginate l offset limit) l.
Proof.
  unfold _paginate.
  assert (sublist (if offset =? 0 then l else slice_from l offset) l).
  { case_match; [done | apply slice_from_sublist]. }
  destruct limit; [|done].
  etrans; [apply slice_to_sublist | done].
Qed.

Lemma get_reminders_unfold list_id ic db da limit offset w store w1 fetched w2 :
  get_instance w = (Ok store, w1) →
  get_reminders_sync store list_id ic db da w1 = (Ok fetched, w2) →
  get_reminders list_id ic db da limit offset w =
  (Ok (NamedField "reminders" (Reminder_of <$> _paginate fetched offset limit)), w2).
Proof.
  intros H1 H2. unfold get_reminders, bind, run_eventkit, ret.
  by rewrite H1, H2.
Qed.



Lemma mentions_str_in str_lower query title notes :
  str_in (str_lower query) (str_lower title)
  || str_in (str_lower query) (str_lower (default EmptyString notes)) = true
  ↔ mentions str_lower query title notes.
Proof.
  unfold mentions. by rewrite orb_true_iff, !str_in_Substring.
Qed.

Lemma search_matching_kept str_lower query (fetched : list ReminderData) :
  kept (λ d, mentions str_lower query (d_title d) (d_notes d)) fetched
       (search_matching str_lower (str_lower query) fetched).
Proof.
  induction fetched as [|d l IH]; [constructor|].
  rewrite search_matching_cons.
  destruct (str_in _ _ || _) eqn:E.
  - apply kept_yes; [by apply mentions_str_in | done].
  - apply kept_no; [|done]. rewrite <- mentions_str_in, E. done.
Qed.

Lemma kept_elem_of {A} (P : A → Prop) l m x :
  kept P l m → x ∈ m → P x.
Proof.
  induction 1 as [|y l m Hy _ IH|y l m _ _ IH]; intros Hx.
  - by apply elem_of_nil in Hx.
  - apply elem_of_cons in Hx as [->|Hx]; auto.
  - auto.
Qed.



(** C5. [search_reminders] and [add_reminders] answer with a bare list,
    whatever they are asked; a search matching nothing returns the bare empty
    list. [get_reminders] and [list_reminder_lists] wrap theirs in a named
    field. *)
Theorem search_reminders_returns_bare_list :
  (∀ str_lower query list_id include_completed limit offset w,
     match fst (search_reminders str_lower query list_id include_completed
                  limit offset w) with
     | Ok c => is_named c = false
     | Raised _ => True
     end) ∧
  (∀ URLWithString_ list_id items w,
     match fst (add_reminders URLWithString_ list_id items w) with
     | Ok c => is_named c = false
     | Raised _ => True
     end) ∧
  fst (search_reminders lower_ascii "zzz" None false None 0 demo_world)
    = Ok (BareList []) ∧
  (∀ list_id include_completed due_before due_after limit offset w,
     match fst (get_reminders list_id include_completed due_before due_after
                  limit offset w) with
     | Ok c => is_named c = true
     | Raised _ => True
     end) ∧
  (∀ w, match fst (list_reminder_lists w) with
        | Ok c => is_named c = true
        | Raised _ => True
        end).
Proof.
  split; [|split; [|split; [|split]]].
  - intros. unfold search_reminders, bind, run_eventkit, ret.
    destruct (get_instance w) as [[store|e] w1]; [|done].
    destruct (get_reminders_sync _ _ _ _ _ w1) as [[l|e] w2]; done.
  - intros. unfold add_reminders, bind, ret.
    destruct (get_instance w) as [[store|e] w1]; [|done].
    destruct (add_reminders_loop _ _ _ _ _ w1) as [[l|e] w2]; done.
  - vm_compute. reflexivity.
  - intros. unfold get_reminders, bind, run_eventkit, ret.
    destruct (get_instance w) as [[store|e] w1]; [|done].
    destruct (get_reminders_sync _ _ _ _ _ w1) as [[l|e] w2]; done.
  - intros. unfold list_reminder_lists, bind, run_eventkit, ret.
    destruct (get_instance w) as [[store|e] w1]; [|done].
    destruct (get_lists_sync _ w1) as [[l|e] w2]; done.
Qed.

(** ** The batch loops *)

Lemma batch_loop_spec {A} (op : string → M A) items acc w :
  batch_loop op items acc w =
  (Ok {| successes := successes acc + Z.of_nat (length (returned_values op items w));
         failures := failures acc + Z.of_nat (length (failing_items op items w));
         failed_ids := failed_ids acc ++ failing_items op items w;
         errors := errors acc ++ failing_messages op items w |},
   world_after op items w).
Proof.
  revert acc w. induction items as [|i rest IH]; intros acc w; simpl.
  - unfold ret. destruct acc; simpl. by rewrite !Z.add_0_r, !app_nil_r.
  - unfold bind, try_except, run_eventkit.
    destruct (op i w) as [[a|e] w'] eqn:E; simpl; rewrite IH; simpl.
    + do 2 f_equal. f_equal; lia.
    + do 2 f_equal. rewrite <- !app_assoc. simpl. f_equal; lia.
Qed.

Lemma outcomes_length {A} (op : string → M A) items w :
  (length (returned_values op items w) + length (failing_items op items w))%nat
  = length items.
Proof.
  revert w. induction items as [|i rest IH]; intros w; simpl; [done|].
  destruct (op i w) as [[a|e] w']; simpl; rewrite <- (IH w'); lia.
Qed.

Lemma failing_messages_length {A} (op : string → M A) items w :
  length (failing_messages op items w) = length (failing_items op items w).
Proof.
  revert w. induction items as [|i rest IH]; intros w; simpl; [done|].
  destruct (op i w) as [[a|e] w']; simpl; by rewrite IH.
Qed.

Lemma complete_reminders_loop_batch store ids acc w :
  complete_reminders_loop store ids acc w =
  batch_loop (λ i, complete_reminder_sync store i true) ids acc w.
Proof.
  revert acc w. induction ids as [|i rest IH]; intros acc w; simpl; [done|].
  unfold bind. destruct (try_except _ w) as [[[a|e]|e] w']; auto.
Qed.

Lemma delete_reminders_loop_batch store ids acc w :
  delete_reminders_loop store ids acc w =
  batch_loop (λ i, delete_reminder_sync store i) ids acc w.
Proof.
  revert acc w. induction ids as [|i rest IH]; intros acc w; simpl; [done|].
  unfold bind. destruct (try_except _ w) as [[[a|e]|e] w']; auto.
Qed.

Lemma add_reminders_loop_spec URLWithString_ store list_id items created w :
  add_reminders_loop URLWithString_ store list_id items created w =
  (Ok (created ++
       (Reminder_of <$>
        returned_values
          (λ title, create_reminder_sync URLWithString_ store title list_id
                      None None None None 0 None) items w)),
   world_after
     (λ title, create_reminder_sync URLWithString_ store title list_id
                 None None None None 0 None) items w).
Proof.
  revert created w.
  induction items as [|i rest IH]; intros created w.
  - simpl. unfold ret. by rewrite app_nil_r.
  - cbn [add_reminders_loop returned_values world_after].
    unfold bind at 1. unfold try_except, run_eventkit.
    destruct (create_reminder_sync _ _ i _ _ _ _ _ _ _ w) as [[a|e] w'];
      cbn [snd]; rewrite IH; [|done].
    by rewrite fmap_cons, <- app_assoc.
Qed.

Lemma batch_from_start {A} (op : string → M A) items w :
  batch_loop op items batch_start w =
  (Ok {| successes := Z.of_nat (length (returned_values op items w));
         failures := Z.of_nat (length (failing_items op items w));
         failed_ids := failing_items op items w;
         errors := failing_messages op items w |},
   world_after op items w).
Proof. by rewrite batch_loop_spec. Qed.

(** C6. [complete_reminders] runs [complete_reminder_sync] on every id, one
    after the other, and returns a [BatchResult] whatever the items do:
    successes and failures add up to the number of ids, and [failed_ids] are
    the ids whose operation raised, in input order. For ["a","b","c"] with
    only "b" failing: 2 successes, 1 failure, failed_ids ["b"]. *)
Theorem complete_reminders_batch_result :
  ∀ (w : World) (store : ReminderStore) (reminder_ids : list string),
    _instance w = Some store →
    let op := λ i, complete_reminder_sync store i true in
    ∃ b : BatchResult,
      complete_reminders reminder_ids w = (Ok b, world_after op reminder_ids w) ∧
      successes b + failures b = Z.of_nat (length reminder_ids) ∧
      failures b = Z.of_nat (length (failed_ids b)) ∧
      failed_ids b = failing_items op reminder_ids w ∧
      errors b = failing_messages op reminder_ids w ∧
      (reminder_ids = ["a"; "b"; "c"] →
       failing_items op reminder_ids w = ["b"] →
       successes b = 2 ∧ failures b = 1 ∧ failed_ids b = ["b"]).
Proof.
  intros w store ids Hi op.
  pose proof (outcomes_length op ids w) as Hl.
  eexists. split; [|split; [|split; [|split; [|split]]]].
  - unfold complete_reminders, bind. rewrite (get_instance_some _ _ Hi).
    rewrite complete_reminders_loop_batch. apply batch_from_start.
  - cbn [successes failures]. fold op. lia.
  - reflexivity.
  - reflexivity.
  - reflexivity.
  - cbn [successes failures failed_ids]. fold op. intros -> Hf.
    rewrite Hf in Hl |- *. cbn [length] in Hl. split; [lia|done].
Qed.

Lemma complete_reminders_batch_result_witness :
  ∃ b w',
    complete_reminders ["a"; "b"; "c"] demo_world = (Ok b, w') ∧
    successes b = 2 ∧ failures b = 1 ∧ failed_ids b = ["b"] ∧
    errors b = ["Reminder not found: b"].
Proof.
  destruct (complete_reminders_batch_result demo_world {| _access_granted := true |}
              ["a"; "b"; "c"] eq_refl)
    as (b & Hc & _ & _ & _ & He & Habc).
  assert (Hb : failing_items
                 (λ i, complete_reminder_sync {| _access_granted := true |} i true)
                 ["a"; "b"; "c"] demo_world = ["b"]) by (vm_compute; reflexivity).
  destruct (Habc eq_refl Hb) as (Hs & Hf & Hids).
  exists b. eexists. split; [exact Hc|].
  split; [exact Hs|]. split; [exact Hf|]. split; [exact Hids|].
  rewrite He. vm_compute. reflexivity.
Defined.

(** C7, as stated, fails for [add_reminders]: creating "x" in the list
    "nope", which does not exist, raises, and the tool answers with the
    empty list: nothing in its result tells that "x" failed. *)
Lemma add_reminders_skips_failed_item :
  failing_items
    (λ title, create_reminder_sync demo_URLWithString_ {| _access_granted := true |}
                title (Some "nope") None None None None 0 None)
    ["x"] demo_world = ["x"] ∧
  fst (add_reminders demo_URLWithString_ (Some "nope") ["x"] demo_world)
    = Ok (BareList []).
Proof. split; vm_compute; reflexivity. Qed.

(** C7, amended. [complete_reminders] and [delete_reminders] report every
    item whose operation raised: its id in [failed_ids] and its message in
    [errors], in input order. [add_reminders] returns the reminders of the
    items whose creation returned, in input order, and nothing about the
    others. *)
Theorem batch_tools_failure_report :
  ∀ (URLWithString_ : string → option NSURL) (w : World) (store : ReminderStore),
    _instance w = Some store →
    (∀ reminder_ids,
       let op := λ i, complete_reminder_sync store i true in
       ∃ b, fst (complete_reminders reminder_ids w) = Ok b ∧
            failed_ids b = failing_items op reminder_ids w ∧
            errors b = failing_messages op reminder_ids w ∧
            failures b = Z.of_nat (length (failing_items op reminder_ids w))) ∧
    (∀ reminder_ids,
       let op := λ i, delete_reminder_sync store i in
       ∃ b, fst (delete_reminders reminder_ids w) = Ok b ∧
            failed_ids b = failing_items op reminder_ids w ∧
            errors b = failing_messages op reminder_ids w ∧
            failures b = Z.of_nat (length (failing_items op reminder_ids w))) ∧
    (∀ list_id items,
       let op := λ title, create_reminder_sync URLWithString_ store title list_id
                            None None None None 0 None in
       fst (add_reminders URLWithString_ list_id items w)
         = Ok (BareList (Reminder_of <$> returned_values op items w)) ∧
       (length (returned_values op items w)
        + length (failing_items op items w))%nat = length items).
Proof.
  intros URLWithString_ w store Hi. split; [|split].
  - intros ids op. eexists. split; [|split; [|split]].
    + unfold complete_reminders, bind. rewrite (get_instance_some _ _ Hi).
      rewrite complete_reminders_loop_batch, batch_from_start. reflexivity.
    + reflexivity.
    + reflexivity.
    + reflexivity.
  - intros ids op. eexists. split; [|split; [|split]].
    + unfold delete_reminders, bind. rewrite (get_instance_some _ _ Hi).
      rewrite delete_reminders_loop_batch, batch_from_start. reflexivity.
    + reflexivity.
    + reflexivity.
    + reflexivity.
  - intros list_id items op. split.
    + unfold add_reminders, bind, ret. rewrite (get_instance_some _ _ Hi).
      rewrite add_reminders_loop_spec. reflexivity.
    + apply outcomes_length.
Qed.

Lemma batch_tools_failure_report_witness :
  (∃ b, fst (delete_reminders ["a"; "b"; "a"] demo_world) = Ok b ∧
        failed_ids b = ["b"; "a"] ∧
        errors b = ["Reminder not found: b"; "Reminder not found: a"]) ∧
  (∃ created,
     fst (add_reminders demo_URLWithString_ None ["x"; "y"] demo_world)
       = Ok (BareList created) ∧ map r_title created = ["x"; "y"]).
Proof.
  destruct (batch_tools_failure_report demo_URLWithString_ demo_world
              {| _access_granted := true |} eq_refl) as (_ & Hd & Ha).
  split.
  - destruct (Hd ["a"; "b"; "a"]) as (b & Hb & Hf & He & _).
    exists b. split; [exact Hb|]. rewrite Hf, He.
    split; vm_compute; reflexivity.
  - destruct (Ha None ["x"; "y"]) as (Hc & _).
    eexists. split; [exact Hc|]. vm_compute. reflexivity.
Defined.

(** ** Partial update *)

Lemma first_reminder_elem_of items k r :
  first_reminder items = Some (k, r) → (k, ItemReminder r) ∈ items.
Proof.
  induction items as [|[j [r'|i e]] items IH]; simpl; intros H.
  - discriminate.
  - injection H as -> ->. apply elem_of_cons. by left.
  - apply elem_of_cons. right. auto.
Qed.

Lemma _get_reminder_by_id_lookup reminder_id w k r w' :
  _get_reminder_by_id reminder_id w = (Ok (k, r), w') →
  w' = w ∧ calendarItems (event_store w) !! k = Some (ItemReminder r).
Proof.
  unfold _get_reminder_by_id, bind, get_store, ret, raise.
  destruct (calendarItemWithIdentifier_ _ _) as [[j [r'|i e]]|] eqn:E.
  - intros [= -> -> ->]. split; [done|].
    by apply list_find_Some in E as (? & _).
  - destruct (first_reminder _) as [[j' r']|] eqn:F; [|discriminate].
    intros [= -> -> ->]. split; [done|].
    apply first_reminder_elem_of in F.
    unfold calendarItemsWithExternalIdentifier_ in F.
    apply list_elem_of_filter in F as (_ & F).
    apply elem_of_lookup_imap in F as (i' & y & [= -> ->] & Hl). done.
  - destruct (first_reminder _) as [[j' r']|] eqn:F; [|discriminate].
    intros [= -> -> ->]. split; [done|].
    apply first_reminder_elem_of in F.
    unfold calendarItemsWithExternalIdentifier_ in F.
    apply list_elem_of_filter in F as (_ & F).
    apply elem_of_lookup_imap in F as (i' & y & [= -> ->] & Hl). done.
Qed.

Lemma _remove_location_alarms_loop_same copy r n :
  same_but_alarms r (fst (_remove_location_alarms_loop copy r n)).
Proof.
  revert r n. induction copy as [|a copy IH]; intros r n; simpl.
  - by repeat split.
  - destruct (structuredLocation a); [|apply IH].
    exact (IH (removeAlarm_ a r) (n + 1)).
Qed.

Lemma _remove_location_alarms_same r :
  same_but_alarms r (fst (_remove_location_alarms r)).
Proof.
  unfold _remove_location_alarms. destruct (alarms r) eqn:E.
  - by repeat split.
  - apply _remove_location_alarms_loop_same.
Qed.

Lemma update_reminder_fields_frame URLWithString_ r title notes url due_date
    start_date priority location clear_location :
  let r' := update_reminder_fields URLWithString_ r title notes url due_date
              start_date priority location clear_location in
  calendarItemIdentifier r' = calendarItemIdentifier r ∧
  calendarItemExternalIdentifier r' = calendarItemExternalIdentifier r ∧
  ek_calendar r' = ek_calendar r ∧
  isCompleted r' = isCompleted r ∧
  (title = None → ek_title r' = ek_title r) ∧
  (notes = None → ek_notes r' = ek_notes r) ∧
  (url = None → ek_URL r' = ek_URL r) ∧
  (due_date = None → dueDateComponents r' = dueDateComponents r) ∧
  (start_date = None → startDateComponents r' = startDateComponents r) ∧
  (priority = None → ek_priority r' = ek_priority r) ∧
  (location = None → clear_location = false → alarms r' = alarms r).
Proof.
  unfold update_reminder_fields.
  set (r1 := match title with Some t => _ | None => r end).
  set (r2 := match notes with Some t => _ | None => r1 end).
  set (r3 := match url with Some t => _ | None => r2 end).
  set (r4 := match due_date with Some t => _ | None => r3 end).
  set (r5 := match start_date with Some t => _ | None => r4 end).
  set (r6 := match priority with Some t => _ | None => r5 end).
  assert (H6 :
    calendarItemIdentifier r6 = calendarItemIdentifier r ∧
    calendarItemExternalIdentifier r6 = calendarItemExternalIdentifier r ∧
    ek_calendar r6 = ek_calendar r ∧
    isCompleted r6 = isCompleted r ∧
    (title = None → ek_title r6 = ek_title r) ∧
    (notes = None → ek_notes r6 = ek_notes r) ∧
    (url = None → ek_URL r6 = ek_URL r) ∧
    (due_date = None → dueDateComponents r6 = dueDateComponents r) ∧
    (start_date = None → startDateComponents r6 = startDateComponents r) ∧
    (priority = None → ek_priority r6 = ek_priority r) ∧
    alarms r6 = alarms r).
  { subst r1 r2 r3 r4 r5 r6.
    destruct title, notes, url, due_date, start_date, priority; simpl;
      repeat split; try done. }
  destruct H6 as (A1 & A2 & A3 & A4 & A5 & A6 & A7 & A8 & A9 & A10 & A11).
  destruct (_remove_location_alarms_same r6)
    as (B1 & B2 & B3 & B4 & B5 & B6 & B7 & B8 & B9 & B10).
  destruct clear_location; [|destruct location]; simpl;
    repeat split; intros; try discriminate;
    rewrite ?B1, ?B2, ?B3, ?B4, ?B5, ?B6, ?B7, ?B8, ?B9, ?B10; auto.
Qed.

(** C8. [update_reminder] on an existing reminder: whether the call returns
    or raises, the reminder at that place in the store afterwards has, for
    every argument passed as [None] (title, notes, url, due_date, start_date,
    priority), the value it had, and the alarms it had when [location] is
    [None] and [clear_location] is false. Its identifiers, list and
    completion state, and the other items of the store, are as before. *)
Theorem update_reminder_partial_update :
  ∀ (URLWithString_ : string → option NSURL) (w : World) (reminder_id : string)
    (k : nat) (reminder : EKReminder)
    title notes url due_date start_date priority location clear_location,
    fst (_get_reminder_by_id reminder_id w) = Ok (k, reminder) →
    ∃ stored : EKReminder,
      calendarItems
        (event_store
           (snd (update_reminder URLWithString_ reminder_id title notes url
                   due_date start_date priority location clear_location w)))
        !! k = Some (ItemReminder stored) ∧
      (title = None → ek_title stored = ek_title reminder) ∧
      (notes = None → ek_notes stored = ek_notes reminder) ∧
      (url = None → ek_URL stored = ek_URL reminder) ∧
      (due_date = None → dueDateComponents stored = dueDateComponents reminder) ∧
      (start_date = None →
       startDateComponents stored = startDateComponents reminder) ∧
      (priority = None → ek_priority stored = ek_priority reminder) ∧
      (location = None → clear_location = false →
       alarms stored = alarms reminder) ∧
      calendarItemIdentifier stored = calendarItemIdentifier reminder ∧
      calendarItemExternalIdentifier stored
        = calendarItemExternalIdentifier reminder ∧
      ek_calendar stored = ek_calendar reminder ∧
      isCompleted stored = isCompleted reminder ∧
      (∀ j, j ≠ k →
         calendarItems
           (event_store
              (snd (update_reminder URLWithString_ reminder_id title notes url
                      due_date start_date priority location clear_location w)))
           !! j = calendarItems (event_store w) !! j).
Proof.
  intros U w reminder_id k r title notes url due start prio loc clear Hg.
  pose proof (get_instance_event_store w) as He.
  unfold update_reminder, bind, run_eventkit.
  destruct (get_instance w) as [[store|e] w1]; simpl in He.
  2: { exists r. simpl. rewrite He.
       destruct (_get_reminder_by_id reminder_id w) as [res w0] eqn:G.
       simpl in Hg. subst res.
       apply _get_reminder_by_id_lookup in G as [_ G]. by repeat split. }
  assert (G : _get_reminder_by_id reminder_id w1 = (Ok (k, r), w1)).
  { revert Hg. unfold _get_reminder_by_id, bind, get_store, ret, raise.
    rewrite He. simpl. repeat case_match; simpl; congruence. }
  pose proof (_get_reminder_by_id_lookup _ _ _ _ _ G) as [_ Hl].
  unfold update_reminder_sync, bind. rewrite G.
  set (r' := update_reminder_fields U r title notes url due start
               (Priority_int <$> prio) loc clear).
  pose proof (update_reminder_fields_frame U r title notes url due start
                (Priority_int <$> prio) loc clear) as Hf.
  fold r' in Hf. simpl in Hf.
  unfold saveReminder_commit_error_, bind, get_store, put_store, ret, raise.
  destruct (saveReminder_ok (event_store w1) r') eqn:S; simpl.
  - exists r'. split.
    + apply list_lookup_insert_eq. by eapply lookup_lt_Some.
    + destruct Hf as (E1 & E2 & E3 & E4 & F1 & F2 & F3 & F4 & F5 & F6 & F7).
      repeat split; auto.
      * intros ->. by apply F6.
      * intros j Hj. rewrite list_lookup_insert_ne by done. by rewrite He.
  - exists r. split; [done|]. repeat split; try done.
    intros j Hj. by rewrite He.
Qed.

Lemma update_reminder_partial_update_witness :
  ∃ stored : EKReminder,
    calendarItems
      (event_store
         (snd (update_reminder demo_URLWithString_ "c" (Some "Call Alice") None
                 None None None (Some HIGH) None false demo_world)))
      !! 1%nat = Some (ItemReminder stored) ∧
    ek_title stored = Some "Call Alice" ∧
    ek_notes stored = Some "about the MILK run" ∧
    ek_priority stored = 1 ∧
    alarms stored = [].
Proof.
  destruct (update_reminder_partial_update demo_URLWithString_ demo_world "c" 1
              (demo_reminder "c" "Call Bob" (Some "about the MILK run"))
              (Some "Call Alice") None None None None (Some HIGH) None false)
    as (stored & Hl & _ & Hn & _ & _ & _ & _ & Ha & _); [reflexivity|].
  exists stored. split; [exact Hl|].
  rewrite (Hn eq_refl), (Ha eq_refl eq_refl).
  vm_compute in Hl. injection Hl as <-. repeat split; reflexivity.
Defined.

(** ** The permission handshake *)

Lemma _request_access_sync_requests self w :
  access_requests (snd (_request_access_sync self w)) = S (access_requests w) ∧
  _instance (snd (_request_access_sync self w)) = _instance w.
Proof.
  unfold _request_access_sync. repeat case_match; done.
Qed.

(** C3, as stated, fails: after a [get_instance()] that raised
    [AccessDeniedError], the next [get_instance()] makes a second access
    request. *)
Lemma get_instance_retries_after_denial :
  fst (get_instance denied_world) = Raised AccessDeniedError ∧
  access_requests (snd (get_instance denied_world)) = 1%nat ∧
  access_requests (snd (get_instance (snd (get_instance denied_world)))) = 2%nat.
Proof. repeat split; vm_compute; reflexivity. Qed.

(** C3, amended. A [get_instance()] that raises [AccessDeniedError] has made
    one access request and committed no instance; every later
    [get_instance()] in that state makes one new access request, and its
    outcome is that of a fresh initialisation. The server makes no later
    call: its [main] exits with status 1 on that failure. *)
Theorem get_instance_after_denial :
  ∀ (w w1 : World),
    get_instance w = (Raised AccessDeniedError, w1) →
    _instance w1 = None ∧
    access_requests w1 = S (access_requests w) ∧
    access_requests (snd (get_instance w1)) = S (access_requests w1) ∧
    fst (get_instance w1) = fst (ReminderStore_init w1) ∧
    main w = (Exits 1, w1).
Proof.
  intros w w1 H.
  assert (Hmain : main w = (Exits 1, w1)) by (unfold main; by rewrite H).
  revert Hmain. generalize (main w). intros m Hmain.
  unfold get_instance in H.
  destruct (_instance w) eqn:Hi; [discriminate|].
  pose proof (_request_access_sync_requests {| _access_granted := false |} w)
    as [Hr Hn].
  unfold ReminderStore_init in *.
  destruct (_request_access_sync _ w) as [[s|e] w'] eqn:E; [discriminate|].
  injection H as -> ->. simpl in Hr, Hn. rewrite Hi in Hn.
  split; [done|]. split; [done|].
  pose proof (_request_access_sync_requests {| _access_granted := false |} w1)
    as [Hr1 _].
  unfold get_instance, ReminderStore_init. rewrite Hn.
  destruct (_request_access_sync _ w1) as [[s|e'] w2]; simpl in *; done.
Qed.

Lemma get_instance_after_denial_witness :
  _instance (snd (get_instance denied_world)) = None ∧
  access_requests (snd (get_instance denied_world)) = 1%nat ∧
  access_requests (snd (get_instance (snd (get_instance denied_world)))) = 2%nat.
Proof.
  destruct (get_instance_after_denial denied_world
              (snd (get_instance denied_world)))
    as (H1 & H2 & H3 & _ & _); [vm_compute; reflexivity|].
  split; [exact H1|]. split; [exact H2|]. rewrite H3, H2. reflexivity.
Defined.

(** ** The timeouts *)

(** C4, as stated, fails: with [REQUEST_TIMEOUT=5] in the environment the
    configured value is 5 seconds, yet an answer to the permission prompt
    after 30 seconds is accepted, and so is a fetch completion after 30
    seconds. *)
Lemma waits_ignore_REQUEST_TIMEOUT :
  REQUEST_TIMEOUT float_decimal slow_world = Some 5%Q ∧
  fst (get_instance slow_world) = Ok {| _access_granted := true |} ∧
  ∃ fetched,
    fst (get_reminders_sync {| _access_granted := true |} None false None None
           slow_world) = Ok fetched.
Proof.
  split; [vm_compute; reflexivity|]. split; [vm_compute; reflexivity|].
  eexists. vm_compute. reflexivity.
Qed.

(** C4, amended. [REQUEST_TIMEOUT] is the environment setting parsed as a
    float, "60.0" (60 seconds) when it is unset. The permission handshake and
    the fetch wait do not read it: whatever the environment holds, the
    handshake times out exactly when no answer comes within
    [DEFAULT_TIMEOUT] = 60 seconds, and so does the fetch. *)
Theorem waits_use_DEFAULT_TIMEOUT :
  ∀ (float : string → option Q) (w : World) (self : ReminderStore)
    include_completed due_before due_after,
    (environ w !! "REQUEST_TIMEOUT" = None →
     REQUEST_TIMEOUT float w = float "60.0") ∧
    (∀ v, environ w !! "REQUEST_TIMEOUT" = Some v →
          REQUEST_TIMEOUT float w = float v) ∧
    float_decimal "60.0" = Some 60%Q ∧
    DEFAULT_TIMEOUT = 60 ∧
    (∀ env,
       let w' := set_environ env w in
       (fst (_request_access_sync self w') = Raised (PermissionTimeoutError 60)
        ↔ event_wait (ar_fired (access_responses w (access_requests w)))
                     (inject_Z 60) = false) ∧
       ((∃ m, fst (get_reminders_sync self None include_completed due_before
                     due_after w') = Raised (TimeoutError m))
        ↔ event_wait
            (fst <$> fetchRemindersMatchingPredicate (event_store w)
                       (calendarItems (event_store w))
                       (fetch_predicate include_completed due_before due_after None))
            (inject_Z 60) = false)).
Proof.
  intros float w self ic db da.
  split; [|split; [|split; [vm_compute; reflexivity|split; [done|]]]].
  - intros H. unfold REQUEST_TIMEOUT. by rewrite H.
  - intros v H. unfold REQUEST_TIMEOUT. by rewrite H.
  - intros env w'. split.
    + unfold _request_access_sync. simpl.
      change (inject_Z DEFAULT_TIMEOUT) with (inject_Z 60).
      destruct (event_wait _ _); simpl; [|done].
      split; [|done]. repeat case_match; discriminate.
    + unfold get_reminders_sync, bind, get_store, ret, raise. simpl.
      change (inject_Z DEFAULT_TIMEOUT) with (inject_Z 60).
      destruct (event_wait _ _); simpl.
      * split; [intros [m H]; discriminate | done].
      * split; [done | eauto].
Qed.

Lemma waits_use_DEFAULT_TIMEOUT_witness :
  REQUEST_TIMEOUT float_decimal slow_world = Some 5%Q ∧
  fst (_request_access_sync {| _access_granted := false |} slow_world)
    ≠ Raised (PermissionTimeoutError 60).
Proof.
  destruct (waits_use_DEFAULT_TIMEOUT float_decimal slow_world
              {| _access_granted := false |} false None None)
    as (_ & Hv & _ & _ & Hw).
  split.
  - rewrite (Hv "5" eq_refl). vm_compute. reflexivity.
  - intros H. apply (Hw (environ slow_world)) in H. vm_compute in H. discriminate.
Defined.

(** ** The access serializer *)

Section SerializerFacts.
Import Serializer.
Context {St Val : Type}.
Implicit Types (s : @System St Val) (t : nat) (fn : @Operation St Val).
Local Open Scope nat_scope.

Lemma grants_app (a b : list Event) : grants (a ++ b) = grants a ++ grants b.
Proof. induction a as [|[]]; simpl; congruence. Qed.

Lemma entries_app (a b : list Event) : entries (a ++ b) = entries a ++ entries b.
Proof. induction a as [|[]]; simpl; congruence. Qed.

Lemma windows_snoc (tr : list Event) e :
  windows (tr ++ [e]) = window_step (windows tr) e.
Proof. unfold windows. by rewrite foldl_app. Qed.

Lemma invariant_initial (st : St) : invariant (@initial St Val st).
Proof.
  split; simpl; try done.
  - exists None. split; [done|]. intros t. split; [done|].
    intros (c & H & _). by rewrite lookup_empty in H.
  - intros t. split; [by intros ?%elem_of_nil|].
    intros (fn & H). by rewrite lookup_empty in H.
  - constructor.
  - exists None. split; [done|]. intros t. split; [done|].
    intros (fn & H). by rewrite lookup_empty in H.
Qed.

(** The holder is the only caller holding the permit. *)
Lemma holder_unique s t1 t2 c1 c2 :
  invariant s →
  callers s !! t1 = Some c1 → holds c1 →
  callers s !! t2 = Some c2 → holds c2 → t1 = t2.
Proof.
  intros [_ (h & _ & Hh) _ _ _ _ _ _] H1 Hc1 H2 Hc2.
  assert (h = Some t1) as E1 by (apply Hh; eauto).
  assert (h = Some t2) as E2 by (apply Hh; eauto).
  congruence.
Qed.

Lemma invariant_call s t fn :
  invariant s → callers s !! t = None → invariant (call t fn s).
Proof.
  intros Hinv Hnone.
  destruct Hinv as [Htok (h & Hb & Hh) Hq Hnd Hlw (o & Hw & Ho) Hoa Hoi].
  assert (Hnh : h ≠ Some t).
  { intros E. apply Hh in E as (c & Hc & _). congruence. }
  assert (Hnq : t ∉ wait_queue (limiter_of s)).
  { intros E. apply Hq in E as (g & Hg). congruence. }
  unfold call, acquire.
  destruct (bool_decide (wait_queue (limiter_of s) = [])
            && (length (borrowers (limiter_of s)) <? total_tokens (limiter_of s)))
    eqn:Hc.
  - apply andb_true_iff in Hc as [Hq0%bool_decide_eq_true Hlt%Nat.ltb_lt].
    rewrite Htok, Hb in Hlt. destruct h as [h|]; simpl in Hlt; [lia|].
    split; unfold limiter_of; simpl; fold (limiter_of s).
    + done.
    + exists (Some t). rewrite Hb. split; [done|]. intros t'. split.
      * intros [= <-]. eexists. by rewrite lookup_insert_eq.
      * intros (c & Hc & Hhold). destruct (decide (t = t')) as [->|Hne]; [done|].
        rewrite lookup_insert_ne in Hc by done.
        assert (None = Some t') by (apply Hh; eauto). done.
    + intros t'. rewrite Hq. split.
      * intros (g & Hg). exists g. rewrite lookup_insert_ne; [done|congruence].
      * intros (g & Hg). exists g.
        destruct (decide (t = t')) as [->|Hne];
          [by rewrite lookup_insert_eq in Hg | by rewrite lookup_insert_ne in Hg].
    + done.
    + intros _. rewrite Hb. done.
    + exists o. rewrite windows_snoc, Hw. split; [by destruct o|].
      intros t'. rewrite Ho. split.
      * intros (g & Hg). exists g. rewrite lookup_insert_ne; [done|congruence].
      * intros (g & Hg). exists g.
        destruct (decide (t = t')) as [->|Hne];
          [by rewrite lookup_insert_eq in Hg | by rewrite lookup_insert_ne in Hg].
    + intros t' g Hg. rewrite grants_app, entries_app. simpl. rewrite app_nil_r.
      rewrite Hoi.
      * destruct (decide (t = t')) as [->|Hne]; [done|].
        rewrite lookup_insert_ne in Hg by done.
        assert (None = Some t') by (apply Hh; eexists; split; [exact Hg|done]).
        done.
      * intros t'' g' Hg'.
        assert (None = Some t'') by (apply Hh; eexists; split; [exact Hg'|done]).
        done.
    + intros Hno. exfalso. apply (Hno t fn). by rewrite lookup_insert_eq.
  - split; unfold limiter_of; simpl; fold (limiter_of s).
    + done.
    + exists h. split; [done|]. intros t'. rewrite Hh. split.
      * intros (c & Hc' & Hhold). exists c. rewrite lookup_insert_ne; [done|congruence].
      * intros (c & Hc' & Hhold). exists c.
        destruct (decide (t = t')) as [->|Hne].
        -- rewrite lookup_insert_eq in Hc'. by injection Hc' as <-.
        -- by rewrite lookup_insert_ne in Hc'.
    + intros t'. rewrite elem_of_app, list_elem_of_singleton, Hq. split.
      * intros [(g & Hg) | ->].
        -- exists g. rewrite lookup_insert_ne; [done|congruence].
        -- exists fn. by rewrite lookup_insert_eq.
      * intros (g & Hg). destruct (decide (t = t')) as [->|Hne]; [by right|].
        left. exists g. by rewrite lookup_insert_ne in Hg.
    + apply NoDup_app. split; [done|]. split; [|apply NoDup_singleton].
      intros x Hx ->%list_elem_of_singleton. done.
    + intros _ Hb0. apply andb_false_iff in Hc as [Hc|Hc].
      * apply bool_decide_eq_false in Hc. by apply Hlw.
      * apply Nat.ltb_ge in Hc. rewrite Hb0, Htok in Hc. simpl in Hc. lia.
    + exists o. split; [done|]. intros t'. rewrite Ho. split.
      * intros (g & Hg). exists g. rewrite lookup_insert_ne; [done|congruence].
      * intros (g & Hg). exists g.
        destruct (decide (t = t')) as [->|Hne];
          [by rewrite lookup_insert_eq in Hg | by rewrite lookup_insert_ne in Hg].
    + intros t' g Hg. apply (Hoa t' g).
      destruct (decide (t = t')) as [->|Hne];
        [by rewrite lookup_insert_eq in Hg | by rewrite lookup_insert_ne in Hg].
    + intros Hno. apply Hoi. intros t' g Hg. apply (Hno t' g).
      rewrite lookup_insert_ne; [done|congruence].
Qed.

(** A step that rewrites the entry of a caller holding the permit with
    another entry holding it keeps the holder. *)
Lemma holder_insert s t c c' (h : option nat) :
  callers s !! t = Some c → holds c → holds c' →
  (∀ t', h = Some t' ↔ ∃ c0, callers s !! t' = Some c0 ∧ holds c0) →
  ∀ t', h = Some t' ↔ ∃ c0, <[t := c']> (callers s) !! t' = Some c0 ∧ holds c0.
Proof.
  intros Ht Hc Hc' Hh t'. rewrite Hh. split.
  - intros (c0 & H0 & Hhold). destruct (decide (t = t')) as [->|Hne].
    + exists c'. by rewrite lookup_insert_eq.
    + exists c0. by rewrite lookup_insert_ne.
  - intros (c0 & H0 & Hhold). destruct (decide (t = t')) as [->|Hne].
    + eauto.
    + rewrite lookup_insert_ne in H0 by done. eauto.
Qed.

(** Such a step keeps the queued callers as they are. *)
Lemma queued_insert s t c c' (q : list nat) :
  callers s !! t = Some c → holds c → holds c' →
  (∀ t', t' ∈ q ↔ ∃ fn, callers s !! t' = Some (Queued fn)) →
  ∀ t', t' ∈ q ↔ ∃ fn, <[t := c']> (callers s) !! t' = Some (Queued fn).
Proof.
  intros Ht Hc Hc' Hq t'. rewrite Hq. split.
  - intros (g & Hg). exists g. rewrite lookup_insert_ne; [done|].
    intros ->. rewrite Ht in Hg. injection Hg as ->. exact Hc.
  - intros (g & Hg). exists g. destruct (decide (t = t')) as [->|Hne].
    + rewrite lookup_insert_eq in Hg. injection Hg as ->. exfalso. exact Hc'.
    + by rewrite lookup_insert_ne in Hg.
Qed.

Lemma invariant_dispatch s t fn :
  invariant s → callers s !! t = Some (Holding fn) →
  invariant (dispatch t fn s).
Proof.
  intros Hinv Ht.
  pose proof (holder_unique s t) as Huniq.
  destruct Hinv as [Htok (h & Hb & Hh) Hq Hnd Hlw (o & Hw & Ho) Hoa Hoi].
  assert (Hnone : o = None).
  { destruct o as [t'|]; [|done]. destruct (proj1 (Ho t') eq_refl) as (g & Hg).
    assert (t = t') as <-; [|congruence].
    eapply Huniq; [split; eauto | exact Ht | done | exact Hg | done]. }
  split; unfold limiter_of; simpl; fold (limiter_of s).
  - done.
  - exists h. split; [done|]. by eapply holder_insert.
  - by eapply queued_insert.
  - done.
  - done.
  - exists (Some t). rewrite windows_snoc, Hw, Hnone. split; [done|].
    intros t'. split.
    + intros [= <-]. exists fn. by rewrite lookup_insert_eq.
    + intros (g & Hg). destruct (decide (t = t')) as [->|Hne]; [done|].
      rewrite lookup_insert_ne in Hg by done.
      assert (o = Some t') by (apply Ho; eauto). congruence.
  - intros t' g Hg. exfalso. destruct (decide (t = t')) as [->|Hne].
    + by rewrite lookup_insert_eq in Hg.
    + rewrite lookup_insert_ne in Hg by done. apply Hne.
      eapply Huniq; [split; eauto | exact Ht | done | exact Hg | done].
  - intros _. rewrite grants_app, entries_app. simpl. rewrite app_nil_r.
    by eapply Hoa.
Qed.

Lemma invariant_complete s t fn :
  invariant s → callers s !! t = Some (InThread fn) →
  invariant (complete t fn s).
Proof.
  intros Hinv Ht.
  pose proof (holder_unique s t) as Huniq.
  destruct Hinv as [Htok (h & Hb & Hh) Hq Hnd Hlw (o & Hw & Ho) Hoa Hoi].
  assert (Hopen : o = Some t) by (apply Ho; eauto).
  assert (Hidle : ∀ t' g, callers s !! t' ≠ Some (Holding g)).
  { intros t' g Hg. assert (t = t') as <-; [|congruence].
    eapply Huniq; [split; eauto | exact Ht | done | exact Hg | done]. }
  split; unfold limiter_of; simpl; fold (limiter_of s).
  - done.
  - exists h. split; [done|]. by eapply holder_insert.
  - by eapply queued_insert.
  - done.
  - done.
  - exists None. rewrite windows_snoc, Hw, Hopen. simpl.
    rewrite decide_True by done. split; [done|].
    intros t'. split; [done|]. intros (g & Hg). exfalso.
    destruct (decide (t = t')) as [->|Hne].
    + by rewrite lookup_insert_eq in Hg.
    + rewrite lookup_insert_ne in Hg by done. apply Hne.
      eapply Huniq; [split; eauto | exact Ht | done | exact Hg | done].
  - intros t' g Hg. exfalso. destruct (decide (t = t')) as [->|Hne].
    + by rewrite lookup_insert_eq in Hg.
    + rewrite lookup_insert_ne in Hg by done. by eapply Hidle.
  - intros _. rewrite grants_app, entries_app. simpl. rewrite !app_nil_r.
    by apply Hoi.
Qed.

(** What [leave] does to a state satisfying the invariant: with an empty
    queue the permit becomes free; otherwise it goes to the first waiter. *)
Lemma leave_unfold s t outcome :
  invariant s → callers s !! t = Some (Leaving outcome) →
  borrowers (limiter_of s) = [t] ∧
  match wait_queue (limiter_of s) with
  | [] =>
      leave t outcome s =
      {| _limiter := Some {| total_tokens := 1; borrowers := []; wait_queue := [] |};
         callers := <[t := Finished outcome]> (callers s);
         native := native s; trace := trace s |}
  | next :: rest =>
      ∃ fn, callers s !! next = Some (Queued fn) ∧ next ≠ t ∧
      leave t outcome s =
      {| _limiter := Some {| total_tokens := 1; borrowers := [next];
                             wait_queue := rest |};
         callers := <[next := Holding fn]> (<[t := Finished outcome]> (callers s));
         native := native s; trace := trace s ++ [Granted next] |}
  end.
Proof.
  intros [Htok (h & Hb & Hh) Hq Hnd Hlw _ _ _] Ht.
  assert (h = Some t) as -> by (apply Hh; eexists; split; [exact Ht|done]).
  simpl in Hb. split; [done|].
  unfold leave, release. rewrite Hb, Htok.
  rewrite filter_cons, decide_False, filter_nil by (intros H; by apply H).
  destruct (wait_queue (limiter_of s)) as [|next rest] eqn:Eq; [done|].
  destruct (proj1 (Hq next)) as (fn & Hfn); [by left|].
  assert (next ≠ t) as Hne by (intros ->; congruence).
  exists fn. split; [done|]. split; [done|]. simpl.
  unfold wake. rewrite lookup_insert_ne by done. by rewrite Hfn.
Qed.

Lemma invariant_leave s t outcome :
  invariant s → callers s !! t = Some (Leaving outcome) →
  invariant (leave t outcome s).
Proof.
  intros Hinv Ht.
  pose proof (holder_unique s t) as Huniq.
  pose proof (leave_unfold s t outcome Hinv Ht) as [Hb Hl].
  assert (Hsole : ∀ t' c, t' ≠ t → callers s !! t' = Some c → ¬ holds c).
  { intros t' c Hne Hc Hhold. apply Hne. symmetry.
    eapply Huniq; [exact Hinv | exact Ht | done | exact Hc | done]. }
  destruct Hinv as [Htok (h & _ & Hh) Hq Hnd Hlw (o & Hw & Ho) Hoa Hoi].
  assert (Hidle : ∀ t' g, callers s !! t' ≠ Some (Holding g)).
  { intros t' g Hg. destruct (decide (t' = t)) as [->|Hne]; [congruence|].
    by apply (Hsole t' _ Hne Hg). }
  assert (Hnone : o = None).
  { destruct o as [t'|]; [|done]. destruct (proj1 (Ho t') eq_refl) as (g & Hg).
    destruct (decide (t' = t)) as [->|Hne]; [congruence|].
    by destruct (Hsole t' _ Hne Hg). }
  destruct (wait_queue (limiter_of s)) as [|next rest] eqn:Eq.
  - rewrite Hl. split; unfold limiter_of; simpl.
    + done.
    + exists None. split; [done|]. intros t'. split; [done|].
      intros (c & Hc & Hhold). exfalso.
      destruct (decide (t = t')) as [->|Hne].
      * rewrite lookup_insert_eq in Hc. injection Hc as <-. exact Hhold.
      * rewrite lookup_insert_ne in Hc by done. by apply (Hsole t' c).
    + intros t'. split; [by intros ?%elem_of_nil|]. intros (g & Hg). exfalso.
      destruct (decide (t = t')) as [->|Hne].
      * by rewrite lookup_insert_eq in Hg.
      * rewrite lookup_insert_ne in Hg by done.
        assert (t' ∈ []) by (apply Hq; eauto). by eapply elem_of_nil.
    + constructor.
    + done.
    + exists o. split; [done|]. subst o. intros t'. split; [done|].
      intros (g & Hg). exfalso. destruct (decide (t = t')) as [->|Hne].
      * by rewrite lookup_insert_eq in Hg.
      * rewrite lookup_insert_ne in Hg by done. by apply (Hsole t' _ (not_eq_sym Hne) Hg).
    + intros t' g Hg. exfalso. destruct (decide (t = t')) as [->|Hne].
      * by rewrite lookup_insert_eq in Hg.
      * rewrite lookup_insert_ne in Hg by done. by eapply Hidle.
    + intros _. by apply Hoi.
  - destruct Hl as (fn & Hfn & Hne & ->).
    apply NoDup_cons in Hnd as [Hnin Hnd].
    split; unfold limiter_of; simpl.
    + done.
    + exists (Some next). split; [done|]. intros t'. split.
      * intros [= <-]. exists (Holding fn). by rewrite lookup_insert_eq.
      * intros (c & Hc & Hhold). destruct (decide (next = t')) as [->|Hn]; [done|].
        exfalso. rewrite lookup_insert_ne in Hc by done.
        destruct (decide (t = t')) as [->|Hn'].
        -- rewrite lookup_insert_eq in Hc. injection Hc as <-. exact Hhold.
        -- rewrite lookup_insert_ne in Hc by done. by apply (Hsole t' c).
    + intros t'. split.
      * intros Hin. destruct (proj1 (Hq t')) as (g & Hg); [by right|].
        exists g. rewrite !lookup_insert_ne; [done|congruence|congruence].
      * intros (g & Hg). destruct (decide (next = t')) as [->|Hn].
        { by rewrite lookup_insert_eq in Hg. }
        rewrite lookup_insert_ne in Hg by done.
        destruct (decide (t = t')) as [->|Hn'].
        { by rewrite lookup_insert_eq in Hg. }
        rewrite lookup_insert_ne in Hg by done.
        assert (t' ∈ next :: rest) as Hin by (apply Hq; eauto).
        apply elem_of_cons in Hin as [->|Hin]; done.
    + done.
    + done.
    + exists o. rewrite windows_snoc, Hw. subst o. split; [done|].
      intros t'. split; [done|]. intros (g & Hg). exfalso.
      destruct (decide (next = t')) as [->|Hn].
      { by rewrite lookup_insert_eq in Hg. }
      rewrite lookup_insert_ne in Hg by done.
      destruct (decide (t = t')) as [->|Hn'].
      { by rewrite lookup_insert_eq in Hg. }
      rewrite lookup_insert_ne in Hg by done.
      by apply (Hsole t' _ (not_eq_sym Hn') Hg).
    + intros t' g Hg. rewrite grants_app, entries_app. simpl. rewrite app_nil_r.
      rewrite (Hoi Hidle).
      destruct (decide (next = t')) as [->|Hn]; [done|]. exfalso.
      rewrite lookup_insert_ne in Hg by done.
      destruct (decide (t = t')) as [->|Hn'].
      { by rewrite lookup_insert_eq in Hg. }
      rewrite lookup_insert_ne in Hg by done. by eapply Hidle.
    + intros Hno. exfalso. apply (Hno next fn). by rewrite lookup_insert_eq.
Qed.

Lemma invariant_step s s' : invariant s → step s s' → invariant s'.
Proof.
  intros Hinv Hstep. destruct Hstep.
  - by apply invariant_call.
  - by apply invariant_dispatch.
  - by apply invariant_complete.
  - by apply invariant_leave.
Qed.

Lemma invariant_rtc s s' : invariant s → rtc step s s' → invariant s'.
Proof. intros Hinv Hrtc. induction Hrtc; eauto using invariant_step. Qed.

Lemma reachable_invariant s : reachable s → invariant s.
Proof.
  intros [st Hrtc]. eapply invariant_rtc; [apply invariant_initial | done].
Qed.

Lemma reachable_rtc s s' : reachable s → rtc step s s' → reachable s'.
Proof. intros [st H] H'. exists st. by etrans. Qed.
End SerializerFacts.

Section SerializerProgress.
Import Serializer.
Local Open Scope nat_scope.
Context {St Val : Type}.
Implicit Types (s : @System St Val) (t : nat) (fn : @Operation St Val).

(** From a state whose holder is about to leave, one step hands the permit
    to the first waiter and leaves the other waiters queued. *)
Lemma progress_leaving s b outcome next rest :
  invariant s → callers s !! b = Some (Leaving outcome) →
  wait_queue (limiter_of s) = next :: rest →
  ∃ s', rtc step s s' ∧ wait_queue (limiter_of s') = rest ∧
        (∀ fn, callers s !! next = Some (Queued fn) →
               callers s' !! next = Some (Holding fn)) ∧
        (∀ t fn, t ≠ next → callers s !! t = Some (Queued fn) →
                 callers s' !! t = Some (Queued fn)).
Proof.
  intros Hinv Hb Eq.
  pose proof (leave_unfold s b outcome Hinv Hb) as [_ Hl]. rewrite Eq in Hl.
  destruct Hl as (g & Hg & Hne & Hl).
  exists (leave b outcome s). split; [apply rtc_once; by constructor|].
  rewrite Hl. unfold limiter_of. simpl. split; [done|]. split.
  - intros fn Hfn. rewrite lookup_insert_eq. congruence.
  - intros t fn Ht Hfn. rewrite !lookup_insert_ne; [done| |done].
    intros ->. congruence.
Qed.

Lemma progress_inthread s b fn0 next rest :
  invariant s → callers s !! b = Some (InThread fn0) →
  wait_queue (limiter_of s) = next :: rest →
  ∃ s', rtc step s s' ∧ wait_queue (limiter_of s') = rest ∧
        (∀ fn, callers s !! next = Some (Queued fn) →
               callers s' !! next = Some (Holding fn)) ∧
        (∀ t fn, t ≠ next → callers s !! t = Some (Queued fn) →
                 callers s' !! t = Some (Queued fn)).
Proof.
  intros Hinv Hb Eq.
  pose proof (invariant_complete s b fn0 Hinv Hb) as Hinv1.
  destruct (progress_leaving (complete b fn0 s) b (fst (fn0 (native s))) next rest)
    as (s' & Hrtc & Hq & Hn & Ho); [done | by simpl; rewrite lookup_insert_eq | done |].
  exists s'. split; [eapply rtc_l; [by constructor | done]|].
  split; [done|]. split.
  - intros fn Hfn. apply Hn. simpl. rewrite lookup_insert_ne; [done|].
    intros ->. congruence.
  - intros t fn Ht Hfn. apply Ho; [done|]. simpl.
    rewrite lookup_insert_ne; [done|]. intros ->. congruence.
Qed.

Lemma progress_holding s b fn0 next rest :
  invariant s → callers s !! b = Some (Holding fn0) →
  wait_queue (limiter_of s) = next :: rest →
  ∃ s', rtc step s s' ∧ wait_queue (limiter_of s') = rest ∧
        (∀ fn, callers s !! next = Some (Queued fn) →
               callers s' !! next = Some (Holding fn)) ∧
        (∀ t fn, t ≠ next → callers s !! t = Some (Queued fn) →
                 callers s' !! t = Some (Queued fn)).
Proof.
  intros Hinv Hb Eq.
  pose proof (invariant_dispatch s b fn0 Hinv Hb) as Hinv1.
  destruct (progress_inthread (dispatch b fn0 s) b fn0 next rest)
    as (s' & Hrtc & Hq & Hn & Ho); [done | by simpl; rewrite lookup_insert_eq | done |].
  exists s'. split; [eapply rtc_l; [by constructor | done]|].
  split; [done|]. split.
  - intros fn Hfn. apply Hn. simpl. rewrite lookup_insert_ne; [done|].
    intros ->. congruence.
  - intros t fn Ht Hfn. apply Ho; [done|]. simpl.
    rewrite lookup_insert_ne; [done|]. intros ->. congruence.
Qed.

(** Whoever holds the permit, it reaches the first waiter. *)
Lemma progress_head s next rest :
  invariant s → wait_queue (limiter_of s) = next :: rest →
  ∃ s', rtc step s s' ∧ wait_queue (limiter_of s') = rest ∧
        (∀ fn, callers s !! next = Some (Queued fn) →
               callers s' !! next = Some (Holding fn)) ∧
        (∀ t fn, t ≠ next → callers s !! t = Some (Queued fn) →
                 callers s' !! t = Some (Queued fn)).
Proof.
  intros Hinv Eq.
  pose proof Hinv as [_ (h & Hb & Hh) _ _ Hlw _ _ _].
  destruct h as [b|]; [|exfalso; apply Hlw; [by rewrite Eq | done]].
  destruct (proj1 (Hh b) eq_refl) as (c & Hc & Hhold).
  destruct c; try done.
  - by eapply progress_holding.
  - by eapply progress_inthread.
  - by eapply progress_leaving.
Qed.

Lemma queued_served_at (n : nat) :
  ∀ s t fn, invariant s → wait_queue (limiter_of s) !! n = Some t →
            callers s !! t = Some (Queued fn) →
            ∃ s', rtc step s s' ∧ callers s' !! t = Some (Holding fn).
Proof.
  induction n as [|n IH]; intros s t fn Hinv Hn Ht.
  - destruct (wait_queue (limiter_of s)) as [|next rest] eqn:Eq; [done|].
    injection Hn as ->.
    destruct (progress_head s t rest Hinv Eq) as (s' & Hrtc & _ & Hadm & _).
    exists s'. auto.
  - destruct (wait_queue (limiter_of s)) as [|next rest] eqn:Eq; [done|].
    simpl in Hn.
    assert (t ≠ next) as Hne.
    { intros ->. pose proof (inv_queue_NoDup s Hinv) as Hnd. rewrite Eq in Hnd.
      apply NoDup_cons in Hnd as [Hnin _]. apply Hnin.
      by eapply list_elem_of_lookup_2. }
    destruct (progress_head s next rest Hinv Eq) as (s' & Hrtc & Hq & _ & Hkeep).
    destruct (IH s' t fn) as (s'' & Hrtc' & Hadm).
    + by eapply invariant_rtc.
    + by rewrite Hq.
    + by apply Hkeep.
    + exists s''. split; [by etrans | done].
Qed.

Lemma queued_served s t fn :
  invariant s → callers s !! t = Some (Queued fn) →
  ∃ s', rtc step s s' ∧ callers s' !! t = Some (Holding fn).
Proof.
  intros Hinv Ht.
  assert (t ∈ wait_queue (limiter_of s)) as Hin by (apply Hinv; eauto).
  apply list_elem_of_lookup in Hin as [n Hn].
  by eapply queued_served_at.
Qed.
End SerializerProgress.

Section SerializerTheorems.
Import Serializer.
Local Open Scope nat_scope.

Lemma entries_prefix_grants {St Val} (s : @System St Val) :
  invariant s → entries (trace s) `prefix_of` grants (trace s).
Proof.
  intros Hinv.
  pose proof (holder_unique s) as Huniq.
  pose proof Hinv as [_ (h & _ & Hh) _ _ _ _ Hoa Hoi].
  assert (Hcases : (∃ t fn, callers s !! t = Some (Holding fn)) ∨
                   (∀ t fn, callers s !! t ≠ Some (Holding fn))).
  { destruct h as [b|].
    - destruct (proj1 (Hh b) eq_refl) as (c & Hc & Hhold).
      destruct c as [g|g|g|o|o]; try done; [left; eauto| |]; right; intros t fn Ht;
        (assert (b = t) as <- by (eapply Huniq; [done | exact Hc | done | exact Ht | done]));
        congruence.
    - right. intros t fn Ht.
      assert (None = Some t) by (apply Hh; eexists; split; [exact Ht|done]). done. }
  destruct Hcases as [(t & fn & Ht) | Hno].
  - rewrite (Hoa t fn Ht). by apply prefix_app_r.
  - by rewrite (Hoi Hno).
Qed.


Lemma demo_system_reachable : reachable demo_system.
Proof.
  exists 0%nat. unfold demo_system.
  eapply rtc_l; [apply (step_call 1 demo_increment); reflexivity|].
  eapply rtc_l; [apply (step_dispatch 1 demo_increment); reflexivity|].
  eapply rtc_l; [apply (step_call 2 demo_failing); reflexivity|].
  eapply rtc_l; [apply (step_call 3 demo_read); reflexivity|].
  apply rtc_refl.
Defined.


(** A caller that finds the permit free goes through [run_eventkit] in four
    steps and gets the outcome of [fn] on the store; the store is what [fn]
    left and the permit is free again. This is the reading of
    [run_eventkit] the tool handlers are modelled with. *)
Lemma run_eventkit_alone {St Val} (s : @System St Val) t fn :
  reachable s → callers s !! t = None → borrowers (limiter_of s) = [] →
  let s' := leave t (fst (fn (native s)))
              (complete t fn (dispatch t fn (call t fn s))) in
  rtc step s s' ∧
  callers s' !! t = Some (Finished (fst (fn (native s)))) ∧
  native s' = snd (fn (native s)) ∧
  borrowers (limiter_of s') = [].
Proof.
  intros Hreach Ht Hb s'. apply reachable_invariant in Hreach as Hinv.
  pose proof Hinv as [Htok _ _ _ Hlw _ _ _].
  assert (wait_queue (limiter_of s) = []) as Hq.
  { destruct (wait_queue (limiter_of s)); [done|]. by destruct Hlw. }
  assert (H1 : callers (call t fn s) !! t = Some (Holding fn)).
  { unfold call, acquire. rewrite Hq, Hb, Htok. simpl. by rewrite lookup_insert_eq. }
  assert (Hl1 : limiter_of (call t fn s)
                = {| total_tokens := 1; borrowers := [t]; wait_queue := [] |}).
  { unfold call, acquire. rewrite Hq, Hb, Htok. reflexivity. }
  assert (Hn1 : native (call t fn s) = native s).
  { unfold call. by destruct (acquire t (limiter_of s)) as [l []]. }
  set (s1 := call t fn s) in *.
  set (s2 := dispatch t fn s1).
  assert (H2 : callers s2 !! t = Some (InThread fn))
    by (simpl; by rewrite lookup_insert_eq).
  set (s3 := complete t fn s2).
  assert (H3 : callers s3 !! t = Some (Leaving (fst (fn (native s))))).
  { cbn [s3 s2 complete dispatch callers native].
    rewrite lookup_insert_eq. by rewrite Hn1. }
  split; [|split; [|split]].
  - eapply rtc_l; [by apply (step_call t fn)|].
    eapply rtc_l; [by apply (step_dispatch t fn)|].
    eapply rtc_l; [by apply (step_complete t fn)|].
    apply rtc_once. apply (step_leave t). exact H3.
  - subst s'. unfold leave.
    change (limiter_of (complete t fn (dispatch t fn s1))) with (limiter_of s1).
    rewrite Hl1. unfold release. cbn [borrowers wait_queue total_tokens].
    rewrite filter_cons, decide_False, filter_nil by (intros H; by apply H).
    simpl. by rewrite lookup_insert_eq.
  - subst s'. unfold leave.
    destruct (release t _) as [l n]. simpl. by rewrite Hn1.
  - subst s'. unfold leave.
    change (limiter_of (complete t fn (dispatch t fn s1))) with (limiter_of s1).
    rewrite Hl1. unfold release. cbn [borrowers wait_queue total_tokens].
    rewrite filter_cons, decide_False, filter_nil by (intros H; by apply H).
    reflexivity.
Qed.


End SerializerTheorems.

(** * Further properties

    ** Pagination *)

Lemma slice_bound_nonneg n i : 0 ≤ i → slice_bound n i = Nat.min (Z.to_nat i) n.
Proof. intros H. unfold slice_bound. by rewrite (proj2 (Z.ltb_ge i 0)). Qed.

Lemma slice_bound_neg n i :
  i < 0 → slice_bound n i = (n - Z.to_nat (- i))%nat.
Proof.
  intros H. unfold slice_bound. rewrite (proj2 (Z.ltb_lt i 0)) by done. lia.
Qed.

Lemma drop_min {A} (l : list A) n : drop (Nat.min n (length l)) l = drop n l.
Proof.
  destruct (decide (n ≤ length l)%nat) as [H|H].
  - by rewrite Nat.min_l.
  - rewrite Nat.min_r by lia. by rewrite !drop_ge by lia.
Qed.

Lemma take_min {A} (l : list A) n : take (Nat.min n (length l)) l = take n l.
Proof.
  destruct (decide (n ≤ length l)%nat) as [H|H].
  - by rewrite Nat.min_l.
  - rewrite Nat.min_r by lia. by rewrite !take_ge by lia.
Qed.

Lemma _paginate_offset_only {A} (items : list A) offset :
  0 ≤ offset → _paginate items offset None = drop (Z.to_nat offset) items.
Proof.
  intros H. unfold _paginate. destruct (offset =? 0) eqn:E.
  - apply Z.eqb_eq in E as ->. done.
  - unfold slice_from. by rewrite slice_bound_nonneg, drop_min.
Qed.

Lemma _paginate_offset_limit {A} (items : list A) offset limit :
  0 ≤ offset → 0 ≤ limit →
  _paginate items offset (Some limit)
    = take (Z.to_nat limit) (drop (Z.to_nat offset) items).
Proof.
  intros Ho Hl. pose proof (_paginate_offset_only items offset Ho) as H.
  unfold _paginate in *. rewrite H. unfold slice_to.
  by rewrite slice_bound_nonneg, take_min.
Qed.



(** X2. Pages follow one another without gap or overlap: the page at
    [offset] of [limit] items, followed by everything from [offset + limit]
    on, is everything from [offset] on. *)
Theorem _paginate_pages_concat :
  ∀ (A : Type) (items : list A) (offset limit : Z),
    0 ≤ offset → 0 ≤ limit →
    _paginate items offset (Some limit) ++ _paginate items (offset + limit) None
      = _paginate items offset None.
Proof.
  intros A items offset limit Ho Hl.
  rewrite _paginate_offset_limit by done.
  rewrite !_paginate_offset_only by lia.
  rewrite Z2Nat.inj_add by lia.
  rewrite <- drop_drop. apply take_drop.
Qed.

Lemma _paginate_pages_concat_witness :
  _paginate [1; 2; 3; 4; 5] 2 (Some 2) ++ _paginate [1; 2; 3; 4; 5] 4 None
    = [3; 4; 5].
Proof.
  assert (H0 : 0 ≤ 2) by lia.
  exact (_paginate_pages_concat Z [1; 2; 3; 4; 5] 2 2 H0 H0).
Defined.

(** X3. Negative arguments are not rejected: they count from the end, as
    Python slices do. A negative offset keeps the last [-offset] items (all
    of them when the list is shorter); a negative limit drops the last
    [-limit] items. *)
Theorem _paginate_negative :
  ∀ (A : Type) (items : list A) (n : Z),
    n < 0 →
    _paginate items n None
      = drop (length items - Z.to_nat (- n)) items ∧
    length (_paginate items n None) = Nat.min (Z.to_nat (- n)) (length items) ∧
    _paginate items 0 (Some n)
      = take (length items - Z.to_nat (- n)) items.
Proof.
  intros A items n Hn. unfold _paginate.
  rewrite (proj2 (Z.eqb_neq n 0)) by lia. simpl.
  unfold slice_from, slice_to. rewrite slice_bound_neg by done.
  split; [done|]. split; [|done]. rewrite length_drop. lia.
Qed.

Lemma _paginate_negative_witness :
  _paginate ["a"; "b"; "c"; "d"; "e"] (-2) None = ["d"; "e"] ∧
  _paginate ["a"; "b"; "c"; "d"; "e"] 0 (Some (-2)) = ["a"; "b"; "c"].
Proof.
  destruct (_paginate_negative string ["a"; "b"; "c"; "d"; "e"] (-2))
    as (H1 & _ & H2); [lia|].
  split; [rewrite H1; reflexivity | rewrite H2; reflexivity].
Defined.

(** ** Converters *)

Lemma components_read_back (dt : datetime) :
  datetime_valid dt →
  components_to_datetime (Some (datetime_to_components dt)) = Some dt.
Proof.
  destruct dt as [y mo d h mi s]. intros (Hy & Hmo & Hd & Hh & Hmi & Hs).
  simpl in *.
  unfold components_to_datetime, datetime_to_components, NSUndefinedDateComponent.
  simpl.
  rewrite (proj2 (Z.eqb_neq y _)), (proj2 (Z.eqb_neq mo _)),
    (proj2 (Z.eqb_neq d _)), (proj2 (Z.eqb_neq h _)),
    (proj2 (Z.eqb_neq mi _)), (proj2 (Z.eqb_neq s _)) by lia.
  reflexivity.
Qed.



Lemma extract_skips_time_alarms (pre rest : list EKAlarm) :
  Forall (λ a, structuredLocation a = None) pre →
  extract_location_from_alarms (pre ++ rest) = extract_location_from_alarms rest.
Proof.
  induction 1 as [|a pre Ha _ IH]; [done|]. simpl. by rewrite Ha.
Qed.

Lemma extract_location_trigger (l : LocationTrigger) (rest : list EKAlarm) :
  LocationTrigger_of <$>
    extract_location_from_alarms (location_trigger_to_ek_alarm l :: rest)
  = Some (location_read_back l).
Proof.
  destruct l as [title lat lon rad prox]. unfold location_read_back. simpl.
  destruct prox; simpl; unfold LocationTrigger_of; simpl;
    destruct title; simpl; reflexivity.
Qed.

Lemma validate_radius_positive (v : Q) :
  validate_radius v = Some v → (0 < v)%Q ∧ (v <= 10000)%Q.
Proof.
  unfold validate_radius. destruct (Qle_bool v 0) eqn:E0; [done|].
  destruct (Qle_bool v 10000) eqn:E1; [|done]. intros _.
  split; [|by apply Qle_bool_iff].
  apply Qnot_le_lt. intros H%Qle_bool_iff. congruence.
Qed.

(** X5. A location trigger with a title and a radius its validator accepts
    survives the trip to an alarm and back: reading the location of a
    reminder whose alarms are time alarms followed by the trigger's alarm
    gives the trigger again. *)
Theorem location_alarm_round_trip :
  ∀ (l : LocationTrigger) (time_alarms later : list EKAlarm),
    lt_title l ≠ EmptyString →
    validate_radius (lt_radius l) = Some (lt_radius l) →
    Forall (λ a, structuredLocation a = None) time_alarms →
    LocationTrigger_of <$>
      extract_location_from_alarms
        (time_alarms ++ location_trigger_to_ek_alarm l :: later)
    = Some l.
Proof.
  intros l pre later Ht Hr Hpre.
  rewrite extract_skips_time_alarms by done.
  rewrite extract_location_trigger. f_equal.
  apply validate_radius_positive in Hr as [Hpos _].
  destruct l as [title lat lon rad prox]. unfold location_read_back. simpl in *.
  rewrite decide_False by done.
  destruct (Qlt_le_dec 0 rad) as [_|Hle]; [done|].
  exfalso. by eapply Qlt_not_le.
Qed.

Lemma location_alarm_round_trip_witness :
  LocationTrigger_of <$>
    extract_location_from_alarms
      ([demo_time_alarm] ++ location_trigger_to_ek_alarm demo_location :: [])
  = Some demo_location.
Proof.
  apply location_alarm_round_trip.
  - discriminate.
  - reflexivity.
  - repeat constructor.
Defined.

(** *** Colours *)

Lemma int_of_float_channel (c : Q) :
  (0 <= c)%Q → (c <= 1)%Q → 0 ≤ int_of_float (c * 255)%Q ≤ 255.
Proof.
  destruct c as [n d]. unfold Qle, int_of_float. simpl.
  intros H0 H1. rewrite Z.mul_1_r in H0, H1. rewrite Pos.mul_1_r.
  split.
  - apply Z.quot_pos; lia.
  - apply Z.quot_le_upper_bound; lia.
Qed.

Lemma format_02X_byte (n : Z) :
  0 ≤ n ≤ 255 → two_upper_hex (format_02X n) = true.
Proof.
  intros H.
  assert (Hall : forallb (λ k, two_upper_hex (format_02X (Z.of_nat k)))
                         (seq 0 256) = true) by (vm_compute; reflexivity).
  rewrite forallb_forall in Hall.
  specialize (Hall (Z.to_nat n)). rewrite Z2Nat.id in Hall by lia.
  apply Hall. apply in_seq. lia.
Qed.

Lemma hex_color_of_bytes (a b c : string) :
  two_upper_hex a = true → two_upper_hex b = true → two_upper_hex c = true →
  is_hex_color ("#" +:+ a +:+ b +:+ c) = true.
Proof.
  destruct a as [|a1 [|a2 [|]]]; try done.
  destruct b as [|b1 [|b2 [|]]]; try done.
  destruct c as [|c1 [|c2 [|]]]; try done.
  simpl. intros Ha Hb Hc.
  apply andb_true_iff in Ha as [-> ->], Hb as [-> ->], Hc as [-> ->]. done.
Qed.

(** X6. For a colour whose components lie between 0 and 1, RGB (three
    components or more) or grey (two), [cgcolor_to_hex] returns a string of
    the form [#RRGGBB] in upper-case hexadecimal; with fewer than two
    components, or no colour, it returns [None]. *)
Theorem cgcolor_to_hex_well_formed :
  ∀ components : list Q,
    Forall (λ c, (0 <= c)%Q ∧ (c <= 1)%Q) components →
    match cgcolor_to_hex (Some components) with
    | Some s => (2 ≤ length components)%nat ∧ is_hex_color s = true
    | None => (length components < 2)%nat
    end.
Proof.
  intros components Hall. unfold cgcolor_to_hex.
  destruct components as [|c0 [|c1 [|c2 rest]]]; simpl; [lia | lia | |].
  - apply Forall_cons in Hall as [[H0 H1] _]. split; [lia|].
    pose proof (format_02X_byte _ (int_of_float_channel c0 H0 H1)).
    by apply hex_color_of_bytes.
  - apply Forall_cons in Hall as [[H0 H1] Hall].
    apply Forall_cons in Hall as [[H2 H3] Hall].
    apply Forall_cons in Hall as [[H4 H5] _]. split; [lia|].
    apply hex_color_of_bytes; apply format_02X_byte;
      by apply int_of_float_channel.
Qed.

Lemma cgcolor_to_hex_well_formed_witness :
  cgcolor_to_hex (Some [1%Q; (1 # 2)%Q; 0%Q; 1%Q]) = Some "#FF7F00" ∧
  is_hex_color "#FF7F00" = true.
Proof.
  pose proof (cgcolor_to_hex_well_formed [1%Q; (1 # 2)%Q; 0%Q; 1%Q]) as H.
  assert (E : cgcolor_to_hex (Some [1%Q; (1 # 2)%Q; 0%Q; 1%Q]) = Some "#FF7F00")
    by (vm_compute; reflexivity).
  rewrite E in H. split; [reflexivity|]. apply H.
  repeat constructor; unfold Qle; simpl; lia.
Defined.

(** ** Looking a reminder up *)

Lemma list_find_local_from (i : string) (items : list EKCalendarItem) n :
  prod_map (λ k, n + k)%nat id <$> list_find (λ it, item_identifier it = i) items
  = local_from n i items.
Proof.
  revert n. induction items as [|it rest IH]; intros n; [done|].
  cbn [list_find local_from]. destruct (decide (item_identifier it = i)).
  - simpl. by rewrite Nat.add_0_r.
  - rewrite <- IH, <- option_fmap_compose. apply option_fmap_ext.
    intros [k x]. simpl. f_equal. lia.
Qed.

Lemma first_reminder_external_from (i : string) (items : list EKCalendarItem) n :
  first_reminder
    (filter (λ p, item_externalIdentifier (snd p) = i)
            (imap (λ k it, (n + k, it)%nat) items))
  = external_from n i items.
Proof.
  revert n. induction items as [|it rest IH]; intros n; [done|].
  cbn [imap external_from]. rewrite filter_cons. simpl.
  rewrite (imap_ext _ (λ k it, (S n + k, it)%nat)); [|intros; simpl; f_equal; lia].
  rewrite Nat.add_0_r. destruct it as [r|a b]; simpl.
  - destruct (decide (calendarItemExternalIdentifier r = i)); [done|apply (IH (S n))].
  - destruct (decide (b = i)); simpl; apply (IH (S n)).
Qed.

Lemma _get_reminder_by_id_resolve (reminder_id : string) (w : World) :
  _get_reminder_by_id reminder_id w =
  match resolve reminder_id (calendarItems (event_store w)) with
  | Some found => (Ok found, w)
  | None => (Raised (NotFoundError "Reminder" reminder_id), w)
  end.
Proof.
  unfold _get_reminder_by_id, resolve, bind, get_store, ret, raise.
  unfold calendarItemWithIdentifier_, calendarItemsWithExternalIdentifier_.
  rewrite <- (list_find_local_from reminder_id _ 0).
  rewrite <- (first_reminder_external_from reminder_id _ 0).
  destruct (list_find _ _) as [[k [r|a b]]|]; simpl; try done;
    by destruct (first_reminder _).
Qed.

Lemma get_reminder_sync_resolve self (reminder_id : string) (w : World) :
  get_reminder_sync self reminder_id w =
  match resolve reminder_id (calendarItems (event_store w)) with
  | Some (_, r) => (Ok (ek_reminder_to_dict r), w)
  | None => (Raised (NotFoundError "Reminder" reminder_id), w)
  end.
Proof.
  unfold get_reminder_sync, resolve, bind, get_store, ret, raise.
  unfold calendarItemWithIdentifier_, calendarItemsWithExternalIdentifier_.
  rewrite <- (list_find_local_from reminder_id _ 0).
  rewrite <- (first_reminder_external_from reminder_id _ 0).
  destruct (list_find _ _) as [[k [r|a b]]|]; simpl; try done;
    by destruct (first_reminder _) as [[? ?]|].
Qed.

Lemma local_from_Some n i items k a :
  local_from n i items = Some (k, a) →
  (n ≤ k)%nat ∧ items !! (k - n)%nat = Some a ∧ item_identifier a = i ∧
  ∀ j it, (j < k - n)%nat → items !! j = Some it → item_identifier it ≠ i.
Proof.
  revert n. induction items as [|it rest IH]; intros n; [done|]. simpl.
  destruct (decide (item_identifier it = i)) as [E|E].
  - intros [= <- <-]. rewrite Nat.sub_diag. split_and!; [lia|done|done|].
    intros j x Hj. lia.
  - intros H. apply IH in H as (Hle & Hl & Hi & Hfirst).
    replace (k - n)%nat with (S (k - S n)) by lia.
    split_and!; [lia|done|done|].
    intros [|j] x Hj Hx; simpl in Hx.
    + by injection Hx as <-.
    + apply (Hfirst j x); [lia|done].
Qed.

Lemma local_from_None n i items :
  local_from n i items = None ↔ Forall (λ it, item_identifier it ≠ i) items.
Proof.
  revert n. induction items as [|it rest IH]; intros n; simpl.
  - split; [constructor|done].
  - rewrite Forall_cons. destruct (decide (item_identifier it = i)).
    + split; [done|]. by intros [? _].
    + rewrite IH. tauto.
Qed.

Lemma local_from_first n i items k a :
  items !! k = Some a → item_identifier a = i →
  (∀ j it, (j < k)%nat → items !! j = Some it → item_identifier it ≠ i) →
  local_from n i items = Some ((n + k)%nat, a).
Proof.
  revert n k. induction items as [|it rest IH]; intros n k Hk Hi Hfirst; [done|].
  simpl. destruct k as [|k]; simpl in Hk.
  - injection Hk as ->. rewrite decide_True by done. by rewrite Nat.add_0_r.
  - rewrite decide_False by (apply (Hfirst 0%nat); [lia|done]).
    rewrite (IH (S n) k Hk Hi); [f_equal; f_equal; lia|].
    intros j x Hj Hx. apply (Hfirst (S j)); [lia|done].
Qed.

Lemma external_from_Some n i items k r :
  external_from n i items = Some (k, r) →
  (n ≤ k)%nat ∧ items !! (k - n)%nat = Some (ItemReminder r) ∧
  calendarItemExternalIdentifier r = i.
Proof.
  revert n. induction items as [|it rest IH]; intros n; [done|]. simpl.
  assert (Hrest : external_from (S n) i rest = Some (k, r) →
                  (n ≤ k)%nat ∧ (it :: rest) !! (k - n)%nat = Some (ItemReminder r)
                  ∧ calendarItemExternalIdentifier r = i).
  { intros H. apply IH in H as (Hle & Hl & Hi).
    replace (k - n)%nat with (S (k - S n)) by lia. split_and!; [lia|done|done]. }
  destruct it as [r0|a b]; [|done].
  destruct (decide (calendarItemExternalIdentifier r0 = i)); [|done].
  intros [= <- <-]. rewrite Nat.sub_diag. split_and!; [lia|done|done].
Qed.

Lemma external_from_None n i items :
  external_from n i items = None ↔
  ∀ r, ItemReminder r ∈ items → calendarItemExternalIdentifier r ≠ i.
Proof.
  revert n. induction items as [|it rest IH]; intros n; simpl.
  - split; [|done]. intros _ r H. by apply elem_of_nil in H.
  - destruct it as [r0|a b].
    + destruct (decide (calendarItemExternalIdentifier r0 = i)) as [E|E].
      * split; [done|]. intros H. exfalso. apply (H r0); [by left|done].
      * rewrite IH. split.
        -- intros H r [[= ->]|Hr]%elem_of_cons; auto.
        -- intros H r Hr. apply H. by right.
    + rewrite IH. split.
      * intros H r [[=]|Hr]%elem_of_cons; auto.
      * intros H r Hr. apply H. by right.
Qed.

Lemma external_from_first n i items k r :
  items !! k = Some (ItemReminder r) → calendarItemExternalIdentifier r = i →
  (∀ j r', (j < k)%nat → items !! j = Some (ItemReminder r') →
           calendarItemExternalIdentifier r' ≠ i) →
  external_from n i items = Some ((n + k)%nat, r).
Proof.
  revert n k. induction items as [|it rest IH]; intros n k Hk Hi Hfirst; [done|].
  simpl. destruct k as [|k]; simpl in Hk.
  - injection Hk as ->. rewrite decide_True by done. by rewrite Nat.add_0_r.
  - assert (Hn : external_from (S n) i rest = Some ((n + S k)%nat, r)).
    { rewrite (IH (S n) k Hk Hi); [f_equal; f_equal; lia|].
      intros j x Hj Hx. apply (Hfirst (S j)); [lia|done]. }
    destruct it as [r0|a b]; [|done].
    rewrite decide_False; [done|]. apply (Hfirst 0%nat); [lia|done].
Qed.

Lemma resolve_Some i items k r :
  resolve i items = Some (k, r) →
  items !! k = Some (ItemReminder r) ∧ carries i (ItemReminder r).
Proof.
  unfold resolve, carries.
  destruct (local_from 0 i items) as [[j [r0|a b]]|] eqn:E.
  - intros [= <- <-]. apply local_from_Some in E as (_ & Hl & Hi & _).
    rewrite Nat.sub_0_r in Hl. auto.
  - intros H. apply external_from_Some in H as (_ & Hl & Hi).
    rewrite Nat.sub_0_r in Hl. auto.
  - intros H. apply external_from_Some in H as (_ & Hl & Hi).
    rewrite Nat.sub_0_r in Hl. auto.
Qed.

Lemma resolve_nobody i items :
  Forall (λ it, ¬ carries i it) items → resolve i items = None.
Proof.
  intros Hall. unfold resolve.
  rewrite (proj2 (local_from_None 0 i items)).
  - apply external_from_None. intros r Hr E.
    rewrite Forall_forall in Hall. apply (Hall _ Hr). by right.
  - eapply Forall_impl; [exact Hall|]. intros it H E. apply H. by left.
Qed.

(** The lookups see the identifiers and the class of the items only. *)
Lemma local_from_alike n i l l' :
  Forall2 alike l l' →
  match local_from n i l, local_from n i l' with
  | Some (k, a), Some (k', b) =>
      k = k' ∧ alike a b ∧ (n ≤ k)%nat ∧ l' !! (k - n)%nat = Some b
  | None, None => True
  | _, _ => False
  end.
Proof.
  intros H. revert n. induction H as [|a b l l' (Hi & He & Hc) _ IH]; intros n.
  - done.
  - simpl. rewrite <- Hi. destruct (decide (item_identifier a = i)).
    + rewrite Nat.sub_diag. split_and!; try done.
    + specialize (IH (S n)).
      destruct (local_from (S n) i l) as [[k x]|],
               (local_from (S n) i l') as [[k' y]|]; try done.
      destruct IH as (-> & Hal & Hle & Hl).
      replace (k' - n)%nat with (S (k' - S n)) by lia.
      split_and!; try done. lia.
Qed.

Lemma external_from_alike n i l l' :
  Forall2 alike l l' →
  match external_from n i l, external_from n i l' with
  | Some (k, _), Some (k', r') =>
      k = k' ∧ (n ≤ k)%nat ∧ l' !! (k - n)%nat = Some (ItemReminder r')
  | None, None => True
  | _, _ => False
  end.
Proof.
  intros H. revert n. induction H as [|a b l l' (Hi & He & Hc) _ IH]; intros n.
  - done.
  - assert (Hrest :
      match external_from (S n) i l, external_from (S n) i l' with
      | Some (k, _), Some (k', r') =>
          k = k' ∧ (n ≤ k)%nat ∧ (b :: l') !! (k - n)%nat = Some (ItemReminder r')
      | None, None => True
      | _, _ => False
      end).
    { specialize (IH (S n)).
      destruct (external_from (S n) i l) as [[k x]|],
               (external_from (S n) i l') as [[k' y]|]; try done.
      destruct IH as (-> & Hle & Hl).
      replace (k' - n)%nat with (S (k' - S n)) by lia.
      split_and!; try done. lia. }
    destruct a as [ra|a1 a2], b as [rb|b1 b2]; try done; simpl in *.
    rewrite <- He.
    destruct (decide (calendarItemExternalIdentifier ra = i)); [|done].
    rewrite Nat.sub_diag. split_and!; done.
Qed.

Lemma resolve_alike i l l' :
  Forall2 alike l l' →
  match resolve i l, resolve i l' with
  | Some (k, _), Some (k', r') => k = k' ∧ l' !! k = Some (ItemReminder r')
  | None, None => True
  | _, _ => False
  end.
Proof.
  intros H. unfold resolve.
  pose proof (local_from_alike 0 i l l' H) as Hloc.
  pose proof (external_from_alike 0 i l l' H) as Hext.
  assert (Hext' :
    match external_from 0 i l, external_from 0 i l' with
    | Some (k, _), Some (k', r') => k = k' ∧ l' !! k = Some (ItemReminder r')
    | None, None => True
    | _, _ => False
    end).
  { destruct (external_from 0 i l) as [[k x]|],
             (external_from 0 i l') as [[k' y]|]; try done.
    destruct Hext as (-> & _ & Hl). by rewrite Nat.sub_0_r in Hl. }
  destruct (local_from 0 i l) as [[k a]|], (local_from 0 i l') as [[k' b]|];
    try done.
  destruct Hloc as (-> & (_ & _ & Hc) & _ & Hl). rewrite Nat.sub_0_r in Hl.
  destruct a, b; try done.
Qed.

(** Saving over a stored reminder one with the same identifiers: every
    identifier resolves to the same place as before, and to the saved
    reminder when that place is the one saved. *)
Lemma resolve_insert i items k0 x y :
  items !! k0 = Some (ItemReminder x) →
  calendarItemIdentifier y = calendarItemIdentifier x →
  calendarItemExternalIdentifier y = calendarItemExternalIdentifier x →
  resolve i (<[k0 := ItemReminder y]> items)
  = (λ p, (fst p, if decide (fst p = k0) then y else snd p)) <$> resolve i items.
Proof.
  intros Hk Hi He.
  assert (Hal : Forall2 alike items (<[k0 := ItemReminder y]> items)).
  { rewrite <- (list_insert_id items k0 (ItemReminder x)) at 1 by done.
    apply Forall2_insert; [|by split_and!].
    apply Forall_Forall2_diag, Forall_forall. intros it _. by split_and!. }
  pose proof (resolve_alike i _ _ Hal) as H.
  destruct (resolve i items) as [[k r]|] eqn:E,
           (resolve i (<[k0 := ItemReminder y]> items)) as [[k' r']|];
    try done.
  destruct H as (<- & Hl). simpl. f_equal. f_equal.
  apply resolve_Some in E as [Hr _].
  destruct (decide (k = k0)) as [->|Hne].
  - rewrite list_lookup_insert_eq in Hl by by eapply lookup_lt_Some. congruence.
  - rewrite list_lookup_insert_ne in Hl by done. congruence.
Qed.

(** A new reminder whose external identifier no stored item carries is what
    that identifier resolves to once it is appended. *)
Lemma resolve_app_fresh i items r :
  Forall (λ it, ¬ carries i it) items →
  calendarItemExternalIdentifier r = i →
  resolve i (items ++ [ItemReminder r]) = Some (length items, r).
Proof.
  intros Hall He. unfold resolve.
  assert (Hext : external_from 0 i (items ++ [ItemReminder r])
                 = Some (length items, r)).
  { rewrite (external_from_first 0 i _ (length items) r); [done| |done|].
    - by rewrite lookup_app_r, Nat.sub_diag.
    - intros j r' Hj Hl. rewrite lookup_app_l in Hl by done. intros E.
      rewrite Forall_forall in Hall.
      apply (Hall (ItemReminder r')); [by eapply list_elem_of_lookup_2|by right]. }
  destruct (local_from 0 i (items ++ [ItemReminder r])) as [[k a]|] eqn:E;
    [|done].
  apply local_from_Some in E as (_ & Hl & Hi & _). rewrite Nat.sub_0_r in Hl.
  destruct (decide (k < length items)%nat) as [Hlt|Hge].
  - rewrite lookup_app_l in Hl by done. exfalso.
    rewrite Forall_forall in Hall.
    apply (Hall a); [by eapply list_elem_of_lookup_2|by left].
  - rewrite lookup_app_r in Hl by lia.
    destruct (k - length items)%nat as [|m] eqn:Ek; simpl in Hl; [|done].
    injection Hl as <-. f_equal. f_equal. lia.
Qed.

(** ** The operations on one reminder, by what the identifier resolves to *)

Lemma complete_reminder_sync_resolve self (i : string) (c : bool) (w : World) :
  complete_reminder_sync self i c w =
  match resolve i (calendarItems (event_store w)) with
  | None => (Raised (NotFoundError "Reminder" i), w)
  | Some (k, r) =>
      if saveReminder_ok (event_store w) (setCompleted_ c r) then
        (Ok (ek_reminder_to_dict (setCompleted_ c r)),
         set_event_store
           (set_calendarItems
              (<[k := ItemReminder (setCompleted_ c r)]>
                 (calendarItems (event_store w))) (event_store w)) w)
      else (Raised (EventKitError ("Failed to update reminder: " +:+ i) None None), w)
  end.
Proof.
  unfold complete_reminder_sync, bind. rewrite _get_reminder_by_id_resolve.
  destruct (resolve _ _) as [[k r]|]; [|done].
  unfold saveReminder_commit_error_, bind, get_store, put_store, ret, raise.
  simpl. by destruct (saveReminder_ok _ _).
Qed.

Lemma update_reminder_sync_resolve URLWithString_ self (i : string)
    title notes url due_date start_date priority location clear_location
    (w : World) :
  update_reminder_sync URLWithString_ self i title notes url due_date
    start_date priority location clear_location w =
  match resolve i (calendarItems (event_store w)) with
  | None => (Raised (NotFoundError "Reminder" i), w)
  | Some (k, r) =>
      let r' := update_reminder_fields URLWithString_ r title notes url due_date
                  start_date priority location clear_location in
      if saveReminder_ok (event_store w) r' then
        (Ok (ek_reminder_to_dict r'),
         set_event_store
           (set_calendarItems
              (<[k := ItemReminder r']> (calendarItems (event_store w)))
              (event_store w)) w)
      else (Raised (EventKitError ("Failed to update reminder: " +:+ i) None None), w)
  end.
Proof.
  unfold update_reminder_sync, bind. rewrite _get_reminder_by_id_resolve.
  destruct (resolve _ _) as [[k r]|]; [|done].
  unfold saveReminder_commit_error_, bind, get_store, put_store, ret, raise.
  simpl. by destruct (saveReminder_ok _ _).
Qed.

Lemma delete_reminder_sync_resolve self (i : string) (w : World) :
  delete_reminder_sync self i w =
  match resolve i (calendarItems (event_store w)) with
  | None => (Raised (NotFoundError "Reminder" i), w)
  | Some (k, r) =>
      if removeReminder_ok (event_store w) r then
        (Ok true,
         set_event_store
           (set_calendarItems (delete k (calendarItems (event_store w)))
              (event_store w)) w)
      else (Raised (EventKitError ("Failed to delete reminder: " +:+ i) None None), w)
  end.
Proof.
  unfold delete_reminder_sync, bind. rewrite _get_reminder_by_id_resolve.
  destruct (resolve _ _) as [[k r]|]; [|done].
  unfold removeReminder_commit_error_, bind, get_store, put_store, ret, raise.
  simpl. by destruct (removeReminder_ok _ _).
Qed.

Lemma move_reminder_sync_resolve self (i list_id : string) (w : World) :
  move_reminder_sync self i list_id w =
  match resolve i (calendarItems (event_store w)) with
  | None => (Raised (NotFoundError "Reminder" i), w)
  | Some (k, r) =>
      match calendarWithIdentifier_ (event_store w) list_id with
      | None => (Raised (NotFoundError "List" list_id), w)
      | Some calendar =>
          if saveReminder_ok (event_store w) (setCalendar_ calendar r) then
            (Ok (ek_reminder_to_dict (setCalendar_ calendar r)),
             set_event_store
               (set_calendarItems
                  (<[k := ItemReminder (setCalendar_ calendar r)]>
                     (calendarItems (event_store w))) (event_store w)) w)
          else
            (Raised (EventKitError ("Failed to move reminder: " +:+ i) None None), w)
      end
  end.
Proof.
  unfold move_reminder_sync, bind. rewrite _get_reminder_by_id_resolve.
  destruct (resolve _ _) as [[k r]|]; [|done].
  unfold get_store at 1. simpl.
  destruct (calendarWithIdentifier_ _ _) as [calendar|]; [|done].
  unfold saveReminder_commit_error_, bind, get_store, put_store, ret, raise.
  simpl. by destruct (saveReminder_ok _ _).
Qed.

(** A handler run by a process whose instance is committed is the store
    method, converted. *)
Lemma tool_committed {A B} (w : World) self (op : ReminderStore → M A) (f : A → B) :
  _instance w = Some self →
  (let* store := get_instance in
   let* data := run_eventkit (op store) in
   ret (f data)) w
  = match op self w with
    | (Ok a, w') => (Ok (f a), w')
    | (Raised e, w') => (Raised e, w')
    end.
Proof.
  intros H. unfold bind at 1. rewrite (get_instance_some w self H).
  unfold bind, run_eventkit, ret. by destruct (op self w) as [[a|e] w'].
Qed.


(** X8. An identifier that no stored item carries, as its local or its
    external identifier: the five handlers that take a reminder id raise
    [NotFoundError("Reminder", id)], and the process is left as it was. *)
Theorem unknown_reminder_id_not_found :
  ∀ (URLWithString_ : string → option NSURL) (w : World) (self : ReminderStore)
    (reminder_id : string),
    _instance w = Some self →
    Forall (λ it, ¬ carries reminder_id it) (calendarItems (event_store w)) →
    let not_found {A} : Result A * World :=
      (Raised (NotFoundError "Reminder" reminder_id), w) in
    get_reminder reminder_id w = not_found ∧
    (∀ title notes url due_date start_date priority location clear_location,
        update_reminder URLWithString_ reminder_id title notes url due_date
          start_date priority location clear_location w = not_found) ∧
    (∀ completed, complete_reminder reminder_id completed w = not_found) ∧
    delete_reminder reminder_id w = not_found ∧
    (∀ list_id, move_reminder reminder_id list_id w = not_found).
Proof.
  intros U w self i Hinst Hnone not_found.
  apply resolve_nobody in Hnone.
  split_and!; intros.
  - unfold get_reminder. rewrite (tool_committed w self _ _ Hinst).
    by rewrite get_reminder_sync_resolve, Hnone.
  - unfold update_reminder. rewrite (tool_committed w self _ _ Hinst).
    by rewrite update_reminder_sync_resolve, Hnone.
  - unfold complete_reminder. rewrite (tool_committed w self _ _ Hinst).
    by rewrite complete_reminder_sync_resolve, Hnone.
  - unfold delete_reminder, bind. rewrite (get_instance_some w self Hinst).
    unfold run_eventkit. by rewrite delete_reminder_sync_resolve, Hnone.
  - unfold move_reminder. rewrite (tool_committed w self _ _ Hinst).
    by rewrite move_reminder_sync_resolve, Hnone.
Qed.

Lemma unknown_reminder_id_not_found_witness :
  get_reminder "zzz" demo_world
    = (Raised (NotFoundError "Reminder" "zzz"), demo_world) ∧
  delete_reminder "zzz" demo_world
    = (Raised (NotFoundError "Reminder" "zzz"), demo_world).
Proof.
  destruct (unknown_reminder_id_not_found demo_URLWithString_ demo_world
              {| _access_granted := true |} "zzz") as (Hg & _ & _ & Hd & _).
  - reflexivity.
  - repeat constructor; intros [H|H]; discriminate H.
  - split; [exact Hg|exact Hd].
Defined.

(** X9. Which reminder an identifier names. A reminder whose local identifier
    is the id, with no item before it that has this local identifier, is the
    one found, whatever external identifiers the other items have. When the
    first item with this local identifier is not a reminder, or there is
    none, the first reminder with this external identifier is found. *)
Theorem _get_reminder_by_id_precedence :
  ∀ (reminder_id : string) (w : World) (k : nat) (reminder : EKReminder),
    let items := calendarItems (event_store w) in
    items !! k = Some (ItemReminder reminder) →
    (calendarItemIdentifier reminder = reminder_id ∧
     (∀ j it, (j < k)%nat → items !! j = Some it →
              item_identifier it ≠ reminder_id))
    ∨
    (calendarItemExternalIdentifier reminder = reminder_id ∧
     (∀ j it, items !! j = Some it → item_identifier it = reminder_id →
              (∃ j' it', (j' ≤ j)%nat ∧ items !! j' = Some it' ∧
                         item_identifier it' = reminder_id ∧
                         is_reminder it' = false)) ∧
     (∀ j r, (j < k)%nat → items !! j = Some (ItemReminder r) →
             calendarItemExternalIdentifier r ≠ reminder_id)) →
    _get_reminder_by_id reminder_id w = (Ok (k, reminder), w).
Proof.
  intros i w k r items Hk Hcase.
  rewrite _get_reminder_by_id_resolve. fold items. unfold resolve.
  destruct Hcase as [(Hi & Hfirst)|(He & Hev & Hfirst)].
  - by rewrite (local_from_first 0 i items k (ItemReminder r) Hk Hi Hfirst).
  - rewrite (external_from_first 0 i items k r Hk He Hfirst). simpl.
    destruct (local_from 0 i items) as [[j [r0|a b]]|] eqn:E; try done.
    exfalso. apply local_from_Some in E as (_ & Hl & Hi & Hmin).
    rewrite Nat.sub_0_r in Hl, Hmin.
    destruct (Hev j _ Hl Hi) as (j' & it' & Hle & Hl' & Hi' & Hr').
    destruct (decide (j' = j)) as [->|Hne].
    + rewrite Hl in Hl'. by injection Hl' as <-.
    + apply (Hmin j' it'); [lia|done|done].
Qed.

Lemma _get_reminder_by_id_precedence_witness :
  _get_reminder_by_id "q" shadow_world
    = (Ok (2%nat, reminder_with "q" "z" "Local"), shadow_world) ∧
  _get_reminder_by_id "e" shadow_world
    = (Ok (3%nat, reminder_with "s" "e" "After the event"), shadow_world).
Proof.
  split.
  - apply (_get_reminder_by_id_precedence "q" shadow_world 2); [reflexivity|].
    left. split; [reflexivity|].
    intros [|[|j]] it Hj Hl; [| |lia]; injection Hl as <-; discriminate.
  - apply (_get_reminder_by_id_precedence "e" shadow_world 3); [reflexivity|].
    right. split_and!; [reflexivity| |].
    + intros [|[|[|[|j]]]] it Hl Hi; try (injection Hl as <-; discriminate Hi).
      * exists 0%nat, (ItemEvent "e" "e-ext"). split_and!; [lia|done..].
      * done.
    + intros [|[|[|j]]] r Hj Hl; [| | |lia];
        first [discriminate Hl | injection Hl as <-; discriminate].
Defined.

(** ** Location alarms *)

Lemma remove_first_skip (alarm : EKAlarm) (pre rest : list EKAlarm) :
  Forall (λ a, a ≠ alarm) pre →
  remove_first alarm (pre ++ alarm :: rest) = pre ++ rest.
Proof.
  induction 1 as [|a pre Ha _ IH]; simpl.
  - by rewrite decide_True.
  - by rewrite decide_False, IH.
Qed.

Lemma _remove_location_alarms_loop_filter (copy pre : list EKAlarm)
    (reminder : EKReminder) (removed : Z) :
  Forall (λ a, structuredLocation a = None) pre →
  _remove_location_alarms_loop copy (setAlarms (pre ++ copy) reminder) removed
  = (setAlarms (pre ++ filter (λ a, structuredLocation a = None) copy) reminder,
     removed + Z.of_nat (length (filter (λ a, structuredLocation a ≠ None) copy))).
Proof.
  revert pre removed. induction copy as [|a copy IH]; intros pre removed Hpre.
  - simpl. by rewrite Z.add_0_r.
  - cbn [_remove_location_alarms_loop]. rewrite !filter_cons.
    destruct (structuredLocation a) as [sl|] eqn:E.
    + rewrite decide_False, decide_True by done.
      unfold removeAlarm_. cbn [alarms setAlarms].
      rewrite remove_first_skip.
      * change (setAlarms (pre ++ copy) (setAlarms (pre ++ a :: copy) reminder))
          with (setAlarms (pre ++ copy) reminder).
        rewrite IH by done. f_equal. rewrite length_cons. lia.
      * eapply Forall_impl; [exact Hpre|]. intros b Hb ->. congruence.
    + rewrite decide_True by done. rewrite decide_False by (intros H; by apply H).
      replace (pre ++ a :: copy) with ((pre ++ [a]) ++ copy)
        by by rewrite <- app_assoc.
      rewrite IH by (apply Forall_app; split; [done|by constructor]).
      by rewrite <- app_assoc.
Qed.

Lemma _remove_location_alarms_filter (reminder : EKReminder) :
  _remove_location_alarms reminder
  = (setAlarms (filter (λ a, structuredLocation a = None) (alarms reminder))
       reminder,
     Z.of_nat (length (filter (λ a, structuredLocation a ≠ None)
                              (alarms reminder)))).
Proof.
  unfold _remove_location_alarms. destruct (alarms reminder) as [|a l] eqn:E.
  - destruct reminder; simpl in *. by subst.
  - rewrite <- E.
    replace reminder with (setAlarms ([] ++ alarms reminder) reminder) at 2
      by by destruct reminder.
    by rewrite _remove_location_alarms_loop_filter.
Qed.

Lemma extract_without_location (l : list EKAlarm) :
  extract_location_from_alarms (filter (λ a, structuredLocation a = None) l)
  = None.
Proof.
  induction l as [|a l IH]; [done|].
  rewrite filter_cons. destruct (decide _) as [E|E]; [|done].
  simpl. by rewrite E.
Qed.

(** X10. [_remove_location_alarms], which removes alarms from the reminder
    while it walks a copy of the alarm list, leaves exactly the alarms
    without a structured location, in their order, and returns the number of
    alarms that had one; no other field of the reminder changes. *)
Theorem _remove_location_alarms_keeps_time_alarms :
  ∀ reminder : EKReminder,
    let (after, removed) := _remove_location_alarms reminder in
    alarms after = filter (λ a, structuredLocation a = None) (alarms reminder) ∧
    removed = Z.of_nat (length (alarms reminder)) - Z.of_nat (length (alarms after)) ∧
    extract_location_from_reminder after = None ∧
    setAlarms (alarms reminder) after = reminder.
Proof.
  intros reminder. rewrite _remove_location_alarms_filter.
  cbn [alarms setAlarms]. split_and!.
  - done.
  - pose proof (filter_app_complement
                  (λ a, structuredLocation a = None) (alarms reminder)) as Hp.
    apply Permutation_length in Hp. rewrite length_app in Hp.
    lia.
  - unfold extract_location_from_reminder. cbn [alarms setAlarms].
    apply extract_without_location.
  - by destruct reminder.
Qed.

Lemma update_reminder_fields_alarms URLWithString_ r title notes url due_date
    start_date priority location clear_location :
  alarms (update_reminder_fields URLWithString_ r title notes url due_date
            start_date priority location clear_location)
  = if clear_location
    then filter (λ a, structuredLocation a = None) (alarms r)
    else match location with
         | Some l => filter (λ a, structuredLocation a = None) (alarms r)
                     ++ [location_trigger_to_ek_alarm l]
         | None => alarms r
         end.
Proof.
  unfold update_reminder_fields. rewrite !_remove_location_alarms_filter.
  destruct clear_location; [|destruct location];
    destruct title, notes, url, due_date, start_date, priority; reflexivity.
Qed.

(** ** Writing a reminder and reading it back *)

(** The world after the store has saved [reminder] at position [k]. *)
Lemma get_reminder_after_save (w : World) self (i : string) (k : nat)
    (r r' : EKReminder) :
  _instance w = Some self →
  resolve i (calendarItems (event_store w)) = Some (k, r) →
  calendarItemIdentifier r' = calendarItemIdentifier r →
  calendarItemExternalIdentifier r' = calendarItemExternalIdentifier r →
  let w' := set_event_store
              (set_calendarItems
                 (<[k := ItemReminder r']> (calendarItems (event_store w)))
                 (event_store w)) w in
  resolve i (calendarItems (event_store w')) = Some (k, r') ∧
  get_reminder i w' = (Ok (Reminder_of (ek_reminder_to_dict r')), w').
Proof.
  intros Hinst Hres Hi He w'.
  assert (Hres' : resolve i (calendarItems (event_store w')) = Some (k, r')).
  { cbn [w' event_store set_event_store calendarItems set_calendarItems].
    apply resolve_Some in Hres as Hk. destruct Hk as [Hk _].
    rewrite (resolve_insert i _ k r r' Hk Hi He), Hres. simpl.
    by rewrite decide_True. }
  split; [done|].
  unfold get_reminder. rewrite (tool_committed w' self _ _ Hinst).
  by rewrite get_reminder_sync_resolve, Hres'.
Qed.

Lemma complete_reminder_Ok (w w' : World) self (i : string) (c : bool) rem :
  _instance w = Some self →
  complete_reminder i c w = (Ok rem, w') →
  ∃ k r,
    resolve i (calendarItems (event_store w)) = Some (k, r) ∧
    saveReminder_ok (event_store w) (setCompleted_ c r) = true ∧
    rem = Reminder_of (ek_reminder_to_dict (setCompleted_ c r)) ∧
    w' = set_event_store
           (set_calendarItems
              (<[k := ItemReminder (setCompleted_ c r)]>
                 (calendarItems (event_store w))) (event_store w)) w.
Proof.
  intros Hinst. unfold complete_reminder.
  rewrite (tool_committed w self _ _ Hinst), complete_reminder_sync_resolve.
  destruct (resolve _ _) as [[k r]|]; [|done].
  destruct (saveReminder_ok _ _) eqn:E; [|done].
  intros [= <- <-]. by exists k, r.
Qed.

Lemma update_reminder_Ok URLWithString_ (w w' : World) self (i : string)
    title notes url due_date start_date priority location clear_location rem :
  _instance w = Some self →
  update_reminder URLWithString_ i title notes url due_date start_date priority
    location clear_location w = (Ok rem, w') →
  ∃ k r,
    let r' := update_reminder_fields URLWithString_ r title notes url due_date
                start_date (Priority_int <$> priority) location clear_location in
    resolve i (calendarItems (event_store w)) = Some (k, r) ∧
    saveReminder_ok (event_store w) r' = true ∧
    rem = Reminder_of (ek_reminder_to_dict r') ∧
    w' = set_event_store
           (set_calendarItems
              (<[k := ItemReminder r']> (calendarItems (event_store w)))
              (event_store w)) w.
Proof.
  intros Hinst. unfold update_reminder.
  rewrite (tool_committed w self _ _ Hinst), update_reminder_sync_resolve.
  destruct (resolve _ _) as [[k r]|]; [|done]. cbv zeta.
  destruct (saveReminder_ok _ _) eqn:E; [|done].
  intros [= <- <-]. by exists k, r.
Qed.

Lemma move_reminder_Ok (w w' : World) self (i list_id : string) rem :
  _instance w = Some self →
  move_reminder i list_id w = (Ok rem, w') →
  ∃ k r calendar,
    resolve i (calendarItems (event_store w)) = Some (k, r) ∧
    calendarWithIdentifier_ (event_store w) list_id = Some calendar ∧
    saveReminder_ok (event_store w) (setCalendar_ calendar r) = true ∧
    rem = Reminder_of (ek_reminder_to_dict (setCalendar_ calendar r)) ∧
    w' = set_event_store
           (set_calendarItems
              (<[k := ItemReminder (setCalendar_ calendar r)]>
                 (calendarItems (event_store w))) (event_store w)) w.
Proof.
  intros Hinst. unfold move_reminder.
  rewrite (tool_committed w self _ _ Hinst), move_reminder_sync_resolve.
  destruct (resolve _ _) as [[k r]|]; [|done].
  destruct (calendarWithIdentifier_ _ _) as [calendar|]; [|done].
  destruct (saveReminder_ok _ _) eqn:E; [|done].
  intros [= <- <-]. by exists k, r, calendar.
Qed.

Lemma delete_reminder_Ok (w w' : World) self (i : string) b :
  _instance w = Some self →
  delete_reminder i w = (Ok b, w') →
  ∃ k r,
    resolve i (calendarItems (event_store w)) = Some (k, r) ∧
    removeReminder_ok (event_store w) r = true ∧
    b = true ∧
    w' = set_event_store
           (set_calendarItems (delete k (calendarItems (event_store w)))
              (event_store w)) w.
Proof.
  intros Hinst. unfold delete_reminder, bind.
  rewrite (get_instance_some w self Hinst). unfold run_eventkit.
  rewrite delete_reminder_sync_resolve.
  destruct (resolve _ _) as [[k r]|]; [|done].
  destruct (removeReminder_ok _ _) eqn:E; [|done].
  intros [= <- <-]. by exists k, r.
Qed.

(** X11. [update_reminder] with [clear_location=True]: whenever it returns,
    the reminder it returns has no location, also when a [location] was
    passed in the same call; the stored reminder keeps its alarms without a
    structured location, in their order, and no other alarm. *)
Theorem update_reminder_clear_location_wins :
  ∀ (URLWithString_ : string → option NSURL) (w w' : World)
    (self : ReminderStore) (reminder_id : string)
    (title notes url : option string) (due_date start_date : option datetime)
    (priority : option Priority) (location : option LocationTrigger)
    (rem : Reminder),
    _instance w = Some self →
    update_reminder URLWithString_ reminder_id title notes url due_date
      start_date priority location true w = (Ok rem, w') →
    r_location rem = None ∧
    ∃ k before after,
      resolve reminder_id (calendarItems (event_store w)) = Some (k, before) ∧
      resolve reminder_id (calendarItems (event_store w')) = Some (k, after) ∧
      alarms after = filter (λ a, structuredLocation a = None) (alarms before).
Proof.
  intros U w w' self i title notes url due start prio location rem Hinst Hrun.
  apply (update_reminder_Ok U w w' self) in Hrun as (k & r & Hrun); [|done].
  cbv zeta in Hrun. destruct Hrun as (Hres & _ & -> & ->).
  set (r' := update_reminder_fields U r title notes url due start
               (Priority_int <$> prio) location true).
  pose proof (update_reminder_fields_alarms U r title notes url due start
                (Priority_int <$> prio) location true) as Hal.
  fold r' in Hal. cbv iota in Hal. split.
  - cbn [r_location Reminder_of d_location ek_reminder_to_dict].
    unfold extract_location_from_reminder.
    by rewrite Hal, extract_without_location.
  - exists k, r, r'. split_and!; [done| |done].
    pose proof (update_reminder_fields_frame U r title notes url due start
                  (Priority_int <$> prio) location true) as (Hi & He & _).
    by apply (get_reminder_after_save w self i k r r' Hinst Hres Hi He).
Qed.

Lemma update_reminder_clear_location_wins_witness :
  r_location
    (Reminder_of
       (ek_reminder_to_dict
          (update_reminder_fields demo_URLWithString_
             (addAlarm_ (location_trigger_to_ek_alarm demo_location)
                (addAlarm_ demo_time_alarm (demo_reminder "a" "Buy milk" None)))
             None None None None None None (Some demo_location) true)))
  = None.
Proof.
  destruct (update_reminder_clear_location_wins demo_URLWithString_ alarm_world
              (snd (update_reminder demo_URLWithString_ "a" None None None None
                      None None (Some demo_location) true alarm_world))
              {| _access_granted := true |} "a" None None None None None None
              (Some demo_location)
              (Reminder_of
                 (ek_reminder_to_dict
                    (update_reminder_fields demo_URLWithString_
                       (addAlarm_ (location_trigger_to_ek_alarm demo_location)
                          (addAlarm_ demo_time_alarm
                             (demo_reminder "a" "Buy milk" None)))
                       None None None None None None (Some demo_location) true))))
    as [H _].
  - reflexivity.
  - vm_compute. reflexivity.
  - exact H.
Defined.

(** X12. [update_reminder] with a [location] and without [clear_location]:
    the new trigger replaces every location alarm the reminder had, the
    other alarms stay, and the reminder returned carries the trigger as it
    reads back from the alarm. *)
Theorem update_reminder_replaces_location :
  ∀ (URLWithString_ : string → option NSURL) (w w' : World)
    (self : ReminderStore) (reminder_id : string)
    (title notes url : option string) (due_date start_date : option datetime)
    (priority : option Priority) (location : LocationTrigger)
    (rem : Reminder),
    _instance w = Some self →
    update_reminder URLWithString_ reminder_id title notes url due_date
      start_date priority (Some location) false w = (Ok rem, w') →
    r_location rem = Some (location_read_back location) ∧
    ∃ k before after,
      resolve reminder_id (calendarItems (event_store w)) = Some (k, before) ∧
      resolve reminder_id (calendarItems (event_store w')) = Some (k, after) ∧
      alarms after = filter (λ a, structuredLocation a = None) (alarms before)
                     ++ [location_trigger_to_ek_alarm location].
Proof.
  intros U w w' self i title notes url due start prio location rem Hinst Hrun.
  apply (update_reminder_Ok U w w' self) in Hrun as (k & r & Hrun); [|done].
  cbv zeta in Hrun. destruct Hrun as (Hres & _ & -> & ->).
  set (r' := update_reminder_fields U r title notes url due start
               (Priority_int <$> prio) (Some location) false).
  pose proof (update_reminder_fields_alarms U r title notes url due start
                (Priority_int <$> prio) (Some location) false) as Hal.
  fold r' in Hal. cbv iota in Hal. split.
  - cbn [r_location Reminder_of d_location ek_reminder_to_dict].
    unfold extract_location_from_reminder. rewrite Hal.
    rewrite extract_skips_time_alarms.
    + apply extract_location_trigger.
    + apply Forall_forall. intros a Ha.
      by apply list_elem_of_filter in Ha as [Ha _].
  - exists k, r, r'. split_and!; [done| |done].
    pose proof (update_reminder_fields_frame U r title notes url due start
                  (Priority_int <$> prio) (Some location) false) as (Hi & He & _).
    by apply (get_reminder_after_save w self i k r r' Hinst Hres Hi He).
Qed.

Lemma update_reminder_replaces_location_witness :
  r_location
    (Reminder_of
       (ek_reminder_to_dict
          (update_reminder_fields demo_URLWithString_
             (addAlarm_ (location_trigger_to_ek_alarm demo_location)
                (addAlarm_ demo_time_alarm (demo_reminder "a" "Buy milk" None)))
             None None None None None None
             (Some {| lt_title := ""; lt_latitude := 1; lt_longitude := 2;
                      lt_radius := 0; lt_proximity := LEAVE |}) false)))
  = Some {| lt_title := "Location"; lt_latitude := 1; lt_longitude := 2;
            lt_radius := 100; lt_proximity := LEAVE |}.
Proof.
  destruct (update_reminder_replaces_location demo_URLWithString_ alarm_world
              (snd (update_reminder demo_URLWithString_ "a" None None None None
                      None None
                      (Some {| lt_title := ""; lt_latitude := 1; lt_longitude := 2;
                               lt_radius := 0; lt_proximity := LEAVE |})
                      false alarm_world))
              {| _access_granted := true |} "a" None None None None None None
              {| lt_title := ""; lt_latitude := 1; lt_longitude := 2;
                 lt_radius := 0; lt_proximity := LEAVE |}
              (Reminder_of
                 (ek_reminder_to_dict
                    (update_reminder_fields demo_URLWithString_
                       (addAlarm_ (location_trigger_to_ek_alarm demo_location)
                          (addAlarm_ demo_time_alarm
                             (demo_reminder "a" "Buy milk" None)))
                       None None None None None None
                       (Some {| lt_title := ""; lt_latitude := 1; lt_longitude := 2;
                                lt_radius := 0; lt_proximity := LEAVE |}) false))))
    as [H _].
  - reflexivity.
  - vm_compute. reflexivity.
  - exact H.
Defined.

(** X13. What [complete_reminder], [update_reminder] and [move_reminder]
    return is what [get_reminder] reads next under the same id: the save
    keeps both identifiers, so the id still resolves to the reminder just
    saved. *)
Theorem get_reminder_reads_last_write :
  ∀ (URLWithString_ : string → option NSURL) (w w' : World)
    (self : ReminderStore) (reminder_id : string) (rem : Reminder),
    _instance w = Some self →
    (∃ completed, complete_reminder reminder_id completed w = (Ok rem, w')) ∨
    (∃ title notes url due_date start_date priority location clear_location,
        update_reminder URLWithString_ reminder_id title notes url due_date
          start_date priority location clear_location w = (Ok rem, w')) ∨
    (∃ list_id, move_reminder reminder_id list_id w = (Ok rem, w')) →
    get_reminder reminder_id w' = (Ok rem, w').
Proof.
  intros U w w' self i rem Hinst
    [(c & Hrun)|[(title & notes & url & due & start & prio & loc & clear & Hrun)
                |(list_id & Hrun)]].
  - apply (complete_reminder_Ok w w' self) in Hrun
      as (k & r & Hres & _ & -> & ->); [|done].
    by apply (get_reminder_after_save w self i k r _ Hinst Hres).
  - apply (update_reminder_Ok U w w' self) in Hrun as (k & r & Hrun); [|done].
    cbv zeta in Hrun. destruct Hrun as (Hres & _ & -> & ->).
    pose proof (update_reminder_fields_frame U r title notes url due start
                  (Priority_int <$> prio) loc clear) as (Hi & He & _).
    by apply (get_reminder_after_save w self i k r _ Hinst Hres Hi He).
  - apply (move_reminder_Ok w w' self) in Hrun
      as (k & r & cal & Hres & _ & _ & -> & ->); [|done].
    by apply (get_reminder_after_save w self i k r _ Hinst Hres).
Qed.

Lemma get_reminder_reads_last_write_witness :
  get_reminder "a" (snd (move_reminder "a" "work" alarm_world))
  = (fst (move_reminder "a" "work" alarm_world),
     snd (move_reminder "a" "work" alarm_world)).
Proof.
  assert (E : ∃ rem, fst (move_reminder "a" "work" alarm_world) = Ok rem)
    by (eexists; vm_compute; reflexivity).
  destruct E as [rem E]. rewrite E.
  apply (get_reminder_reads_last_write demo_URLWithString_ alarm_world _
           {| _access_granted := true |} "a" rem).
  - reflexivity.
  - right. right. exists "work". rewrite <- E. apply surjective_pairing.
Defined.





(** ** Deleting and creating *)

Lemma local_from_shift n m i items :
  snd <$> local_from n i items = snd <$> local_from m i items.
Proof.
  revert n m. induction items as [|it rest IH]; intros n m; [done|]. simpl.
  destruct (decide _); [done|apply IH].
Qed.

Lemma external_from_shift n m i items :
  snd <$> external_from n i items = snd <$> external_from m i items.
Proof.
  revert n m. induction items as [|it rest IH]; intros n m; [done|]. simpl.
  destruct it as [r|a b]; [|apply IH].
  destruct (decide _); [done|apply IH].
Qed.

Lemma local_from_delete n i items k it :
  items !! k = Some it → item_identifier it ≠ i →
  snd <$> local_from n i (delete k items) = snd <$> local_from n i items.
Proof.
  revert n k. induction items as [|x rest IH]; intros n k Hk Hi; [done|].
  destruct k as [|k]; simpl in *.
  - injection Hk as ->. rewrite decide_False by done. apply local_from_shift.
  - destruct (decide _); [done|]. by apply IH.
Qed.

Lemma external_from_delete n i items k it :
  items !! k = Some it → item_externalIdentifier it ≠ i →
  snd <$> external_from n i (delete k items) = snd <$> external_from n i items.
Proof.
  revert n k. induction items as [|x rest IH]; intros n k Hk Hi; [done|].
  destruct k as [|k]; simpl in *.
  - injection Hk as ->. destruct it as [r|a b]; simpl in *.
    + rewrite decide_False by done. apply external_from_shift.
    + apply external_from_shift.
  - destruct x as [r|a b]; [|by apply IH].
    destruct (decide _); [done|]. by apply IH.
Qed.

Lemma resolve_snd i items :
  snd <$> resolve i items =
  match snd <$> local_from 0 i items with
  | Some (ItemReminder r) => Some r
  | _ => snd <$> external_from 0 i items
  end.
Proof.
  unfold resolve. by destruct (local_from 0 i items) as [[k [r|a b]]|].
Qed.

Lemma resolve_delete i items k it :
  items !! k = Some it → ¬ carries i it →
  snd <$> resolve i (delete k items) = snd <$> resolve i items.
Proof.
  intros Hk Hc. rewrite !resolve_snd.
  rewrite (local_from_delete 0 i items k it Hk) by (intros E; apply Hc; by left).
  rewrite (external_from_delete 0 i items k it Hk) by (intros E; apply Hc; by right).
  done.
Qed.

Lemma get_reminder_resolve (w : World) self (i : string) :
  _instance w = Some self →
  get_reminder i w =
  match snd <$> resolve i (calendarItems (event_store w)) with
  | Some r => (Ok (Reminder_of (ek_reminder_to_dict r)), w)
  | None => (Raised (NotFoundError "Reminder" i), w)
  end.
Proof.
  intros Hinst. unfold get_reminder.
  rewrite (tool_committed w self _ _ Hinst), get_reminder_sync_resolve.
  by destruct (resolve _ _) as [[k r]|].
Qed.

(** X16. Deleting a reminder whose id no other stored item carries: the
    call returns [True], the store holds one item less, reading or deleting
    the same id again raises [NotFoundError], and every id that the deleted
    reminder did not carry reads as it did before. *)
Theorem delete_reminder_then_not_found :
  ∀ (w w' : World) (self : ReminderStore) (reminder_id : string) (b : bool),
    let items := calendarItems (event_store w) in
    _instance w = Some self →
    (∀ j j' it it', items !! j = Some it → items !! j' = Some it' →
                    carries reminder_id it → carries reminder_id it' → j = j') →
    delete_reminder reminder_id w = (Ok b, w') →
    b = true ∧
    S (length (calendarItems (event_store w'))) = length items ∧
    get_reminder reminder_id w'
      = (Raised (NotFoundError "Reminder" reminder_id), w') ∧
    delete_reminder reminder_id w'
      = (Raised (NotFoundError "Reminder" reminder_id), w') ∧
    ∃ k deleted,
      resolve reminder_id items = Some (k, deleted) ∧
      calendarItems (event_store w') = delete k items ∧
      ∀ other, ¬ carries other (ItemReminder deleted) →
               fst (get_reminder other w') = fst (get_reminder other w).
Proof.
  intros w w' self i b items Hinst Huniq Hrun.
  apply (delete_reminder_Ok w w' self) in Hrun
    as (k & r & Hres & _ & -> & ->); [|done].
  fold items in Hres |- *.
  apply resolve_Some in Hres as Hk. destruct Hk as [Hk Hc].
  set (w' := set_event_store _ w).
  assert (Hitems : calendarItems (event_store w') = delete k items) by done.
  assert (Hgone : resolve i (delete k items) = None).
  { apply resolve_nobody, Forall_lookup. intros j x Hj Hx.
    destruct (decide (j < k)%nat) as [Hlt|Hge].
    - rewrite list_lookup_delete_lt in Hj by done.
      pose proof (Huniq j k x _ Hj Hk Hx Hc). lia.
    - rewrite list_lookup_delete_ge in Hj by lia.
      pose proof (Huniq (S j) k x _ Hj Hk Hx Hc). lia. }
  split_and!.
  - done.
  - rewrite Hitems, length_delete by done.
    apply lookup_lt_Some in Hk. lia.
  - by rewrite (get_reminder_resolve w' self i Hinst), Hitems, Hgone.
  - unfold delete_reminder, bind. rewrite (get_instance_some w' self Hinst).
    unfold run_eventkit. by rewrite delete_reminder_sync_resolve, Hitems, Hgone.
  - exists k, r. split_and!; [done..|]. intros other Hother.
    rewrite (get_reminder_resolve w' self other Hinst),
            (get_reminder_resolve w self other Hinst), Hitems.
    fold items. rewrite (resolve_delete other items k _ Hk Hother).
    by destruct (snd <$> resolve other items).
Qed.

Lemma delete_reminder_then_not_found_witness :
  get_reminder "a" (snd (delete_reminder "a" alarm_world))
  = (Raised (NotFoundError "Reminder" "a"), snd (delete_reminder "a" alarm_world)) ∧
  fst (get_reminder "c" (snd (delete_reminder "a" alarm_world)))
  = fst (get_reminder "c" alarm_world).
Proof.
  destruct (delete_reminder_then_not_found alarm_world
              (snd (delete_reminder "a" alarm_world))
              {| _access_granted := true |} "a" true)
    as (_ & _ & Hget & _ & k & deleted & Hres & _ & Hother).
  - reflexivity.
  - intros [|[|[|j]]] [|[|[|j']]] it it' Hj Hj' Hc Hc'; try done;
      exfalso; simpl in Hj, Hj';
      first [ injection Hj as <-; destruct Hc as [Hc|Hc]; discriminate Hc
            | injection Hj' as <-; destruct Hc' as [Hc'|Hc']; discriminate Hc' ].
  - vm_compute. reflexivity.
  - split; [exact Hget|]. apply Hother.
    vm_compute in Hres. injection Hres as _ <-.
    intros [H|H]; discriminate H.
Defined.

(** The list a new reminder goes to: the one named, or the default list
    when [list_id] is [None] or empty. *)
Lemma create_reminder_sync_cases URLWithString_ self title list_id notes url
    due_date start_date priority location (w : World) :
  let st := event_store w in
  let ids := newIdentifiers st (allocated st) in
  let allocated_w := set_event_store (set_allocated (S (allocated st)) st) w in
  match
    (if str_truthy list_id
     then calendarWithIdentifier_ st (default EmptyString list_id)
     else defaultCalendarForNewReminders st)
  with
  | None =>
      create_reminder_sync URLWithString_ self title list_id notes url due_date
        start_date priority location w
      = (Raised (if str_truthy list_id
                 then NotFoundError "List" (default EmptyString list_id)
                 else NoWritableSourceError),
         allocated_w)
  | Some calendar =>
      ∃ r,
        calendarItemIdentifier r = fst ids ∧
        calendarItemExternalIdentifier r = snd ids ∧
        ek_title r = Some title ∧ ek_calendar r = calendar ∧
        isCompleted r = false ∧
        made_with URLWithString_ r notes url due_date start_date priority
          location ∧
        create_reminder_sync URLWithString_ self title list_id notes url
          due_date start_date priority location w
        = if saveReminder_ok st r then
            (Ok (ek_reminder_to_dict r),
             set_event_store
               (set_calendarItems (calendarItems st ++ [ItemReminder r])
                  (set_allocated (S (allocated st)) st)) w)
          else
            (Raised (EventKitError ("Failed to create reminder: " +:+ title)
                       None None), allocated_w)
  end.
Proof.
  intros st ids allocated_w.
  unfold create_reminder_sync, reminderWithEventStore_,
    saveReminder_commit_error_new, bind, get_store, put_store, ret, raise.
  unfold calendarWithIdentifier_.
  cbn [event_store set_event_store calendars defaultCalendarForNewReminders
       set_allocated calendarItems saveReminder_ok allocated newIdentifiers].
  fold st.
  destruct (str_truthy list_id).
  - destruct (list_find _ _) as [[j calendar]|]; [|done].
    cbn [fmap option_fmap option_map snd event_store set_event_store
         saveReminder_ok set_allocated].
    fold st.
    match goal with
    | |- context [saveReminder_ok st ?x] => exists x
    end.
    split_and!;
      try (destruct (str_truthy notes), (str_truthy url), due_date, start_date,
             (priority =? 0), location; reflexivity).
    + unfold made_with.
      destruct (priority =? 0) eqn:E; [apply Z.eqb_eq in E|];
        destruct (str_truthy notes), (str_truthy url), due_date, start_date,
          location; by split_and!.
    + by destruct (saveReminder_ok st _).
  - destruct (defaultCalendarForNewReminders st) as [calendar|]; [|done].
    cbn [event_store set_event_store saveReminder_ok set_allocated].
    fold st.
    match goal with
    | |- context [saveReminder_ok st ?x] => exists x
    end.
    split_and!;
      try (destruct (str_truthy notes), (str_truthy url), due_date, start_date,
             (priority =? 0), location; reflexivity).
    + unfold made_with.
      destruct (priority =? 0) eqn:E; [apply Z.eqb_eq in E|];
        destruct (str_truthy notes), (str_truthy url), due_date, start_date,
          location; by split_and!.
    + by destruct (saveReminder_ok st _).
Qed.

Lemma local_from_app_other n i items x :
  item_identifier x ≠ i →
  local_from n i (items ++ [x]) = local_from n i items.
Proof.
  intros Hx. revert n. induction items as [|it rest IH]; intros n; simpl.
  - by rewrite decide_False.
  - destruct (decide _); [done|apply IH].
Qed.

Lemma external_from_app_other n i items x :
  item_externalIdentifier x ≠ i →
  external_from n i (items ++ [x]) = external_from n i items.
Proof.
  intros Hx. revert n. induction items as [|it rest IH]; intros n; simpl.
  - destruct x as [r|a b]; [|done]. simpl in Hx. by rewrite decide_False.
  - destruct it as [r|a b]; [|apply IH].
    destruct (decide _); [done|apply IH].
Qed.

Lemma resolve_app_other i items x :
  ¬ carries i x → resolve i (items ++ [x]) = resolve i items.
Proof.
  intros Hc. unfold resolve.
  rewrite local_from_app_other by (intros E; apply Hc; by left).
  by rewrite external_from_app_other by (intros E; apply Hc; by right).
Qed.

Lemma create_reminder_Ok URLWithString_ (w w' : World) self title list_id notes
    url due_date start_date priority location rem :
  _instance w = Some self →
  create_reminder URLWithString_ title list_id notes url due_date start_date
    priority location w = (Ok rem, w') →
  let st := event_store w in
  ∃ calendar r,
    (if str_truthy list_id
     then calendarWithIdentifier_ st (default EmptyString list_id)
     else defaultCalendarForNewReminders st) = Some calendar ∧
    calendarItemIdentifier r = fst (newIdentifiers st (allocated st)) ∧
    calendarItemExternalIdentifier r = snd (newIdentifiers st (allocated st)) ∧
    ek_title r = Some title ∧ ek_calendar r = calendar ∧ isCompleted r = false ∧
    made_with URLWithString_ r notes url due_date start_date
      (Priority_int priority) location ∧
    rem = Reminder_of (ek_reminder_to_dict r) ∧
    w' = set_event_store
           (set_calendarItems (calendarItems st ++ [ItemReminder r])
              (set_allocated (S (allocated st)) st)) w.
Proof.
  intros Hinst. unfold create_reminder.
  rewrite (tool_committed w self _ _ Hinst). intros Hrun.
  set (st := event_store w).
  pose proof (create_reminder_sync_cases URLWithString_ self title list_id notes
                url due_date start_date (Priority_int priority) location w) as H.
  cbv zeta in H. fold st in H.
  destruct (if str_truthy list_id then _ else _) as [calendar|].
  - destruct H as (r & Hi & He & Ht & Hc & Hd & Hm & H). rewrite H in Hrun.
    destruct (saveReminder_ok st r); [|done]. injection Hrun as <- <-.
    by exists calendar, r.
  - by rewrite H in Hrun.
Qed.

(** X17. A reminder just created is read back by the id it was returned
    with, when no stored item carried the identifier the framework gave it:
    [get_reminder] returns the reminder [create_reminder] returned. It has
    the title passed in and is not completed; the store holds one item
    more, and every other id reads as before. *)
Theorem create_reminder_then_get :
  ∀ (URLWithString_ : string → option NSURL) (w w' : World)
    (self : ReminderStore) (title : string) (list_id notes url : option string)
    (due_date start_date : option datetime) (priority : Priority)
    (location : option LocationTrigger) (rem : Reminder),
    let st := event_store w in
    let ids := newIdentifiers st (allocated st) in
    _instance w = Some self →
    Forall (λ it, ¬ carries (snd ids) it) (calendarItems st) →
    create_reminder URLWithString_ title list_id notes url due_date start_date
      priority location w = (Ok rem, w') →
    r_id rem = snd ids ∧ r_title rem = title ∧ r_is_completed rem = false ∧
    get_reminder (r_id rem) w' = (Ok rem, w') ∧
    length (calendarItems (event_store w')) = S (length (calendarItems st)) ∧
    ∀ other, other ≠ fst ids → other ≠ snd ids →
             fst (get_reminder other w') = fst (get_reminder other w).
Proof.
  intros U w w' self title list_id notes url due start prio loc rem st ids
    Hinst Hfresh Hrun.
  apply (create_reminder_Ok U w w' self) in Hrun; [|done].
  cbv zeta in Hrun. fold st in Hrun. fold ids in Hrun.
  destruct Hrun as (calendar & r & _ & Hi & He & Ht & _ & Hd & _ & -> & ->).
  set (w' := set_event_store _ w).
  assert (Hitems : calendarItems (event_store w')
                   = calendarItems st ++ [ItemReminder r]) by done.
  split_and!.
  - exact He.
  - cbn [r_title Reminder_of d_title ek_reminder_to_dict]. rewrite Ht.
    by destruct title.
  - exact Hd.
  - cbn [r_id Reminder_of d_id ek_reminder_to_dict].
    rewrite (get_reminder_resolve w' self _ Hinst), Hitems, He.
    by rewrite (resolve_app_fresh (snd ids) _ r Hfresh He).
  - by rewrite Hitems, length_app, Nat.add_1_r.
  - intros other Hl Hx.
    rewrite (get_reminder_resolve w' self _ Hinst),
            (get_reminder_resolve w self _ Hinst), Hitems.
    rewrite resolve_app_other.
    + fold st. by destruct (snd <$> resolve other (calendarItems st)).
    + intros [H|H]; simpl in H; congruence.
Qed.

Lemma create_reminder_then_get_witness :
  get_reminder "external-0"
    (snd (create_reminder demo_URLWithString_ "Water plants" None (Some "daily")
            None None None HIGH None alarm_world))
  = create_reminder demo_URLWithString_ "Water plants" None (Some "daily")
      None None None HIGH None alarm_world.
Proof.
  assert (E : ∃ rem, fst (create_reminder demo_URLWithString_ "Water plants" None
                            (Some "daily") None None None HIGH None alarm_world)
                     = Ok rem) by (eexists; vm_compute; reflexivity).
  destruct E as [rem E].
  destruct (create_reminder_then_get demo_URLWithString_ alarm_world
              (snd (create_reminder demo_URLWithString_ "Water plants" None
                      (Some "daily") None None None HIGH None alarm_world))
              {| _access_granted := true |} "Water plants" None (Some "daily")
              None None None HIGH None rem) as (Hid & _ & _ & Hget & _).
  - reflexivity.
  - repeat constructor; intros [H|H]; vm_compute in H; discriminate H.
  - rewrite <- E. apply surjective_pairing.
  - change (snd (newIdentifiers (event_store alarm_world)
                   (allocated (event_store alarm_world)))) with "external-0" in Hid.
    rewrite Hid in Hget. rewrite Hget, <- E. symmetry. apply surjective_pairing.
Defined.

(** X18. The list of a new reminder. A non-empty [list_id] names it, and
    [create_reminder] raises [NotFoundError("List", list_id)] when the store
    has no such list; with [list_id] [None] or empty the default list is
    used, and the call raises [NoWritableSourceError] when there is none.
    In both cases the stored items are those from before. *)
Theorem create_reminder_list_choice :
  ∀ (URLWithString_ : string → option NSURL) (w : World) (self : ReminderStore)
    (title : string) (list_id notes url : option string)
    (due_date start_date : option datetime) (priority : Priority)
    (location : option LocationTrigger),
    let st := event_store w in
    _instance w = Some self →
    match create_reminder URLWithString_ title list_id notes url due_date
            start_date priority location w with
    | (Ok rem, w') =>
        if str_truthy list_id
        then list_id = Some (r_list_id rem) ∧
             r_list_id rem ∈ calendarIdentifier <$> calendars st
        else calendarIdentifier <$> defaultCalendarForNewReminders st
             = Some (r_list_id rem)
    | (Raised e, w') =>
        (str_truthy list_id = true →
         default EmptyString list_id ∉ calendarIdentifier <$> calendars st →
         e = NotFoundError "List" (default EmptyString list_id) ∧
         calendarItems (event_store w') = calendarItems st) ∧
        (str_truthy list_id = false →
         defaultCalendarForNewReminders st = None →
         e = NoWritableSourceError ∧
         calendarItems (event_store w') = calendarItems st)
    end.
Proof.
  intros U w self title list_id notes url due start prio loc st Hinst.
  unfold create_reminder. rewrite (tool_committed w self _ _ Hinst).
  pose proof (create_reminder_sync_cases U self title list_id notes
                url due start (Priority_int prio) loc w) as H.
  cbv zeta in H. fold st in H. unfold calendarWithIdentifier_ in H.
  destruct (str_truthy list_id) eqn:Etruthy.
  - destruct (list_find _ _) as [[j calendar]|] eqn:Hfind; simpl in H.
    + apply list_find_Some in Hfind as (Hj & Hid & _).
      destruct H as (r & _ & _ & _ & Hc & _ & _ & ->).
      assert (Hin : calendarIdentifier calendar
                    ∈ calendarIdentifier <$> calendars st).
      { apply list_elem_of_fmap. exists calendar. split; [done|].
        by eapply list_elem_of_lookup_2. }
      destruct (saveReminder_ok st r).
      * cbn [r_list_id Reminder_of d_list_id ek_reminder_to_dict]. rewrite Hc.
        split; [|done]. rewrite Hid.
        by destruct list_id as [[|]|].
      * split; [|done]. intros _ Hnot. exfalso. apply Hnot.
        by rewrite <- Hid.
    + rewrite H. by split.
  - destruct (defaultCalendarForNewReminders st) as [calendar|] eqn:Hdef.
    + destruct H as (r & _ & _ & _ & Hc & _ & _ & ->).
      destruct (saveReminder_ok st r).
      * cbn [r_list_id Reminder_of d_list_id ek_reminder_to_dict].
        by rewrite Hc.
      * by split.
    + rewrite H. by split.
Qed.

Lemma create_reminder_list_choice_witness :
  fst (create_reminder demo_URLWithString_ "Water plants" (Some "nowhere") None
         None None None NONE None alarm_world)
  = Raised (NotFoundError "List" "nowhere").
Proof.
  pose proof (create_reminder_list_choice demo_URLWithString_ alarm_world
                {| _access_granted := true |} "Water plants" (Some "nowhere")
                None None None None NONE None eq_refl) as H.
  destruct (create_reminder _ _ _ _ _ _ _ _ _ _) as [[rem|e] w'] eqn:E.
  - vm_compute in E. discriminate E.
  - destruct H as (He & _). simpl. destruct He as [-> _]; [reflexivity| |done].
    intros H. vm_compute in H.
    repeat (apply elem_of_cons in H as [H|H]; [discriminate H|]).
    by apply elem_of_nil in H.
Defined.

(** ** What the handlers leave alone *)

Lemma set_event_store_twice (a b : EKEventStore) (w : World) :
  set_event_store a (set_event_store b w) = set_event_store a w.
Proof. reflexivity. Qed.

Lemma set_event_store_same (w : World) : set_event_store (event_store w) w = w.
Proof. by destruct w. Qed.

Lemma store_only_ret {A} (a : A) : store_only (ret a).
Proof. intros w. apply set_event_store_same. Qed.

Lemma store_only_raise {A} (e : Exc) : store_only (@raise A e).
Proof. intros w. apply set_event_store_same. Qed.

Lemma store_only_get_store : store_only get_store.
Proof. intros w. apply set_event_store_same. Qed.

Lemma store_only_put_store (st : EKEventStore) : store_only (put_store st).
Proof. intros w. reflexivity. Qed.

Lemma store_only_bind {A B} (m : M A) (k : A → M B) :
  store_only m → (∀ a, store_only (k a)) → store_only (bind m k).
Proof.
  intros Hm Hk w. unfold bind. specialize (Hm w).
  destruct (m w) as [[a|e] w1]; simpl in *; [|done].
  specialize (Hk a w1). rewrite <- Hk at 2. rewrite <- Hm.
  by rewrite set_event_store_twice.
Qed.

Lemma store_only_try_except {A} (m : M A) :
  store_only m → store_only (try_except m).
Proof.
  intros Hm w. unfold try_except. specialize (Hm w). by destruct (m w).
Qed.

Lemma store_only_committed {A} (k : ReminderStore → M A) (w : World) self :
  _instance w = Some self → store_only (k self) →
  set_event_store (event_store (snd ((let* store := get_instance in k store) w))) w
  = snd ((let* store := get_instance in k store) w).
Proof.
  intros Hinst Hk. unfold bind. rewrite (get_instance_some w self Hinst).
  apply Hk.
Qed.

Ltac store_only_step :=
  first [ apply store_only_ret | apply store_only_raise
        | apply store_only_get_store | apply store_only_put_store
        | apply store_only_try_except
        | apply store_only_bind; [|intros ?]
        | progress case_match ].

Lemma store_only__get_reminder_by_id i : store_only (_get_reminder_by_id i).
Proof. unfold _get_reminder_by_id. repeat store_only_step. Qed.

Lemma store_only_saveReminder k r : store_only (saveReminder_commit_error_ k r).
Proof. unfold saveReminder_commit_error_. repeat store_only_step. Qed.

Lemma store_only_get_lists_sync self : store_only (get_lists_sync self).
Proof. unfold get_lists_sync. repeat store_only_step. Qed.

Lemma store_only_get_list_sync self l : store_only (get_list_sync self l).
Proof. unfold get_list_sync. repeat store_only_step. Qed.

Lemma store_only_get_reminders_sync self l c b a :
  store_only (get_reminders_sync self l c b a).
Proof. unfold get_reminders_sync. repeat store_only_step. Qed.

Lemma store_only_get_reminder_sync self i : store_only (get_reminder_sync self i).
Proof. unfold get_reminder_sync. repeat store_only_step. Qed.

Lemma store_only_create_reminder_sync U self t l n u d s p loc :
  store_only (create_reminder_sync U self t l n u d s p loc).
Proof.
  unfold create_reminder_sync, reminderWithEventStore_,
    saveReminder_commit_error_new.
  repeat store_only_step.
Qed.

Lemma store_only_update_reminder_sync U self i t n u d s p loc c :
  store_only (update_reminder_sync U self i t n u d s p loc c).
Proof.
  unfold update_reminder_sync.
  apply store_only_bind; [apply store_only__get_reminder_by_id|intros [k r]].
  apply store_only_bind; [apply store_only_saveReminder|intros ?].
  repeat store_only_step.
Qed.

Lemma store_only_complete_reminder_sync self i c :
  store_only (complete_reminder_sync self i c).
Proof.
  unfold complete_reminder_sync.
  apply store_only_bind; [apply store_only__get_reminder_by_id|intros [k r]].
  apply store_only_bind; [apply store_only_saveReminder|intros ?].
  repeat store_only_step.
Qed.

Lemma store_only_delete_reminder_sync self i :
  store_only (delete_reminder_sync self i).
Proof.
  unfold delete_reminder_sync, removeReminder_commit_error_.
  apply store_only_bind; [apply store_only__get_reminder_by_id|intros [k r]].
  repeat store_only_step.
Qed.

Lemma store_only_move_reminder_sync self i l :
  store_only (move_reminder_sync self i l).
Proof.
  unfold move_reminder_sync.
  apply store_only_bind; [apply store_only__get_reminder_by_id|intros [k r]].
  apply store_only_bind; [apply store_only_get_store|intros st].
  destruct (calendarWithIdentifier_ st l); [|apply store_only_raise].
  apply store_only_bind; [apply store_only_saveReminder|intros ?].
  repeat store_only_step.
Qed.

Lemma store_only_batch_loop {A} (op : string → M A) items acc :
  (∀ i, store_only (op i)) → store_only (batch_loop op items acc).
Proof.
  intros Hop. revert acc. induction items as [|i rest IH]; intros acc; simpl.
  - apply store_only_ret.
  - apply store_only_bind; [apply store_only_try_except, Hop|].
    intros [a|e]; apply IH.
Qed.

Lemma store_only_add_reminders_loop U self list_id items created :
  store_only (add_reminders_loop U self list_id items created).
Proof.
  revert created. induction items as [|i rest IH]; intros created; simpl.
  - apply store_only_ret.
  - apply store_only_bind.
    + apply store_only_try_except, store_only_create_reminder_sync.
    + intros [a|e]; apply IH.
Qed.

Lemma store_only_complete_reminders_loop self ids acc :
  store_only (complete_reminders_loop self ids acc).
Proof.
  intros w. rewrite complete_reminders_loop_batch.
  apply store_only_batch_loop. intros i. apply store_only_complete_reminder_sync.
Qed.

Lemma store_only_delete_reminders_loop self ids acc :
  store_only (delete_reminders_loop self ids acc).
Proof.
  intros w. rewrite delete_reminders_loop_batch.
  apply store_only_batch_loop. intros i. apply store_only_delete_reminder_sync.
Qed.

(** X19. Once the instance is committed, no handler makes a permission
    request, replaces the instance or touches the environment: the process
    after any of the twelve handlers modelled is the process before it
    with, at most, another content of the native store. *)
Theorem handlers_touch_only_the_store :
  ∀ (URLWithString_ : string → option NSURL) (str_lower : string → string)
    (w : World) (self : ReminderStore),
    _instance w = Some self →
    let only_store {A} (handler : M A) : Prop :=
      set_event_store (event_store (snd (handler w))) w = snd (handler w) in
    only_store list_reminder_lists ∧
    (∀ l c b a lim off, only_store (get_reminders l c b a lim off)) ∧
    (∀ i, only_store (get_reminder i)) ∧
    (∀ t l n u d s p loc,
        only_store (create_reminder URLWithString_ t l n u d s p loc)) ∧
    (∀ i t n u d s p loc c,
        only_store (update_reminder URLWithString_ i t n u d s p loc c)) ∧
    (∀ i c, only_store (complete_reminder i c)) ∧
    (∀ i, only_store (delete_reminder i)) ∧
    (∀ i l, only_store (move_reminder i l)) ∧
    (∀ q l c lim off, only_store (search_reminders str_lower q l c lim off)) ∧
    (∀ ids, only_store (complete_reminders ids)) ∧
    (∀ ids, only_store (delete_reminders ids)) ∧
    (∀ l items, only_store (add_reminders URLWithString_ l items)).
Proof.
  intros U lower w self Hinst only_store. unfold only_store.
  split_and!; intros;
    apply (store_only_committed _ w self Hinst); unfold run_eventkit;
    repeat first
      [ apply store_only_ret
      | apply store_only_get_lists_sync
      | apply store_only_get_reminders_sync
      | apply store_only_get_reminder_sync
      | apply store_only_create_reminder_sync
      | apply store_only_update_reminder_sync
      | apply store_only_complete_reminder_sync
      | apply store_only_delete_reminder_sync
      | apply store_only_move_reminder_sync
      | apply store_only_complete_reminders_loop
      | apply store_only_delete_reminders_loop
      | apply store_only_add_reminders_loop
      | apply store_only_bind; [|intros ?] ].
Qed.

Lemma handlers_touch_only_the_store_witness :
  access_requests (snd (delete_reminders ["a"; "zzz"] alarm_world)) = 1%nat ∧
  _instance (snd (delete_reminders ["a"; "zzz"] alarm_world))
  = Some {| _access_granted := true |}.
Proof.
  destruct (handlers_touch_only_the_store demo_URLWithString_ lower_ascii
              alarm_world {| _access_granted := true |})
    as (_ & _ & _ & _ & _ & _ & _ & _ & _ & _ & H & _).
  - reflexivity.
  - specialize (H ["a"; "zzz"]). rewrite <- H. split; reflexivity.
Defined.

(** ** Batches *)

Lemma store_only_instance {A} (m : M A) (w : World) :
  store_only m → _instance (snd (m w)) = _instance w.
Proof. intros H. by rewrite <- (H w). Qed.

Lemma world_after_app {A} (op : string → M A) a b w :
  world_after op (a ++ b) w = world_after op b (world_after op a w).
Proof. revert w. induction a as [|i a IH]; intros w; simpl; [done|apply IH]. Qed.

Lemma returned_values_app {A} (op : string → M A) a b w :
  returned_values op (a ++ b) w
  = returned_values op a w ++ returned_values op b (world_after op a w).
Proof.
  revert w. induction a as [|i a IH]; intros w; simpl; [done|].
  destruct (op i w) as [[x|e] w']; simpl; by rewrite IH.
Qed.

Lemma failing_items_app {A} (op : string → M A) a b w :
  failing_items op (a ++ b) w
  = failing_items op a w ++ failing_items op b (world_after op a w).
Proof.
  revert w. induction a as [|i a IH]; intros w; simpl; [done|].
  destruct (op i w) as [[x|e] w']; simpl; by rewrite IH.
Qed.

Lemma failing_messages_app {A} (op : string → M A) a b w :
  failing_messages op (a ++ b) w
  = failing_messages op a w ++ failing_messages op b (world_after op a w).
Proof.
  revert w. induction a as [|i a IH]; intros w; simpl; [done|].
  destruct (op i w) as [[x|e] w']; simpl; by rewrite IH.
Qed.

Lemma batch_from_start_app {A} (op : string → M A) a b w :
  batch_loop op (a ++ b) batch_start w
  = match batch_loop op a batch_start w with
    | (Ok b1, w1) =>
        match batch_loop op b batch_start w1 with
        | (Ok b2, w2) => (Ok (batch_merge b1 b2), w2)
        | (Raised e, w2) => (Raised e, w2)
        end
    | (Raised e, w1) => (Raised e, w1)
    end.
Proof.
  rewrite !batch_from_start.
  rewrite world_after_app, returned_values_app, failing_items_app,
    failing_messages_app.
  unfold batch_merge. cbn [successes failures failed_ids errors].
  rewrite !length_app, !Nat2Z.inj_add. done.
Qed.

Lemma world_after_instance {A} (op : string → M A) items w :
  (∀ i, store_only (op i)) → _instance (world_after op items w) = _instance w.
Proof.
  intros Hop. revert w. induction items as [|i rest IH]; intros w; simpl; [done|].
  by rewrite IH, (store_only_instance _ _ (Hop i)).
Qed.

(** X20. A batch over [a ++ b] is the batch over [a] followed by the batch
    over [b] on the store the first one left: the counts add up and the
    failed ids and the messages are appended; for [add_reminders] the two
    lists of created reminders are appended. *)
Theorem batch_tools_split :
  ∀ (URLWithString_ : string → option NSURL) (w : World) (self : ReminderStore)
    (a b : list string),
    _instance w = Some self →
    (∃ b1 b2 w1 w2,
        complete_reminders a w = (Ok b1, w1) ∧
        complete_reminders b w1 = (Ok b2, w2) ∧
        complete_reminders (a ++ b) w = (Ok (batch_merge b1 b2), w2)) ∧
    (∃ b1 b2 w1 w2,
        delete_reminders a w = (Ok b1, w1) ∧
        delete_reminders b w1 = (Ok b2, w2) ∧
        delete_reminders (a ++ b) w = (Ok (batch_merge b1 b2), w2)) ∧
    (∀ list_id, ∃ l1 l2 w1 w2,
        add_reminders URLWithString_ list_id a w = (Ok (BareList l1), w1) ∧
        add_reminders URLWithString_ list_id b w1 = (Ok (BareList l2), w2) ∧
        add_reminders URLWithString_ list_id (a ++ b) w
          = (Ok (BareList (l1 ++ l2)), w2)).
Proof.
  intros U w self a b Hinst. split_and!.
  - set (op := λ i, complete_reminder_sync self i true).
    assert (Hw1 : _instance (world_after op a w) = Some self).
    { rewrite world_after_instance; [done|].
      intros i. apply store_only_complete_reminder_sync. }
    eexists _, _, (world_after op a w), (world_after op b (world_after op a w)).
    unfold complete_reminders, bind.
    rewrite (get_instance_some _ _ Hinst), (get_instance_some _ _ Hw1).
    rewrite !complete_reminders_loop_batch. fold op.
    rewrite batch_from_start_app, !batch_from_start. done.
  - set (op := λ i, delete_reminder_sync self i).
    assert (Hw1 : _instance (world_after op a w) = Some self).
    { rewrite world_after_instance; [done|].
      intros i. apply store_only_delete_reminder_sync. }
    eexists _, _, (world_after op a w), (world_after op b (world_after op a w)).
    unfold delete_reminders, bind.
    rewrite (get_instance_some _ _ Hinst), (get_instance_some _ _ Hw1).
    rewrite !delete_reminders_loop_batch. fold op.
    rewrite batch_from_start_app, !batch_from_start. done.
  - intros list_id.
    set (op := λ title, create_reminder_sync U self title list_id
                          None None None None 0 None).
    assert (Hw1 : _instance (world_after op a w) = Some self).
    { rewrite world_after_instance; [done|].
      intros i. apply store_only_create_reminder_sync. }
    eexists _, _, (world_after op a w), (world_after op b (world_after op a w)).
    unfold add_reminders, bind, ret.
    rewrite (get_instance_some _ _ Hinst), (get_instance_some _ _ Hw1).
    rewrite !add_reminders_loop_spec. fold op.
    rewrite world_after_app, returned_values_app, fmap_app. done.
Qed.

Lemma batch_tools_split_witness :
  ∃ b1 b2,
    fst (complete_reminders ["a"; "zzz"] alarm_world) = Ok b1 ∧
    fst (complete_reminders ["c"]
           (snd (complete_reminders ["a"; "zzz"] alarm_world))) = Ok b2 ∧
    fst (complete_reminders ["a"; "zzz"; "c"] alarm_world)
      = Ok (batch_merge b1 b2).
Proof.
  destruct (batch_tools_split demo_URLWithString_ alarm_world
              {| _access_granted := true |} ["a"; "zzz"] ["c"] eq_refl)
    as ((b1 & b2 & w1 & w2 & H1 & H2 & H12) & _).
  exists b1, b2. split_and!.
  - by rewrite H1.
  - rewrite H1. cbn [snd]. by rewrite H2.
  - exact (f_equal fst H12).
Defined.

Lemma alike_refl it : alike it it.
Proof. by split_and!. Qed.

Lemma alike_trans a b c : alike a b → alike b c → alike a c.
Proof. intros (?&?&?) (?&?&?). split_and!; congruence. Qed.

Lemma Forall2_alike_insert items k r r' :
  items !! k = Some (ItemReminder r) →
  calendarItemIdentifier r' = calendarItemIdentifier r →
  calendarItemExternalIdentifier r' = calendarItemExternalIdentifier r →
  Forall2 alike items (<[k := ItemReminder r']> items).
Proof.
  intros Hk Hi He.
  rewrite <- (list_insert_id items k (ItemReminder r)) at 1 by done.
  apply Forall2_insert; [|by split_and!].
  apply Forall_Forall2_diag, Forall_forall. intros it _. apply alike_refl.
Qed.

Lemma Forall2_alike_trans l1 l2 l3 :
  Forall2 alike l1 l2 → Forall2 alike l2 l3 → Forall2 alike l1 l3.
Proof.
  intros H. revert l3. induction H as [|a b l1 l2 Hab _ IH]; intros l3 H23.
  - by apply Forall2_nil_inv_l in H23 as ->.
  - apply Forall2_cons_inv_l in H23 as (c & l3' & Hbc & H23 & ->).
    constructor; [by eapply alike_trans|by apply IH].
Qed.

Lemma resolve_alike_None i l l' :
  Forall2 alike l l' → resolve i l = None ↔ resolve i l' = None.
Proof.
  intros H. pose proof (resolve_alike i l l' H) as Hr.
  destruct (resolve i l) as [[k r]|], (resolve i l') as [[k' r']|]; done.
Qed.

Lemma filter_nil_Forall {A} (P : A → Prop) `{∀ x, Decision (P x)} (l : list A) :
  Forall (λ x, ¬ P x) l → filter P l = [].
Proof.
  induction 1 as [|x l Hx _ IH]; [done|].
  by rewrite filter_cons, decide_False.
Qed.

(** The loop of [complete_reminders] on a store that accepts every save. *)
Lemma complete_loop_accepting self (items0 : list EKCalendarItem) ids (w : World) :
  let op := λ i, complete_reminder_sync self i true in
  (∀ r, saveReminder_ok (event_store w) r = true) →
  Forall2 alike items0 (calendarItems (event_store w)) →
  failing_items op ids w = filter (λ i, resolve i items0 = None) ids ∧
  failing_messages op ids w
    = (λ i, "Reminder not found: " +:+ i)
        <$> filter (λ i, resolve i items0 = None) ids ∧
  Forall2 alike items0 (calendarItems (event_store (world_after op ids w))).
Proof.
  intros op. revert w. induction ids as [|i rest IH]; intros w Hok Hal.
  - done.
  - cbn [failing_items failing_messages world_after]. rewrite filter_cons.
    change (op i w) with (complete_reminder_sync self i true w).
    rewrite complete_reminder_sync_resolve.
    pose proof (resolve_alike_None i _ _ Hal) as Hnone.
    destruct (resolve i (calendarItems (event_store w))) as [[k r]|] eqn:Hres.
    + rewrite Hok. cbn [snd].
      rewrite decide_False by (rewrite Hnone; done).
      apply IH; [done|].
      eapply Forall2_alike_trans; [exact Hal|].
      apply resolve_Some in Hres as [Hk _].
      by apply (Forall2_alike_insert _ k r).
    + rewrite decide_True by (by apply Hnone).
      cbn [snd]. destruct (IH w Hok Hal) as (-> & -> & H). by split_and!.
Qed.



(** The list [add_reminders] puts every new reminder in. *)
Lemma chosen_calendar_allocated (list_id : option string) (st : EKEventStore)
    items n :
  (if str_truthy list_id
   then calendarWithIdentifier_ (set_calendarItems items (set_allocated n st))
          (default EmptyString list_id)
   else defaultCalendarForNewReminders
          (set_calendarItems items (set_allocated n st)))
  = (if str_truthy list_id
     then calendarWithIdentifier_ st (default EmptyString list_id)
     else defaultCalendarForNewReminders st).
Proof. reflexivity. Qed.

Lemma add_reminders_loop_accepting URLWithString_ self (list_id : option string)
    (calendar : EKCalendar) (items : list string) (created : list Reminder)
    (w : World) :
  let st := event_store w in
  (∀ r, saveReminder_ok st r = true) →
  (if str_truthy list_id
   then calendarWithIdentifier_ st (default EmptyString list_id)
   else defaultCalendarForNewReminders st) = Some calendar →
  ∃ new w',
    add_reminders_loop URLWithString_ self list_id items created w
      = (Ok (created ++ new), w') ∧
    r_title <$> new = items ∧
    r_id <$> new
      = (λ n, snd (newIdentifiers st (allocated st + n)%nat))
          <$> seq 0 (length items) ∧
    Forall (λ r, r_list_id r = calendarIdentifier calendar ∧
                 r_is_completed r = false) new ∧
    length (calendarItems (event_store w'))
      = (length (calendarItems st) + length items)%nat.
Proof.
  revert created w. induction items as [|title rest IH]; intros created w st Hok Hcal.
  - exists [], w. rewrite app_nil_r, Nat.add_0_r. by split_and!.
  - cbn [add_reminders_loop]. unfold bind at 1, try_except, run_eventkit.
    pose proof (create_reminder_sync_cases URLWithString_ self title list_id
                  None None None None 0 None w) as H.
    cbv zeta in H. fold st in H. rewrite Hcal in H.
    destruct H as (r & Hi & He & Ht & Hc & Hd & _ & ->). rewrite Hok.
    set (w1 := set_event_store _ w).
    destruct (IH (created ++ [Reminder_of (ek_reminder_to_dict r)]) w1)
      as (new & w' & Hrun & Htitles & Hids & Hall & Hlen).
    { intros r0. apply Hok. }
    { exact Hcal. }
    exists (Reminder_of (ek_reminder_to_dict r) :: new), w'.
    split_and!.
    + rewrite Hrun. by rewrite <- app_assoc.
    + rewrite fmap_cons, Htitles.
      cbn [r_title Reminder_of d_title ek_reminder_to_dict]. rewrite Ht.
      by destruct title.
    + rewrite fmap_cons, Hids. cbn [length seq fmap list_fmap].
      cbn [r_id Reminder_of d_id ek_reminder_to_dict]. rewrite He, Nat.add_0_r.
      f_equal. rewrite <- fmap_S_seq, <- list_fmap_compose.
      apply list_fmap_ext. intros j n _. simpl. do 2 f_equal. lia.
    + constructor; [|exact Hall].
      cbn [r_list_id r_is_completed Reminder_of d_list_id d_is_completed
           ek_reminder_to_dict]. by rewrite Hc, Hd.
    + rewrite Hlen. unfold w1. simpl. rewrite length_app. simpl. lia.
Qed.

(** X22. [add_reminders] on a store that accepts every save, into an
    existing list (or the default list): one reminder is returned per title,
    in input order, with that title, in that list, not completed, and with
    the identifiers the framework hands out in sequence; the store grows by
    the number of titles. *)
Theorem add_reminders_all_created :
  ∀ (URLWithString_ : string → option NSURL) (w : World) (self : ReminderStore)
    (list_id : option string) (calendar : EKCalendar) (items : list string),
    let st := event_store w in
    _instance w = Some self →
    (∀ r, saveReminder_ok st r = true) →
    (if str_truthy list_id
     then calendarWithIdentifier_ st (default EmptyString list_id)
     else defaultCalendarForNewReminders st) = Some calendar →
    ∃ created w',
      add_reminders URLWithString_ list_id items w = (Ok (BareList created), w') ∧
      r_title <$> created = items ∧
      r_id <$> created
        = (λ n, snd (newIdentifiers st (allocated st + n)%nat))
            <$> seq 0 (length items) ∧
      Forall (λ r, r_list_id r = calendarIdentifier calendar ∧
                   r_is_completed r = false) created ∧
      length (calendarItems (event_store w'))
        = (length (calendarItems st) + length items)%nat.
Proof.
  intros U w self list_id calendar items st Hinst Hok Hcal.
  destruct (add_reminders_loop_accepting U self list_id calendar items [] w Hok Hcal)
    as (new & w' & Hrun & H).
  exists new, w'. split; [|exact H].
  unfold add_reminders, bind, ret. rewrite (get_instance_some _ _ Hinst).
  by rewrite Hrun.
Qed.

Lemma add_reminders_all_created_witness :
  ∃ created,
    fst (add_reminders demo_URLWithString_ (Some "work") ["Milk"; "Eggs"]
           alarm_world) = Ok (BareList created) ∧
    r_title <$> created = ["Milk"; "Eggs"] ∧
    r_id <$> created = ["external-0"; "external-1"].
Proof.
  destruct (add_reminders_all_created demo_URLWithString_ alarm_world
              {| _access_granted := true |} (Some "work") demo_work_calendar
              ["Milk"; "Eggs"]) as (created & w' & Hrun & Ht & Hid & _).
  - reflexivity.
  - reflexivity.
  - reflexivity.
  - exists created. rewrite Hrun. split_and!; [done|exact Ht|].
    rewrite Hid. vm_compute. reflexivity.
Defined.

(** X23. What [get_reminders] does not look at. With
    [include_completed=True] the due-date filters are not used: the call is
    the one without them. An empty [list_id] is no list filter. *)
Theorem get_reminders_ignored_filters :
  ∀ (list_id : option string) (include_completed : bool)
    (due_before due_after : option datetime) (limit : option Z) (offset : Z)
    (w : World),
    get_reminders list_id true due_before due_after limit offset w
      = get_reminders list_id true None None limit offset w ∧
    get_reminders (Some EmptyString) include_completed due_before due_after
      limit offset w
      = get_reminders None include_completed due_before due_after limit offset w.
Proof.
  intros. split; reflexivity.
Qed.



(** ** Lists *)



(** X26. [get_list_sync] on the id of a list returns that list as
    [get_lists_sync] lists it: the first entry with this id, with the same
    title and color. Its [is_default] is that entry's when the store has a
    default list, and [None] when it has none. For an id that no list has
    it raises [NotFoundError("List", id)]. Neither changes anything. *)
Theorem get_list_sync_agrees_with_get_lists_sync :
  ∀ (self : ReminderStore) (list_id : string) (w : World),
    let st := event_store w in
    ∃ lists,
      get_lists_sync self w = (Ok lists, w) ∧
      match list_find (λ d, ldt_id d = list_id) lists with
      | Some (_, entry) =>
          ∃ d, get_list_sync self list_id w = (Ok d, w) ∧
               lsd_id d = list_id ∧ lsd_title d = ldt_title entry ∧
               lsd_color d = ldt_color entry ∧
               lsd_is_default d
               = match defaultCalendarForNewReminders st with
                 | Some _ => Some (ldt_is_default entry)
                 | None => None
                 end
      | None =>
          get_list_sync self list_id w = (Raised (NotFoundError "List" list_id), w)
      end.
Proof.
  intros self l w st. eexists. split; [reflexivity|].
  unfold get_list_sync, bind, get_store, calendarWithIdentifier_. fold st.
  cbn [event_store]. fold st.
  rewrite list_find_fmap.
  assert (Hext : ∀ c, (λ d, ldt_id d = l) (ek_calendar_to_dict c
                   (bool_decide (Some (calendarIdentifier c)
                                 = calendarIdentifier
                                     <$> defaultCalendarForNewReminders st)))
                 ↔ calendarIdentifier c = l) by done.
  destruct (list_find (λ c, calendarIdentifier c = l) (calendars st))
    as [[k cal]|] eqn:Hfind.
  - rewrite (list_find_ext _ (λ c, calendarIdentifier c = l)) by done.
    rewrite Hfind. simpl.
    apply list_find_Some in Hfind as (_ & Hid & _).
    eexists. split; [reflexivity|]. simpl. split_and!; [done..|].
    destruct (defaultCalendarForNewReminders st) as [dc|]; [|done]. simpl.
    f_equal. apply bool_decide_ext. rewrite Hid. split; congruence.
  - rewrite (list_find_ext _ (λ c, calendarIdentifier c = l)) by done.
    by rewrite Hfind.
Qed.

(** ** The permission handshake *)

(** X27. A first [get_instance()] that returns: the user's answer to the one
    request it made came within [DEFAULT_TIMEOUT] seconds, carried no error
    and granted access; the instance is committed with [_access_granted]
    set, and the next [get_instance()] returns the same instance without
    another request. *)
Theorem get_instance_first_success :
  ∀ (w w' : World) (self : ReminderStore),
    let response := access_responses w (access_requests w) in
    _instance w = None →
    get_instance w = (Ok self, w') →
    _access_granted self = true ∧
    (∃ t, ar_fired response = Some t ∧ (t <= inject_Z DEFAULT_TIMEOUT)%Q) ∧
    ar_error response = None ∧
    ar_granted response = true ∧
    access_requests w' = S (access_requests w) ∧
    _instance w' = Some self ∧
    get_instance w' = (Ok self, w').
Proof.
  intros w w' self response Hnone.
  unfold get_instance at 1, ReminderStore_init, _request_access_sync.
  rewrite Hnone. fold response.
  unfold event_wait. destruct (ar_fired response) as [t|] eqn:Ef; [|done].
  destruct (Qle_bool t (inject_Z DEFAULT_TIMEOUT)) eqn:Et; [|done].
  simpl. destruct (ar_error response) as [err|]; [done|].
  destruct (ar_granted response); [|done]. simpl.
  intros [= <- <-]. split_and!; try done.
  exists t. split; [done|]. by apply Qle_bool_iff.
Qed.

Lemma get_instance_first_success_witness :
  fst (get_instance late_world) = Raised (PermissionTimeoutError 60) ∧
  get_instance (snd (get_instance (snd (get_instance late_world))))
  = (Ok {| _access_granted := true |},
     snd (get_instance (snd (get_instance late_world)))).
Proof.
  split; [reflexivity|].
  destruct (get_instance_first_success
              (snd (get_instance late_world))
              (snd (get_instance (snd (get_instance late_world))))
              {| _access_granted := true |})
    as (_ & _ & _ & _ & _ & _ & H).
  - reflexivity.
  - vm_compute. reflexivity.
  - exact H.
Defined.

(** X28. Start-up of a fresh process makes exactly one access request. It
    goes on to serve only with an instance committed that was granted
    access; otherwise it exits with status 1 and nothing is committed. *)
Theorem main_serves_only_when_granted :
  ∀ w : World,
    _instance w = None →
    access_requests (snd (main w)) = S (access_requests w) ∧
    match fst (main w) with
    | Serves =>
        _instance (snd (main w)) = Some {| _access_granted := true |} ∧
        ar_granted (access_responses w (access_requests w)) = true
    | Exits status =>
        status = 1 ∧ _instance (snd (main w)) = None
    end.
Proof.
  intros w Hnone.
  unfold main, get_instance, ReminderStore_init, _request_access_sync.
  rewrite Hnone.
  destruct (negb (event_wait _ _)); [done|].
  destruct (ar_error _); [done|].
  by destruct (ar_granted _).
Qed.

Lemma main_serves_only_when_granted_witness :
  fst (main late_world) = Exits 1 ∧
  fst (main (snd (main late_world))) = Serves.
Proof.
  pose proof (main_serves_only_when_granted late_world eq_refl) as [_ H].
  destruct (fst (main late_world)) as [status|] eqn:E.
  - destruct H as [-> _]. split; [reflexivity|]. vm_compute. reflexivity.
  - vm_compute in E. discriminate E.
Defined.

(** ** The source for a new list *)

Lemma first_writable_Some wanted sources source :
  first_writable wanted sources = Some source →
  ∃ k, sources !! k = Some source ∧ wanted source = true ∧
       has_writable_calendar source = true ∧
       ∀ j s, (j < k)%nat → sources !! j = Some s →
              wanted s && has_writable_calendar s = false.
Proof.
  induction sources as [|s rest IH]; [done|]. simpl.
  destruct (wanted s && has_writable_calendar s) eqn:E.
  - intros [= <-]. apply andb_true_iff in E as [? ?].
    exists 0%nat. split_and!; [done..|]. intros j s' Hj. lia.
  - intros H. destruct (IH H) as (k & Hk & Hw & Hc & Hfirst).
    exists (S k). split_and!; [done..|].
    intros [|j] s' Hj Hs'; simpl in Hs'.
    + by injection Hs' as <-.
    + apply (Hfirst j); [lia|done].
Qed.

Lemma first_writable_None wanted sources :
  first_writable wanted sources = None →
  Forall (λ s, wanted s && has_writable_calendar s = false) sources.
Proof.
  induction sources as [|s rest IH]; [constructor|]. simpl.
  destruct (wanted s && has_writable_calendar s) eqn:E; [done|].
  intros H. constructor; [done|by apply IH].
Qed.

(** X29. The priority of [_get_writable_source]: the source of the default
    list when that list can be modified; otherwise the first iCloud/CalDAV
    source with a modifiable reminder list; when there is none, the first
    such Local source; when there is none either, the first source of any
    type that has one. [NoWritableSourceError] is raised exactly when the
    default list cannot be used and no source has a modifiable list. *)
Theorem _get_writable_source_priority :
  ∀ (default_cal : option (EKCalendar * EKSource)) (sources : list EKSource),
    let usable (s : EKSource) := has_writable_calendar s = true in
    let default_usable :=
      ∃ cal source, default_cal = Some (cal, source) ∧
                    allowsContentModifications cal = true in
    match _get_writable_source default_cal sources with
    | Ok source =>
        (∃ cal, default_cal = Some (cal, source) ∧
                allowsContentModifications cal = true) ∨
        (¬ default_usable ∧
         ∃ k, sources !! k = Some source ∧ usable source ∧
              (∀ j s, sources !! j = Some s → usable s →
                      sourceType s = EKSourceTypeCalDAV →
                      sourceType source = EKSourceTypeCalDAV ∧ (k ≤ j)%nat) ∧
              (∀ j s, sources !! j = Some s → usable s →
                      sourceType s = EKSourceTypeLocal →
                      sourceType source = EKSourceTypeCalDAV ∨
                      (sourceType source = EKSourceTypeLocal ∧ (k ≤ j)%nat)) ∧
              (∀ j s, sources !! j = Some s → usable s →
                      sourceType source = EKSourceTypeCalDAV ∨
                      sourceType source = EKSourceTypeLocal ∨ (k ≤ j)%nat))
    | Raised e =>
        e = NoWritableSourceError ∧ ¬ default_usable ∧
        Forall (λ s, ¬ usable s) sources
    end.
Proof.
  intros default_cal sources usable default_usable.
  assert (Hamong :
    ¬ default_usable →
    match writable_source_among sources with
    | Ok source =>
        ¬ default_usable ∧
        ∃ k, sources !! k = Some source ∧ usable source ∧
             (∀ j s, sources !! j = Some s → usable s →
                     sourceType s = EKSourceTypeCalDAV →
                     sourceType source = EKSourceTypeCalDAV ∧ (k ≤ j)%nat) ∧
             (∀ j s, sources !! j = Some s → usable s →
                     sourceType s = EKSourceTypeLocal →
                     sourceType source = EKSourceTypeCalDAV ∨
                     (sourceType source = EKSourceTypeLocal ∧ (k ≤ j)%nat)) ∧
             (∀ j s, sources !! j = Some s → usable s →
                     sourceType source = EKSourceTypeCalDAV ∨
                     sourceType source = EKSourceTypeLocal ∨ (k ≤ j)%nat)
    | Raised e =>
        e = NoWritableSourceError ∧ ¬ default_usable ∧
        Forall (λ s, ¬ usable s) sources
    end).
  { intros Hnot. unfold writable_source_among.
    destruct (first_writable _ sources) as [s1|] eqn:E1.
    { apply first_writable_Some in E1 as (k & Hk & Hw & Hc & Hfirst).
      apply bool_decide_eq_true in Hw.
      split; [done|]. exists k. split_and!; [done..| | |].
      - intros j s Hj Hu Ht. split; [done|].
        destruct (decide (k ≤ j)%nat); [done|]. exfalso.
        specialize (Hfirst j s ltac:(lia) Hj).
        rewrite Hu, bool_decide_eq_true_2 in Hfirst; done.
      - intros. by left.
      - intros. by left. }
    apply first_writable_None in E1. rewrite Forall_lookup in E1.
    destruct (first_writable _ sources) as [s2|] eqn:E2.
    { apply first_writable_Some in E2 as (k & Hk & Hw & Hc & Hfirst).
      apply bool_decide_eq_true in Hw.
      split; [done|]. exists k. split_and!; [done..| | |].
      - intros j s Hj Hu Ht. exfalso.
        specialize (E1 j s Hj). simpl in E1.
        rewrite Hu, bool_decide_eq_true_2 in E1; done.
      - intros j s Hj Hu Ht. right. split; [done|].
        destruct (decide (k ≤ j)%nat); [done|]. exfalso.
        specialize (Hfirst j s ltac:(lia) Hj).
        rewrite Hu, bool_decide_eq_true_2 in Hfirst; done.
      - intros. right. by left. }
    apply first_writable_None in E2. rewrite Forall_lookup in E2.
    destruct (first_writable _ sources) as [s3|] eqn:E3.
    { apply first_writable_Some in E3 as (k & Hk & _ & Hc & Hfirst).
      split; [done|]. exists k. split_and!; [done..| | |].
      - intros j s Hj Hu Ht. exfalso.
        specialize (E1 j s Hj). simpl in E1.
        rewrite Hu, bool_decide_eq_true_2 in E1; done.
      - intros j s Hj Hu Ht. exfalso.
        specialize (E2 j s Hj). simpl in E2.
        rewrite Hu, bool_decide_eq_true_2 in E2; done.
      - intros j s Hj Hu. right. right.
        destruct (decide (k ≤ j)%nat); [done|]. exfalso.
        specialize (Hfirst j s ltac:(lia) Hj).
        simpl in Hfirst. by rewrite Hu in Hfirst. }
    apply first_writable_None in E3.
    split_and!; [done..|].
    eapply Forall_impl; [exact E3|]. intros s Hs Hu. simpl in Hs.
    unfold usable in Hu. congruence. }
  unfold _get_writable_source.
  destruct default_cal as [[cal source]|].
  - destruct (allowsContentModifications cal) eqn:Ea.
    + left. by exists cal.
    + assert (Hnot : ¬ default_usable).
      { intros (c & s & [= <- <-] & Hc). congruence. }
      specialize (Hamong Hnot).
      destruct (writable_source_among sources); [by right|done].
  - assert (Hnot : ¬ default_usable) by (by intros (c & s & ? & _)).
    specialize (Hamong Hnot).
    destruct (writable_source_among sources); [by right|done].
Qed.

(** ** Calls to [run_eventkit] one after the other *)

Section SerializerInTurn.
Import Serializer.
Local Open Scope nat_scope.

Lemma run_to_end_others {St Val} (s : @System St Val) t fn t' :
  wait_queue (limiter_of s) = [] → borrowers (limiter_of s) = [] →
  total_tokens (limiter_of s) = 1 → t' ≠ t →
  callers (run_to_end t fn s) !! t' = callers s !! t'.
Proof.
  intros Hq Hb Htok Hne. unfold run_to_end, leave.
  change (limiter_of (complete t fn (dispatch t fn (call t fn s))))
    with (limiter_of (call t fn s)).
  assert (Hl1 : limiter_of (call t fn s)
                = {| total_tokens := 1; borrowers := [t]; wait_queue := [] |}).
  { unfold call, acquire. rewrite Hq, Hb, Htok. reflexivity. }
  rewrite Hl1. unfold release. cbn [borrowers wait_queue total_tokens].
  cbn [callers wake complete dispatch].
  rewrite !lookup_insert_ne by done.
  unfold call, acquire. rewrite Hq, Hb, Htok. simpl.
  by rewrite lookup_insert_ne.
Qed.



End SerializerInTurn.
